(** * omp-sieve: the sieve of Eratosthenes with a partitioned marking step

    A shallow embedding of [lab01/05/omp-sieve.c] and the properties of
    its two functions, [mark] and [main].

    Conventions of the embedding.
    - A C [long] is a [Z] in [-2^63, 2^63); every arithmetic operation of
      the source is followed by the two's complement wrap-around of the
      target (x86-64), written out in [Long.wrap].  An [int] is treated
      the same way on 32 bits.
    - The buffer [isprime] is a [list char]; a [char] is the [Z] stored in
      the cell, and a cell counts as true when it is not 0, as in
      [if (isprime[x])].
    - A computation ends in an [outcome]: [Done v], or [Undefined] when
      the source has no defined behaviour (an access outside the buffer,
      a division by zero), or [OutOfFuel] when a loop did not finish
      within the bound the embedding gives it.
    - The [omp parallel] region of [mark] is run by a team of
      [num_threads] threads that share the buffer and the counter
      [nmarked].  A thread is a small machine with a program counter;
      its steps are the accesses to shared memory: the test of the loop
      together with the read of [isprime[x]], the write
      [isprime[x] = 0], and the [omp atomic] increment of [nmarked].
      An execution of the region is an interleaving of the steps of the
      threads, given as a list of thread ids; the region ends, at its
      implicit barrier, when every thread is past its loop.  Shared
      memory is sequentially consistent. *)

From Stdlib Require Import ZArith Lia List Znumtheory Bool.
From stdpp Require Import base list numbers.
Local Open Scope Z_scope.

(** ** Machine integers *)

Module Long.
Definition MAX : Z := 2 ^ 63 - 1.
Definition MIN : Z := - 2 ^ 63.
Definition wrap (z : Z) : Z := (z + 2 ^ 63) mod 2 ^ 64 - 2 ^ 63.
Definition add (a b : Z) : Z := wrap (a + b).
Definition sub (a b : Z) : Z := wrap (a - b).
Definition mul (a b : Z) : Z := wrap (a * b).
(** conversion to [unsigned long], as in the comparison of [main] *)
Definition to_unsigned (z : Z) : Z := z mod 2 ^ 64.
End Long.

Module Int.
Definition MAX : Z := 2 ^ 31 - 1.
Definition wrap (z : Z) : Z := (z + 2 ^ 31) mod 2 ^ 32 - 2 ^ 31.
Definition add (a b : Z) : Z := wrap (a + b).
End Int.

(** A [char] is the number stored in the cell. *)
Abbreviation char := Z (only parsing).

(** ** Outcomes and loops *)

Inductive outcome (A : Type) : Type :=
  | Done (a : A)
  | Undefined
  | OutOfFuel.
Arguments Done {A} a.
Arguments Undefined {A}.
Arguments OutOfFuel {A}.

Definition bind {A B : Type} (m : outcome A) (k : A -> outcome B) : outcome B :=
  match m with
  | Done a => k a
  | Undefined => Undefined
  | OutOfFuel => OutOfFuel
  end.

Notation "'do' x <- m ; k" := (bind m (fun x => k))
  (at level 10, x pattern, m at level 100, k at level 200).

(** What one turn of a C loop does: go round again, or leave the loop
    because its condition is false.  A loop is run with a bound on the
    number of its turns ([fuel]); a loop that needs more ends in
    [OutOfFuel], never in a state of its own. *)
Inductive ctl (S : Type) : Type :=
  | Again (s : S)
  | Break (s : S).
Arguments Again {S} s.
Arguments Break {S} s.

Fixpoint while {S : Type} (turn : S -> outcome (ctl S)) (fuel : nat) (s : S)
  : outcome S :=
  match fuel with
  | O => OutOfFuel
  | Datatypes.S fuel' =>
      match turn s with
      | Done (Again s') => while turn fuel' s'
      | Done (Break s') => Done s'
      | Undefined => Undefined
      | OutOfFuel => OutOfFuel
      end
  end.

(** The state after at most [k] turns of a loop (it stays where the loop
    was left): the intermediate states of a run. *)
Fixpoint turns {S : Type} (turn : S -> outcome (ctl S)) (k : nat) (s : S)
  : outcome S :=
  match k with
  | O => Done s
  | Datatypes.S k' =>
      match turn s with
      | Done (Again s') => turns turn k' s'
      | Done (Break s') => Done s'
      | Undefined => Undefined
      | OutOfFuel => OutOfFuel
      end
  end.

(** Running a body once for each element of a list, threading the state. *)
Fixpoint for_each {S I : Type} (body : I -> S -> outcome S) (l : list I) (s : S)
  : outcome S :=
  match l with
  | [] => Done s
  | i :: l' => do s' <- body i s; for_each body l' s'
  end.

(** ** The buffer *)

(** [a[x]] as an rvalue and [a[x] = c]; outside the buffer the source has
    no defined behaviour. *)
Definition load (a : list char) (x : Z) : outcome char :=
  if x <? 0 then Undefined
  else match a !! Z.to_nat x with
       | Some c => Done c
       | None => Undefined
       end.

Definition store (a : list char) (x : Z) (c : char) : outcome (list char) :=
  if x <? 0 then Undefined
  else if (Z.to_nat x <? length a)%nat then Done (<[Z.to_nat x := c]> a)
  else Undefined.

(** [a / b] on [long]; [Z.quot] truncates toward zero as C does. *)
Definition long_div (a b : Z) : outcome Z :=
  if b =? 0 then Undefined else Done (Long.wrap (a ÷ b)).

(** ** [mark] *)

(** The bounds of the block of thread [my_id] in a team of [num_threads]. *)
Definition block_from (num_threads from to my_id : Z) : outcome Z :=
  let n := Long.sub to from in
  do q <- long_div (Long.mul n my_id) num_threads;
  Done (Long.add from q).

Definition block_to (num_threads from to my_id : Z) : outcome Z :=
  let n := Long.sub to from in
  do q <- long_div (Long.mul n (Int.add my_id 1)) num_threads;
  Done (Long.add from q).

(** [my_from = ((my_from + p - 1)/p)*p] *)
Definition align_up (my_from p : Z) : outcome Z :=
  do q <- long_div (Long.sub (Long.add my_from p) 1) p;
  Done (Long.mul q p).

(** Where a thread stands in the loop of the region.  Between two of
    these points a thread touches the shared variables once at most. *)
Inductive pc : Type :=
  | AtTest (x : Z)     (* at [x<my_to], before it reads [isprime[x]] *)
  | AtWrite (x : Z)    (* [isprime[x]] was read as true; at [isprime[x] = 0] *)
  | AtCount (x : Z)    (* at the atomic [nmarked++] *)
  | Finished.          (* past the loop *)

(** The variables of a thread: [my_from] after alignment, [my_to], and
    its [x] with the point it stands at. *)
Record thread : Type := Thread {
  th_from : Z;
  th_to : Z;
  th_pc : pc
}.

(** The region up to the loop, for thread [my_id]. *)
Definition thread_start (num_threads from to p my_id : Z) : outcome thread :=
  do my_from <- block_from num_threads from to my_id;
  do my_to <- block_to num_threads from to my_id;
  do my_from <- align_up my_from p;
  Done (Thread my_from my_to (AtTest my_from)).

(** One step of a thread on the shared [isprime] and [nmarked]. *)
Definition thread_step (p : Z) (t : thread) (sh : list char * Z)
  : outcome (thread * (list char * Z)) :=
  match th_pc t with
  | AtTest x =>
      if x <? th_to t then
        do c <- load (fst sh) x;
        if c =? 0
        then Done (Thread (th_from t) (th_to t) (AtTest (Long.add x p)), sh)
        else Done (Thread (th_from t) (th_to t) (AtWrite x), sh)
      else Done (Thread (th_from t) (th_to t) Finished, sh)
  | AtWrite x =>
      do a <- store (fst sh) x 0;
      Done (Thread (th_from t) (th_to t) (AtCount x), (a, snd sh))
  | AtCount x =>
      Done (Thread (th_from t) (th_to t) (AtTest (Long.add x p)),
            (fst sh, Long.add (snd sh) 1))
  | Finished => Done (t, sh)
  end.

(** A team in the region: its threads, by id, and the shared variables. *)
Record team : Type := Team {
  tm_threads : list thread;
  tm_isprime : list char;
  tm_nmarked : Z
}.

(** Running [f] on each element of a list and collecting the results. *)
Fixpoint collect {A B : Type} (f : A -> outcome B) (l : list A)
  : outcome (list B) :=
  match l with
  | [] => Done []
  | x :: l' => do y <- f x; do ys <- collect f l'; Done (y :: ys)
  end.

(** The team enters the region: [nmarked] is 0 and each thread has
    computed its bounds. *)
Definition team_start (num_threads : Z) (isprime : list char) (from to p : Z)
  : outcome team :=
  do threads <- collect (thread_start num_threads from to p)
                        (seqZ 0 num_threads);
  Done (Team threads isprime 0).

(** Thread [id] takes one step (an [id] that names no thread of the team
    takes none). *)
Definition team_step (p : Z) (id : Z) (tm : team) : outcome team :=
  if id <? 0 then Done tm
  else match tm_threads tm !! Z.to_nat id with
       | None => Done tm
       | Some t =>
           do r <- thread_step p t (tm_isprime tm, tm_nmarked tm);
           Done (Team (<[Z.to_nat id := fst r]> (tm_threads tm))
                      (fst (snd r)) (snd (snd r)))
       end.

(** Thread [id] runs on its own until it is past its loop.  From [x] it
    has at most [my_to - x] turns of three steps to make, and the step
    that ends the loop. *)
Definition finish_turn (p : Z) (id : Z) (tm : team) : outcome (ctl team) :=
  match tm_threads tm !! Z.to_nat id with
  | None => Done (Break tm)
  | Some t =>
      match th_pc t with
      | Finished => Done (Break tm)
      | _ => do tm' <- team_step p id tm; Done (Again tm')
      end
  end.

Definition pos_of (t : thread) : Z :=
  match th_pc t with
  | AtTest x | AtWrite x | AtCount x => x
  | Finished => th_to t
  end.

Definition finish (p : Z) (id : Z) (tm : team) : outcome team :=
  if id <? 0 then Done tm
  else match tm_threads tm !! Z.to_nat id with
       | None => Done tm
       | Some t =>
           while (finish_turn p id)
                 (Datatypes.S (Datatypes.S (3 * Z.to_nat (th_to t - pos_of t))))
                 tm
       end.

(** [long mark( char *isprime, long from, long to, long p )]: the buffer
    after the call and the value returned.  The threads of the team take
    their steps in the order [interleaving] gives (a list of thread
    ids, one step each); the region ends when every thread is past its
    loop, so the threads still running after the interleaving run to
    their end.  Every execution of the region is of this form. *)
Definition mark (num_threads : Z) (interleaving : list Z)
    (isprime : list char) (from to p : Z) : outcome (list char * Z) :=
  do tm <- team_start num_threads isprime from to p;
  do tm <- for_each (team_step p) interleaving tm;
  do tm <- for_each (finish p) (seqZ 0 num_threads) tm;
  Done (tm_isprime tm, tm_nmarked tm).

(** ** [main] *)

(** What a run of the program does that can be seen from outside.  The
    two readings of the wall clock and the line that prints their
    difference are left out. *)
Inductive message : Type :=
  | Usage                            (* "Usage: %s [n]\n" *)
  | Fatal_too_large.                 (* "FATAL: n too large\n" *)

Inductive event : Type :=
  | Stderr (msg : message)           (* fprintf(stderr, ...) *)
  | Malloc (size : Z)                (* malloc(n+1) *)
  | Free                             (* free(isprime) *)
  | Report (nprimes n : Z).          (* "There are %ld primes in {2, ..., %ld}\n" *)

Inductive exit_status : Type := EXIT_SUCCESS | EXIT_FAILURE.

(** Fresh memory holds arbitrary bytes: [heap i] is the byte found at
    offset [i] of the block [malloc] returns.  The allocation itself is
    taken to succeed. *)
Definition malloc (heap : nat -> char) (size : Z) : list char :=
  map heap (seq 0 (Z.to_nat size)).

Record init_state : Type := InitState {
  is_isprime : list char;
  is_i : Z
}.

(** One turn of [for (i=0; i<=n; i++) isprime[i] = 1;]. *)
Definition init_turn (n : Z) (s : init_state) : outcome (ctl init_state) :=
  if is_i s <=? n then
    do a <- store (is_isprime s) (is_i s) 1;
    Done (Again (InitState a (Long.add (is_i s) 1)))
  else Done (Break s).

(** [malloc(n+1)] and the loop that fills the buffer; the loop makes
    [n + 1] turns before the test that ends it. *)
Definition init_isprime (heap : nat -> char) (n : Z) : outcome (list char) :=
  do s <- while (init_turn n) (Datatypes.S (Z.to_nat (n + 1)))
            (InitState (malloc heap (Long.add n 1)) 0);
  Done (is_isprime s).

Record sieve_state : Type := SieveState {
  ss_isprime : list char;
  ss_nprimes : Z;
  ss_i : Z
}.

(** One turn of the main iteration,
    [for (i=2; i*i <= n; i++) if (isprime[i]) nprimes -= mark(isprime, i*i, n+1, i);].
    [sched i] is the interleaving of the threads in the call of round
    [i]. *)
Definition sieve_turn (num_threads : Z) (sched : Z -> list Z) (n : Z)
    (s : sieve_state) : outcome (ctl sieve_state) :=
  let i := ss_i s in
  if Long.mul i i <=? n then
    do c <- load (ss_isprime s) i;
    if c =? 0 then
      Done (Again (SieveState (ss_isprime s) (ss_nprimes s) (Long.add i 1)))
    else
      do r <- mark num_threads (sched i) (ss_isprime s)
                   (Long.mul i i) (Long.add n 1) i;
      Done (Again (SieveState (fst r) (Long.sub (ss_nprimes s) (snd r))
                              (Long.add i 1)))
  else Done (Break s).

Definition sieve_start (isprime : list char) (n : Z) : sieve_state :=
  SieveState isprime (Long.sub n 1) 2.

(** From the allocation to the end of the main iteration: the value of
    [nprimes] that the program reports for [n].  The main iteration
    goes up from 2 and stops before [i] exceeds [n + 2]. *)
Definition sieve (num_threads : Z) (sched : Z -> list Z) (heap : nat -> char)
    (n : Z) : outcome Z :=
  do isprime <- init_isprime heap n;
  do s <- while (sieve_turn num_threads sched n) (Datatypes.S (Z.to_nat n))
            (sieve_start isprime n);
  Done (ss_nprimes s).

(** [n > (1ul << 31)]: [n] is converted to [unsigned long]. *)
Definition too_large (n : Z) : bool := 2 ^ 31 <? Long.to_unsigned n.

(** [main], from the test of [n] on. *)
Definition main_with (num_threads : Z) (sched : Z -> list Z)
    (heap : nat -> char) (n : Z) : outcome (list event * exit_status) :=
  if too_large n then
    Done ([Stderr Fatal_too_large], EXIT_FAILURE)
  else
    do nprimes <- sieve num_threads sched heap n;
    Done ([Malloc (Long.add n 1); Free; Report nprimes n], EXIT_SUCCESS).

(** [main]; [args] are the command-line arguments after the program name,
    each already converted by [atol].  The environment of a run: the
    size [num_threads] of the team, the interleaving [sched i] of its
    threads in each round, and what fresh memory holds. *)
Definition main (num_threads : Z) (sched : Z -> list Z) (heap : nat -> char)
    (args : list Z) : outcome (list event * exit_status) :=
  match args with
  | [] => main_with num_threads sched heap 1000000
  | [n] => main_with num_threads sched heap n
  | _ => Done ([Stderr Usage], EXIT_FAILURE)
  end.

(** The run that reports [nprimes] for [n]. *)
Definition reports (nprimes n : Z) : outcome (list event * exit_status) :=
  Done ([Malloc (n + 1); Free; Report nprimes n], EXIT_SUCCESS).

(** ** Reading the buffer as a set of flags *)

(** [flag a x]: cell [x] of [a] exists and is true. *)
Definition flag (a : list char) (x : Z) : bool :=
  if x <? 0 then false
  else match a !! Z.to_nat x with
       | Some c => negb (c =? 0)
       | None => false
       end.

(** The buffer [a] with the cells whose index satisfies [P] set to 0. *)
Definition strike (P : Z -> bool) (a : list char) : list char :=
  imap (fun i c => if P (Z.of_nat i) then 0 else c) a.

(** Number of cells of [a] that hold 0. *)
Fixpoint zeros (a : list char) : Z :=
  match a with
  | [] => 0
  | c :: a' => (if c =? 0 then 1 else 0) + zeros a'
  end.

(** Number of [i] in [lo, lo + len) with [f i]. *)
Fixpoint countZ (f : Z -> bool) (lo : Z) (len : nat) : Z :=
  match len with
  | O => 0
  | Datatypes.S k => (if f lo then 1 else 0) + countZ f (lo + 1) k
  end.

(** Number of cells that are true in [a] and 0 in [a']: what a call that
    turns [a] into [a'] has marked for the first time. *)
Definition newly_marked (a a' : list char) : Z :=
  countZ (fun i => flag a i && negb (flag a' i)) 0 (length a).

(** [x] is a multiple of [p] in [from, to). *)
Definition multiple_in (from to p : Z) (x : Z) : bool :=
  (from <=? x) && (x <? to) && (x mod p =? 0).

(** ** The blocks of a team, as formulas *)

(** The [k]-th boundary of the partition of [from, to) into
    [num_threads] blocks: block [id] runs from boundary [id] to boundary
    [id + 1]. *)
Definition sub_bound (num_threads from to k : Z) : Z :=
  from + ((to - from) * k) / num_threads.

Definition in_block (num_threads from to id : Z) (x : Z) : bool :=
  (sub_bound num_threads from to id <=? x) &&
  (x <? sub_bound num_threads from to (id + 1)).

(** ** The shared variables of a call of [mark], as a function of the
    cells struck so far *)

(** [P] holds only inside [from, to). *)
Definition inside (from to : Z) (P : Z -> bool) : Prop :=
  forall y, P y = true -> from <= y < to.

(** The shared variables of a call entered with the buffer [a0], when the
    cells whose index satisfies [P] have been struck: the counter holds
    the number of cells that turned from true to 0. *)
Definition shared_at (a0 : list char) (P : Z -> bool) : list char * Z :=
  (strike P a0, zeros (strike P a0) - zeros a0).

(** The cells a loop of stride [p] started at [x0] has visited when it
    stands at [x]. *)
Definition visited (p x0 my_to x : Z) (y : Z) : bool :=
  (x0 <=? y) && (y <? x) && (y <? my_to) && ((y - x0) mod p =? 0).

(** ** The state of a team, as a function of what its threads have done *)

(** The least multiple of [p] that is at least [my_from]. *)
Definition aligned (p my_from : Z) : Z := (my_from + p - 1) / p * p.

(** Thread [id] as it enters its loop. *)
Definition started (num_threads from to p id : Z) : thread :=
  Thread (aligned p (sub_bound num_threads from to id))
         (sub_bound num_threads from to (id + 1))
         (AtTest (aligned p (sub_bound num_threads from to id))).

(** The cells thread [t] has dealt with: those its loop has gone past. *)
Definition done_of (p : Z) (t : thread) (y : Z) : bool :=
  visited p (th_from t) (th_to t) (pos_of t) y.

(** The cell thread [t] has cleared and not yet counted. *)
Definition written_of (t : thread) (y : Z) : bool :=
  match th_pc t with
  | AtCount x => y =? x
  | _ => false
  end.

Definition done_cells (p : Z) (threads : list thread) (y : Z) : bool :=
  existsb (fun t => done_of p t y) threads.

Definition written_cells (threads : list thread) (y : Z) : bool :=
  existsb (fun t => written_of t y) threads.

(** Thread [t] is thread [id] of a team of [num_threads] in a call
    entered with the buffer [a0]: its bounds are those of block [id],
    aligned, its [x] is on its way from [my_from] by steps of [p], and
    the cell it is about to clear or to count was true in [a0]. *)
Definition wf_thread (num_threads from to p : Z) (a0 : list char)
    (id : Z) (t : thread) : Prop :=
  sub_bound num_threads from to id <= th_from t
    < sub_bound num_threads from to id + p /\
  th_from t mod p = 0 /\
  th_to t = sub_bound num_threads from to (id + 1) /\
  match th_pc t with
  | AtTest x => th_from t <= x /\ (x - th_from t) mod p = 0
  | AtWrite x | AtCount x =>
      th_from t <= x < th_to t /\ (x - th_from t) mod p = 0 /\
      flag a0 x = true
  | Finished => True
  end.

(** The invariant of the region: the buffer is [a0] with the cells
    cleared that some thread has dealt with or has just written, and
    [nmarked] counts the cells dealt with that were true in [a0]. *)
Definition team_inv (num_threads from to p : Z) (a0 : list char)
    (tm : team) : Prop :=
  length (tm_threads tm) = Z.to_nat num_threads /\
  (forall (id : nat) t, tm_threads tm !! id = Some t ->
     wf_thread num_threads from to p a0 (Z.of_nat id) t) /\
  tm_isprime tm =
    strike (fun y => done_cells p (tm_threads tm) y ||
                     written_cells (tm_threads tm) y) a0 /\
  tm_nmarked tm = zeros (strike (done_cells p (tm_threads tm)) a0) - zeros a0.

(** The steps thread [t] still has to take, at most. *)
Definition thread_measure (t : thread) : nat :=
  match th_pc t with
  | AtTest x => 3 * Z.to_nat (th_to t - x) + 1
  | AtWrite x => 3 * Z.to_nat (th_to t - x)
  | AtCount x => 3 * Z.to_nat (th_to t - x) - 1
  | Finished => 0
  end.

(** Sum of the sizes [my_to - my_from] of the blocks of the threads in
    [ids], before alignment. *)
Definition sum_sizes (num_threads from to : Z) (ids : list Z) : outcome Z :=
  for_each (fun id acc =>
              do a <- block_from num_threads from to id;
              do b <- block_to num_threads from to id;
              Done (acc + (b - a)))
           ids 0.

(** ** Primes *)

(** [y] is a multiple of some [d] with [2 <= d < i] and [d * d <= y]: the
    cells the main iteration has struck when it stands at [i]. *)
Definition struck (i y : Z) : bool :=
  existsb (fun d => (d * d <=? y) && (y mod d =? 0)) (seqZ 2 (i - 2)).

Definition composite (y : Z) : bool := struck y y.

(** The prime-counting function: the number of primes in {2, ..., n}. *)
Definition pi (n : Z) : Z :=
  countZ (fun y => if prime_dec y then true else false) 2 (Z.to_nat (n - 1)).

(** ** A sieve that evaluates quickly

    The same iteration over a list of booleans that holds the odd
    numbers only (element [k] stands for [2 * k + 1]), one pass over the
    list for each call of [mark]; the even numbers are counted by a
    formula.  It is used to evaluate the count for large [n]. *)

(** Clear the element [c] places ahead and every [p]-th one after it. *)
Fixpoint cross_out (p c : nat) (l : list bool) : list bool :=
  match l with
  | [] => []
  | b :: l' =>
      match c with
      | O => false :: cross_out p (p - 1) l'
      | Datatypes.S c' => b :: cross_out p c' l'
      end
  end.

(** The rounds for the odd [i] from the given one on: the square of [i]
    is element [i * i / 2], and the odd multiples of [i] are [i]
    elements apart. *)
Fixpoint fast_rounds (fuel : nat) (n i : Z) (l : list bool) : list bool :=
  match fuel with
  | O => l
  | Datatypes.S fuel' =>
      if i * i <=? n then
        fast_rounds fuel' n (i + 2)
          (if nth (Z.to_nat (i / 2)) l false
           then cross_out (Z.to_nat i) (Z.to_nat (i * i / 2)) l
           else l)
      else l
  end.

Fixpoint count_false (l : list bool) : Z :=
  match l with
  | [] => 0
  | b :: l' => (if b then 0 else 1) + count_false l'
  end.

(** [n - 1] less the even numbers from 4 on and the odd numbers struck. *)
Definition fast_count (n : Z) : Z :=
  n - 1 - Z.max 0 (n / 2 - 1)
  - count_false (fast_rounds (Z.to_nat n) n 3
                   (repeat true (Z.to_nat ((n + 1) / 2)))).

(** ** Monotonicity of the flags *)

(** No cell is true in [a'] that was not true in [a]: going from [a] to
    [a'], flags only go from true to false. *)
Definition only_cleared (a a' : list char) : Prop :=
  length a' = length a /\ forall x, flag a' x = true -> flag a x = true.

(** ** The states of the main iteration *)

(** The buffer after initialisation. *)
Definition ones (n : Z) : list char := replicate (Z.to_nat (n + 1)) 1.

(** The state of the main iteration when it stands at [i]: the numbers
    struck in earlier rounds are cleared, and [nprimes] has been lowered
    by their count. *)
Definition at_round (n i : Z) : sieve_state :=
  SieveState (strike (struck i) (ones n))
             (n - 1 - zeros (strike (struck i) (ones n))) i.

(** The list [l] holds the flags of the odd numbers up to [n] when the
    main iteration stands at [i]. *)
Definition flags_at (n i : Z) (l : list bool) : Prop :=
  length l = Z.to_nat ((n + 1) / 2) /\
  forall k : nat, 2 * Z.of_nat k + 1 <= n ->
                  nth k l false = negb (struck i (2 * Z.of_nat k + 1)).

(** ** The properties asked of [mark] and of the partition *)

(** What a call [mark(a, from, to, p)] with outcome [result] is to do: it
    returns, having set to 0 the cells of [a] whose index is a multiple of
    [p] in [from, to) and left every other cell as it was, and its value
    is the number of cells that went from true to 0. *)
Definition mark_contract (result : outcome (list char * Z))
    (a : list char) (from to p : Z) : Prop :=
  exists a' k,
    result = Done (a', k) /\
    length a' = length a /\
    (forall (j : nat) (c : Z), a !! j = Some c ->
       a' !! j = Some (if multiple_in from to p (Z.of_nat j) then 0 else c)) /\
    k = newly_marked a a'.

(** A call with outcome [result] returns and leaves the cells outside
    [from, to) as they were. *)
Definition writes_within (result : outcome (list char * Z))
    (a : list char) (from to : Z) : Prop :=
  exists a' k,
    result = Done (a', k) /\
    forall j : nat, ~ (from <= Z.of_nat j < to) -> a' !! j = a !! j.

(** Two calls of [mark] in succession on the same buffer and range: both
    return, the first a count that is not negative, the second 0. *)
Definition second_call_marks_nothing (num_threads : Z)
    (interleaving1 interleaving2 : list Z) (a : list char)
    (from to p : Z) : Prop :=
  exists a1 k1 a2,
    mark num_threads interleaving1 a from to p = Done (a1, k1) /\ 0 <= k1 /\
    mark num_threads interleaving2 a1 from to p = Done (a2, 0).

(** The blocks of a team of [num_threads] partition [from, to): each
    block is computed, block 0 starts at [from], each block ends where
    the next one starts, the last one ends at [to], every point of
    [from, to) lies in one block and one only, and the sizes add up to
    [to - from]. *)
Definition partitions (num_threads from to : Z) : Prop :=
  (forall id, 0 <= id < num_threads ->
     exists a b,
       block_from num_threads from to id = Done a /\
       block_to num_threads from to id = Done b /\
       a <= b /\
       (id = 0 -> a = from) /\
       (id = num_threads - 1 -> b = to) /\
       (id + 1 < num_threads ->
        block_from num_threads from to (id + 1) = Done b)) /\
  (forall x, from <= x < to ->
     exists id, 0 <= id < num_threads /\
       (exists a b, block_from num_threads from to id = Done a /\
                    block_to num_threads from to id = Done b /\
                    a <= x < b) /\
       (forall id' a b, 0 <= id' < num_threads ->
          block_from num_threads from to id' = Done a ->
          block_to num_threads from to id' = Done b ->
          a <= x < b -> id' = id)) /\
  sum_sizes num_threads from to (seqZ 0 num_threads) = Done (to - from).

(** The run that refuses [n]. *)
Definition refuses : outcome (list event * exit_status) :=
  Done ([Stderr Fatal_too_large], EXIT_FAILURE).

(** Some thread of the team stands before the write [isprime[x] = 0]. *)
Definition about_to_write (tm : team) (x : Z) : Prop :=
  exists (j : nat) t, tm_threads tm !! j = Some t /\ th_pc t = AtWrite x.

(** Thread [j] of the team is past its loop. *)
Definition finished_in (tm : team) (j : nat) : Prop :=
  exists t, tm_threads tm !! j = Some t /\ th_pc t = Finished.

(** ** Accesses to the buffer inside the region *)

(** Thread [t] stands at an access of cell [x] of the buffer: the read
    of [isprime[x]] after a test [x<my_to] that holds, or the write
    [isprime[x] = 0]. *)
Definition accesses (t : thread) (x : Z) : Prop :=
  (th_pc t = AtTest x /\ x < th_to t) \/ th_pc t = AtWrite x.

(** Thread [t] has no turn of its loop left: it is past the loop, or
    at a test [x<my_to] that fails. *)
Definition idle (t : thread) : Prop :=
  match th_pc t with
  | AtTest x => th_to t <= x
  | AtWrite _ | AtCount _ => False
  | Finished => True
  end.

(** * Properties *)

(** ** Machine arithmetic within range *)

Lemma long_wrap_id z : Long.MIN <= z <= Long.MAX -> Long.wrap z = z.
Proof.
  unfold Long.MIN, Long.MAX, Long.wrap. intros H.
  rewrite Z.mod_small; lia.
Qed.

Lemma int_wrap_id z : - 2 ^ 31 <= z <= Int.MAX -> Int.wrap z = z.
Proof.
  unfold Int.MAX, Int.wrap. intros H.
  rewrite Z.mod_small; lia.
Qed.

Lemma long_add_exact a b :
  Long.MIN <= a + b <= Long.MAX -> Long.add a b = a + b.
Proof. apply long_wrap_id. Qed.

Lemma long_sub_exact a b :
  Long.MIN <= a - b <= Long.MAX -> Long.sub a b = a - b.
Proof. apply long_wrap_id. Qed.

Lemma long_mul_exact a b :
  Long.MIN <= a * b <= Long.MAX -> Long.mul a b = a * b.
Proof. apply long_wrap_id. Qed.

Lemma long_div_exact a b :
  0 <= a <= Long.MAX -> 0 < b -> long_div a b = Done (a / b).
Proof.
  intros Ha Hb. unfold long_div.
  destruct (Z.eqb_spec b 0) as [->|_]; [lia|].
  rewrite Z.quot_div_nonneg by lia.
  rewrite long_wrap_id; [done|].
  assert (0 <= a / b) by (apply Z.div_pos; lia).
  assert (a / b <= a) by (apply Z.div_le_upper_bound; nia).
  unfold Long.MIN, Long.MAX in *. lia.
Qed.

(** ** Loops *)

Lemma bind_done {A B : Type} (a : A) (k : A -> outcome B) :
  bind (Done a) k = k a.
Proof. done. Qed.

Section Loops.
Context {S : Type} (turn : S -> outcome (ctl S)).

(** Total correctness of a loop from an invariant and a measure. *)
Lemma while_total (Inv Post : S -> Prop) (m : S -> nat) :
  (forall s, Inv s ->
     (exists s', turn s = Done (Again s') /\ Inv s' /\ (m s' < m s)%nat) \/
     (exists s', turn s = Done (Break s') /\ Post s')) ->
  forall fuel s, Inv s -> (m s < fuel)%nat ->
    exists s', while turn fuel s = Done s' /\ Post s'.
Proof.
  intros Hturn fuel. induction fuel as [|fuel IH]; intros s Hs Hm; [lia|].
  simpl. destruct (Hturn s Hs) as [(s' & -> & Hs' & Hlt)|(s' & -> & Hp)].
  - apply IH; [done|lia].
  - eauto.
Qed.

(** A preorder that every turn respects relates the two ends of a run,
    and any two states of it. *)
Context (R : S -> S -> Prop).
Hypothesis R_refl : forall s, R s s.
Hypothesis R_trans : forall s1 s2 s3, R s1 s2 -> R s2 s3 -> R s1 s3.
Hypothesis R_turn_again : forall s s', turn s = Done (Again s') -> R s s'.
Hypothesis R_turn_break : forall s s', turn s = Done (Break s') -> R s s'.

Lemma while_related fuel s s' : while turn fuel s = Done s' -> R s s'.
Proof.
  revert s. induction fuel as [|fuel IH]; intros s; simpl; [done|].
  destruct (turn s) as [[s1|s1]| |] eqn:E; try done.
  - intros H. eapply R_trans; [by apply R_turn_again|by apply IH].
  - intros [= <-]. by apply R_turn_break.
Qed.

Lemma turns_related k s s' : turns turn k s = Done s' -> R s s'.
Proof.
  revert s. induction k as [|k IH]; intros s; simpl.
  - intros [= <-]. apply R_refl.
  - destruct (turn s) as [[s1|s1]| |] eqn:E; try done.
    + intros H. eapply R_trans; [by apply R_turn_again|by apply IH].
    + intros [= <-]. by apply R_turn_break.
Qed.

Lemma turns_add j k s sj :
  turns turn j s = Done sj ->
  turns turn (j + k) s = Done sj \/
  exists k', turns turn (j + k) s = turns turn k' sj.
Proof.
  revert s. induction j as [|j IH]; intros s; simpl.
  - intros [= <-]. right. by exists k.
  - destruct (turn s) as [[s1|s1]| |] eqn:E; try done.
    + apply IH.
    + intros [= <-]. by left.
Qed.

Lemma turns_later j k s sj sk :
  (j <= k)%nat ->
  turns turn j s = Done sj -> turns turn k s = Done sk -> R sj sk.
Proof.
  intros Hjk Hj Hk. replace k with (j + (k - j))%nat in Hk by lia.
  destruct (turns_add j (k - j) s sj Hj) as [H|[k' H]]; rewrite H in Hk.
  - injection Hk as <-. apply R_refl.
  - by eapply turns_related.
Qed.

(** The loop ends in the state its turns reach. *)
Lemma while_turns fuel s s' :
  while turn fuel s = Done s' -> turns turn fuel s = Done s'.
Proof.
  revert s. induction fuel as [|fuel IH]; intros s; simpl; [done|].
  destruct (turn s) as [[s1|s1]| |]; try done. apply IH.
Qed.
End Loops.

Lemma for_each_related {S I : Type} (body : I -> S -> outcome S)
    (R : S -> S -> Prop) :
  (forall s, R s s) ->
  (forall s1 s2 s3, R s1 s2 -> R s2 s3 -> R s1 s3) ->
  (forall i s s', body i s = Done s' -> R s s') ->
  forall l s s', for_each body l s = Done s' -> R s s'.
Proof.
  intros Hrefl Htrans Hbody l. induction l as [|i l IH]; intros s s'; simpl.
  - intros [= <-]. apply Hrefl.
  - destruct (body i s) as [s1| |] eqn:E; simpl; try done.
    intros H. eapply Htrans; [by eapply Hbody|by apply IH].
Qed.

(** ** Counting over a range of indices *)

Lemma countZ_bounds f lo len : 0 <= countZ f lo len <= Z.of_nat len.
Proof.
  revert lo. induction len as [|len IH]; intros lo; simpl countZ; [lia|].
  specialize (IH (lo + 1)). destruct (f lo); lia.
Qed.

Lemma countZ_ext f g lo len :
  (forall i, lo <= i < lo + Z.of_nat len -> f i = g i) ->
  countZ f lo len = countZ g lo len.
Proof.
  revert lo. induction len as [|len IH]; intros lo H; simpl; [done|].
  rewrite (H lo) by lia. rewrite (IH (lo + 1)); [done|].
  intros i Hi. apply H. lia.
Qed.

Lemma countZ_mono f g lo len :
  (forall i, lo <= i < lo + Z.of_nat len -> f i = true -> g i = true) ->
  countZ f lo len <= countZ g lo len.
Proof.
  revert lo. induction len as [|len IH]; intros lo H; simpl; [lia|].
  assert (countZ f (lo + 1) len <= countZ g (lo + 1) len) as Hle.
  { apply IH. intros i Hi. apply H. lia. }
  destruct (f lo) eqn:E.
  - rewrite (H lo); [lia|lia|done].
  - destruct (g lo); lia.
Qed.

Lemma countZ_app f lo k1 k2 :
  countZ f lo (k1 + k2) = countZ f lo k1 + countZ f (lo + Z.of_nat k1) k2.
Proof.
  revert lo. induction k1 as [|k1 IH]; intros lo.
  - cbn [Nat.add countZ]. change (Z.of_nat 0) with 0.
    by rewrite Z.add_0_r.
  - cbn [Nat.add countZ]. rewrite IH.
    replace (lo + 1 + Z.of_nat k1) with (lo + Z.of_nat (Datatypes.S k1)) by lia.
    lia.
Qed.

Lemma countZ_S_r f lo k :
  countZ f lo (Datatypes.S k) =
  countZ f lo k + (if f (lo + Z.of_nat k) then 1 else 0).
Proof.
  replace (Datatypes.S k) with (k + 1)%nat by lia.
  rewrite countZ_app. simpl. lia.
Qed.

Lemma countZ_compl f lo len :
  countZ f lo len + countZ (fun i => negb (f i)) lo len = Z.of_nat len.
Proof.
  revert lo. induction len as [|len IH]; intros lo; simpl countZ; [lia|].
  specialize (IH (lo + 1)). destruct (f lo); simpl; lia.
Qed.

Lemma countZ_or f g lo len :
  countZ (fun i => f i || g i) lo len =
  countZ f lo len + countZ (fun i => g i && negb (f i)) lo len.
Proof.
  revert lo. induction len as [|len IH]; intros lo; simpl countZ; [lia|].
  rewrite IH. destruct (f lo), (g lo); simpl; lia.
Qed.

Lemma countZ_window a b lo len :
  countZ (fun i => (a <=? i) && (i <? b)) lo len <= Z.max 0 (b - Z.max a lo).
Proof.
  revert lo. induction len as [|len IH]; intros lo; simpl countZ; [lia|].
  specialize (IH (lo + 1)).
  destruct (Z.leb_spec a lo), (Z.ltb_spec lo b); simpl; lia.
Qed.

(** A predicate that holds only inside [a, b) holds at most [b - a] times. *)
Lemma countZ_support f a b lo len :
  a <= b ->
  (forall i, lo <= i < lo + Z.of_nat len -> f i = true -> a <= i < b) ->
  countZ f lo len <= b - a.
Proof.
  intros Hab H.
  transitivity (countZ (fun i => (a <=? i) && (i <? b)) lo len).
  - apply countZ_mono. intros i Hi Hf. destruct (H i Hi Hf).
    apply andb_true_iff. split; [apply Z.leb_le|apply Z.ltb_lt]; lia.
  - pose proof (countZ_window a b lo len). lia.
Qed.

(** ** Flags, [strike] and [zeros] *)

Lemma flag_lookup a x c :
  0 <= x -> a !! Z.to_nat x = Some c -> flag a x = negb (c =? 0).
Proof.
  intros Hx H. unfold flag. destruct (Z.ltb_spec x 0); [lia|]. by rewrite H.
Qed.

Lemma flag_outside a x : ~ (0 <= x < Z.of_nat (length a)) -> flag a x = false.
Proof.
  intros H. unfold flag. destruct (Z.ltb_spec x 0); [done|].
  rewrite lookup_ge_None_2; [done|lia].
Qed.

Lemma flag_cons c a x :
  0 < x -> flag (c :: a) x = flag a (x - 1).
Proof.
  intros Hx. unfold flag.
  destruct (Z.ltb_spec x 0), (Z.ltb_spec (x - 1) 0); try lia.
  replace (Z.to_nat x) with (Datatypes.S (Z.to_nat (x - 1))) by lia. done.
Qed.

Lemma length_strike P a : length (strike P a) = length a.
Proof. apply length_imap. Qed.

Lemma strike_lookup P a i :
  strike P a !! i = (fun c => if P (Z.of_nat i) then 0 else c) <$> a !! i.
Proof. apply list_lookup_imap. Qed.

Lemma strike_ext P Q a :
  (forall x, 0 <= x < Z.of_nat (length a) -> P x = Q x) ->
  strike P a = strike Q a.
Proof.
  intros H. apply list_eq. intros i. rewrite !strike_lookup.
  destruct (a !! i) as [c|] eqn:E; [|done]. simpl.
  apply lookup_lt_Some in E. rewrite (H (Z.of_nat i)); [done|lia].
Qed.

Lemma strike_none P a :
  (forall x, 0 <= x < Z.of_nat (length a) -> P x = false) -> strike P a = a.
Proof.
  intros H. apply list_eq. intros i. rewrite strike_lookup.
  destruct (a !! i) as [c|] eqn:E; [|done]. simpl.
  apply lookup_lt_Some in E. rewrite (H (Z.of_nat i)); [done|lia].
Qed.

Lemma strike_strike P Q a :
  strike Q (strike P a) = strike (fun x => P x || Q x) a.
Proof.
  apply list_eq. intros i. rewrite !strike_lookup.
  destruct (a !! i) as [c|]; [|done]. simpl.
  by destruct (P (Z.of_nat i)), (Q (Z.of_nat i)).
Qed.

Lemma strike_insert P a x :
  0 <= x ->
  <[Z.to_nat x := 0]> (strike P a) = strike (fun y => P y || (y =? x)) a.
Proof.
  intros Hx. apply list_eq. intros i. rewrite strike_lookup.
  destruct (decide (i = Z.to_nat x)) as [->|Hne].
  - destruct (a !! Z.to_nat x) as [c|] eqn:E; simpl.
    + rewrite list_lookup_insert_eq.
      * rewrite Z2Nat.id by done. rewrite Z.eqb_refl, orb_true_r. done.
      * rewrite length_strike. by eapply lookup_lt_Some.
    + rewrite list_insert_ge.
      * by rewrite strike_lookup, E.
      * rewrite length_strike. by apply lookup_ge_None.
  - rewrite list_lookup_insert_ne by done. rewrite strike_lookup.
    destruct (Z.eqb_spec (Z.of_nat i) x); [lia|]. by rewrite orb_false_r.
Qed.

Lemma flag_strike P a x : flag (strike P a) x = flag a x && negb (P x).
Proof.
  unfold flag. destruct (Z.ltb_spec x 0); [done|].
  rewrite strike_lookup. destruct (a !! Z.to_nat x) as [c|]; [|done]. simpl.
  rewrite Z2Nat.id by done. destruct (P x); [|by rewrite andb_true_r].
  by rewrite andb_false_r.
Qed.

Lemma zeros_countZ_shift a lo :
  zeros a = countZ (fun i => negb (flag a (i - lo))) lo (length a).
Proof.
  revert lo. induction a as [|c a IH]; intros lo; [done|].
  cbn [zeros length countZ]. rewrite (IH (lo + 1)). f_equal.
  - rewrite Z.sub_diag. unfold flag. simpl. by destruct (c =? 0).
  - apply countZ_ext. intros i Hi. rewrite flag_cons by lia.
    do 2 f_equal. lia.
Qed.

Lemma zeros_countZ a :
  zeros a = countZ (fun i => negb (flag a i)) 0 (length a).
Proof.
  rewrite (zeros_countZ_shift a 0). apply countZ_ext.
  intros i _. by rewrite Z.sub_0_r.
Qed.

Lemma zeros_bounds a : 0 <= zeros a <= Z.of_nat (length a).
Proof. rewrite zeros_countZ. apply countZ_bounds. Qed.

(** Striking cells raises the number of zeros by the number of cells that
    were true and are struck. *)
Lemma zeros_strike P a :
  zeros (strike P a) =
  zeros a + countZ (fun i => flag a i && P i) 0 (length a).
Proof.
  rewrite !zeros_countZ, length_strike.
  rewrite (countZ_ext _ (fun i => negb (flag a i) || P i)).
  - rewrite countZ_or. f_equal. apply countZ_ext. intros i _.
    rewrite negb_involutive. apply andb_comm.
  - intros i _. rewrite flag_strike. by destruct (flag a i), (P i).
Qed.

Lemma newly_marked_strike P a :
  newly_marked a (strike P a) = zeros (strike P a) - zeros a.
Proof.
  rewrite zeros_strike. unfold newly_marked.
  rewrite (countZ_ext _ (fun i => flag a i && P i)); [lia|].
  intros i _. rewrite flag_strike. by destruct (flag a i), (P i).
Qed.

Lemma zeros_insert a x c :
  0 <= x -> a !! Z.to_nat x = Some c -> c <> 0 ->
  zeros (<[Z.to_nat x := 0]> a) = zeros a + 1.
Proof.
  intros Hx. generalize (Z.to_nat x) as i. clear x Hx.
  induction a as [|c' a IH]; intros i H Hc; [done|].
  destruct i as [|i]; simpl in *.
  - injection H as ->. destruct (Z.eqb_spec c 0); [done|]. lia.
  - rewrite (IH i) by done. lia.
Qed.

(** ** Arithmetic of multiples and blocks *)

Ltac bool_prop :=
  repeat match goal with
  | H : _ && _ = true |- _ => apply andb_true_iff in H; destruct H
  | H : _ || _ = true |- _ => apply orb_true_iff in H
  | H : (_ <=? _) = true |- _ => apply Z.leb_le in H
  | H : (_ <? _) = true |- _ => apply Z.ltb_lt in H
  | H : (_ =? _) = true |- _ => apply Z.eqb_eq in H
  | H : (_ <=? _) = false |- _ => apply Z.leb_gt in H
  | H : (_ <? _) = false |- _ => apply Z.ltb_ge in H
  | H : (_ =? _) = false |- _ => apply Z.eqb_neq in H
  end.

Ltac bool_goal :=
  repeat match goal with
  | |- _ && _ = true => apply andb_true_iff; split
  | |- (_ <=? _) = true => apply Z.leb_le
  | |- (_ <? _) = true => apply Z.ltb_lt
  | |- (_ =? _) = true => apply Z.eqb_eq
  end.

Lemma multiple_window p x y :
  0 < p -> x mod p = 0 -> y mod p = 0 -> x <= y < x + p -> y = x.
Proof.
  intros Hp Hx Hy Hw.
  apply Z.mod_divide in Hx; [|lia]. apply Z.mod_divide in Hy; [|lia].
  destruct Hx as [a ->], Hy as [b ->].
  assert (b = a) by nia. by subst.
Qed.

Lemma mod_sub_multiple p x y :
  0 < p -> x mod p = 0 -> ((y - x) mod p = 0 <-> y mod p = 0).
Proof.
  intros Hp Hx. apply Z.mod_divide in Hx; [|lia].
  rewrite !Z.mod_divide by lia. split; intros H.
  - replace y with ((y - x) + x) by lia. by apply Z.divide_add_r.
  - by apply Z.divide_sub_r.
Qed.

Lemma sub_bound_first W from to : sub_bound W from to 0 = from.
Proof. unfold sub_bound. rewrite Z.mul_0_r, Zdiv_0_l. lia. Qed.

Lemma sub_bound_last W from to : 0 < W -> sub_bound W from to W = to.
Proof. intros HW. unfold sub_bound. rewrite Z.div_mul by lia. lia. Qed.

Lemma sub_bound_mono W from to j k :
  0 < W -> from <= to -> j <= k ->
  sub_bound W from to j <= sub_bound W from to k.
Proof.
  intros HW Hft Hjk. unfold sub_bound.
  apply Z.add_le_mono_l, Z.div_le_mono; [lia|nia].
Qed.

Lemma sub_bound_range W from to k :
  0 < W -> from <= to -> 0 <= k <= W ->
  from <= sub_bound W from to k <= to.
Proof.
  intros HW Hft Hk.
  rewrite <- (sub_bound_first W from to) at 1.
  rewrite <- (sub_bound_last W from to HW) at 4.
  split; apply sub_bound_mono; lia.
Qed.

(** Every point of [from, to) lies in the block of some thread. *)
Lemma sub_bound_cover W from to x :
  0 < W -> from <= x < to ->
  exists id, 0 <= id < W /\ in_block W from to id x = true.
Proof.
  intros HW Hx.
  assert (forall j : nat, x < sub_bound W from to (Z.of_nat j) ->
            exists id, 0 <= id < Z.of_nat j /\ in_block W from to id x = true)
    as Hwalk.
  { induction j as [|j IH]; intros Hj.
    - change (Z.of_nat 0) with 0 in Hj. rewrite sub_bound_first in Hj. lia.
    - destruct (Z.lt_ge_cases x (sub_bound W from to (Z.of_nat j))) as [Hlt|Hge].
      + destruct (IH Hlt) as (id & Hid & Hin). exists id. split; [lia|done].
      + exists (Z.of_nat j). split; [lia|]. unfold in_block.
        replace (Z.of_nat j + 1) with (Z.of_nat (Datatypes.S j)) by lia.
        bool_goal; lia. }
  destruct (Hwalk (Z.to_nat W)) as (id & Hid & Hin).
  - rewrite Z2Nat.id by lia. rewrite sub_bound_last by done. lia.
  - exists id. split; [lia|done].
Qed.

(** Two blocks that share a point are the same block. *)
Lemma in_block_unique W from to id id' x :
  0 < W -> from <= to ->
  in_block W from to id x = true -> in_block W from to id' x = true ->
  id = id'.
Proof.
  intros HW Hft H H'. unfold in_block in *. bool_prop.
  destruct (Z.lt_total id id') as [Hlt|[->|Hlt]]; [|done|].
  - pose proof (sub_bound_mono W from to (id + 1) id' HW Hft). lia.
  - pose proof (sub_bound_mono W from to (id' + 1) id HW Hft). lia.
Qed.

Section BlockArithmetic.
Variables W from to : Z.
Hypothesis W_range : 1 <= W <= Int.MAX.
Hypothesis from_to : Long.MIN <= from <= to.
Hypothesis to_range : to <= Long.MAX.
Hypothesis product_fits : (to - from) * W <= Long.MAX.

Lemma block_from_exact id :
  0 <= id < W -> block_from W from to id = Done (sub_bound W from to id).
Proof using All.
  intros Hid. unfold block_from, sub_bound, Long.MIN, Long.MAX, Int.MAX in *.
  rewrite long_sub_exact by (unfold Long.MIN, Long.MAX; nia).
  rewrite long_mul_exact by (unfold Long.MIN, Long.MAX; nia).
  rewrite long_div_exact by (unfold Long.MIN, Long.MAX; nia). simpl.
  assert (0 <= (to - from) * id / W) by (apply Z.div_pos; nia).
  assert ((to - from) * id / W <= to - from)
    by (apply Z.div_le_upper_bound; nia).
  rewrite long_add_exact by (unfold Long.MIN, Long.MAX; lia). done.
Qed.

Lemma block_to_exact id :
  0 <= id < W -> block_to W from to id = Done (sub_bound W from to (id + 1)).
Proof using All.
  intros Hid. unfold block_to, sub_bound, Long.MIN, Long.MAX, Int.MAX in *.
  rewrite long_sub_exact by (unfold Long.MIN, Long.MAX; nia).
  unfold Int.add. rewrite int_wrap_id by (unfold Int.MAX; lia).
  rewrite long_mul_exact by (unfold Long.MIN, Long.MAX; nia).
  rewrite long_div_exact by (unfold Long.MIN, Long.MAX; nia). simpl.
  assert (0 <= (to - from) * (id + 1) / W) by (apply Z.div_pos; nia).
  assert ((to - from) * (id + 1) / W <= to - from)
    by (apply Z.div_le_upper_bound; nia).
  rewrite long_add_exact by (unfold Long.MIN, Long.MAX; lia). done.
Qed.
End BlockArithmetic.

(** [align_up] returns the least multiple of [p] that is at least
    [my_from]. *)
Lemma aligned_spec my_from p :
  1 <= p ->
  my_from <= aligned p my_from < my_from + p /\ aligned p my_from mod p = 0.
Proof.
  intros Hp. unfold aligned.
  pose proof (Z.div_mod (my_from + p - 1) p ltac:(lia)) as Hdm.
  pose proof (Z.mod_pos_bound (my_from + p - 1) p ltac:(lia)) as Hmod.
  split; [nia|]. apply Z_mod_mult.
Qed.

Lemma align_up_exact my_from p :
  0 <= my_from -> 1 <= p -> my_from + p <= Long.MAX ->
  align_up my_from p = Done (aligned p my_from).
Proof.
  intros Hf Hp Hfit. unfold align_up, aligned, Long.MAX in *.
  rewrite long_add_exact by (unfold Long.MIN, Long.MAX; lia).
  rewrite long_sub_exact by (unfold Long.MIN, Long.MAX; lia).
  rewrite long_div_exact by (unfold Long.MIN, Long.MAX; lia). simpl.
  set (q := (my_from + p - 1) / p).
  pose proof (Z.div_mod (my_from + p - 1) p ltac:(lia)) as Hdm.
  pose proof (Z.mod_pos_bound (my_from + p - 1) p ltac:(lia)) as Hmod.
  fold q in Hdm.
  assert (0 <= q) by (apply Z.div_pos; lia).
  rewrite long_mul_exact by (unfold Long.MIN, Long.MAX; nia). done.
Qed.

(** ** Lists of threads *)

Lemma existsb_middle {A} (f : A -> bool) l i t :
  l !! i = Some t ->
  existsb f l = f t || (existsb f (take i l) || existsb f (drop (Datatypes.S i) l)).
Proof.
  intros H. rewrite <- (take_drop_middle l i t H) at 1.
  rewrite existsb_app. simpl.
  destruct (existsb f (take i l)), (f t), (existsb f (drop (Datatypes.S i) l));
    done.
Qed.

Lemma existsb_insert_middle {A} (f : A -> bool) l i t :
  (i < length l)%nat ->
  existsb f (<[i := t]> l) =
  f t || (existsb f (take i l) || existsb f (drop (Datatypes.S i) l)).
Proof.
  intros H. rewrite insert_take_drop by done.
  rewrite existsb_app. simpl.
  destruct (existsb f (take i l)), (f t), (existsb f (drop (Datatypes.S i) l));
    done.
Qed.

Lemma existsb_others_false {A} (f : A -> bool) l i :
  (forall j t, l !! j = Some t -> j <> i -> f t = false) ->
  existsb f (take i l) || existsb f (drop (Datatypes.S i) l) = false.
Proof.
  intros H. apply orb_false_iff. split; apply not_true_is_false;
    intros E; apply existsb_exists in E as (t & Hin & Ht);
    apply list_elem_of_In, list_elem_of_lookup in Hin as (j & Hj).
  - apply lookup_take_Some in Hj as [Hj Hlt].
    rewrite (H j t Hj) in Ht by lia. done.
  - rewrite lookup_drop in Hj.
    rewrite (H _ t Hj) in Ht by lia. done.
Qed.

Lemma existsb_lookup {A} (f : A -> bool) l :
  existsb f l = true <-> exists j t, l !! j = Some t /\ f t = true.
Proof.
  rewrite existsb_exists. split.
  - intros (t & Hin & Ht).
    apply list_elem_of_In, list_elem_of_lookup in Hin as (j & Hj). eauto.
  - intros (j & t & Hj & Ht). exists t. split; [|done].
    apply list_elem_of_In, list_elem_of_lookup. eauto.
Qed.

Lemma collect_map {A B : Type} (f : A -> outcome B) (g : A -> B) l :
  (forall x, x ∈ l -> f x = Done (g x)) ->
  collect f l = Done (map g l).
Proof.
  induction l as [|x l IH]; intros H; [done|].
  cbn [collect map]. rewrite (H x) by apply list_elem_of_here.
  rewrite bind_done, IH, bind_done; [done|].
  intros y Hy. apply H. by apply list_elem_of_further.
Qed.

(** ** A team in the region *)

Lemma visited_step p x0 my_to x y :
  1 <= p -> x0 <= x -> x < my_to -> (x - x0) mod p = 0 ->
  visited p x0 my_to (x + p) y = visited p x0 my_to x y || (y =? x).
Proof.
  intros Hp Hx0 Hx Hmod. unfold visited. apply eq_true_iff_eq. split; intros H.
  - bool_prop. apply orb_true_iff.
    destruct (Z.lt_ge_cases y x) as [Hlt|Hge].
    + left. bool_goal; lia.
    + right. apply Z.eqb_eq.
      assert (y - x0 = x - x0); [|lia].
      apply (multiple_window p); lia.
  - bool_prop. destruct H as [H|H]; bool_prop; bool_goal; try lia.
    by subst.
Qed.

Lemma visited_end p x0 my_to x y :
  my_to <= x -> visited p x0 my_to x y = visited p x0 my_to my_to y.
Proof.
  intros Hx. unfold visited.
  destruct (Z.ltb_spec y my_to), (Z.ltb_spec y x); try lia;
    by rewrite ?andb_true_r, ?andb_false_r.
Qed.

Lemma visited_here p x0 my_to x : visited p x0 my_to x x = false.
Proof.
  unfold visited. rewrite Z.ltb_irrefl. by rewrite andb_false_r.
Qed.

Section Marking.
Variables (a0 : list Z) (from to p W : Z).
Hypothesis from_nonneg : 0 <= from.
Hypothesis from_to : from <= to.
Hypothesis to_inside : to <= Z.of_nat (length a0).
Hypothesis p_pos : 1 <= p.
Hypothesis stride_fits : to + p <= Long.MAX.
Hypothesis W_range : 1 <= W <= Int.MAX.
Hypothesis product_fits : (to - from) * W <= Long.MAX.

Lemma marked_bounds P :
  inside from to P -> 0 <= zeros (strike P a0) - zeros a0 <= to - from.
Proof using All.
  intros HP. rewrite zeros_strike.
  pose proof (countZ_bounds (fun i => flag a0 i && P i) 0 (length a0)).
  assert (countZ (fun i => flag a0 i && P i) 0 (length a0) <= to - from).
  { apply countZ_support; [lia|]. intros i _ Hi. bool_prop. by apply HP. }
  lia.
Qed.

Lemma block_bounds id :
  0 <= id < W ->
  from <= sub_bound W from to id /\
  sub_bound W from to id <= sub_bound W from to (id + 1) /\
  sub_bound W from to (id + 1) <= to.
Proof using All.
  intros Hid.
  pose proof (sub_bound_range W from to id ltac:(lia) from_to ltac:(lia)).
  pose proof (sub_bound_range W from to (id + 1) ltac:(lia) from_to ltac:(lia)).
  pose proof (sub_bound_mono W from to id (id + 1) ltac:(lia) from_to ltac:(lia)).
  lia.
Qed.

Lemma thread_start_spec id :
  0 <= id < W ->
  thread_start W from to p id = Done (started W from to p id).
Proof using All.
  intros Hid. unfold thread_start.
  assert (Long.MIN <= from <= to) as Hft by (unfold Long.MIN; lia).
  assert (to <= Long.MAX) as Hto by lia.
  rewrite (block_from_exact W from to W_range Hft Hto product_fits) by done.
  rewrite (block_to_exact W from to W_range Hft Hto product_fits) by done.
  rewrite !bind_done. destruct (block_bounds id Hid) as (H1 & H2 & H3).
  rewrite align_up_exact by lia. done.
Qed.

Lemma started_wf id :
  0 <= id < W -> wf_thread W from to p a0 id (started W from to p id).
Proof using All.
  intros Hid. unfold wf_thread, started. simpl.
  destruct (aligned_spec (sub_bound W from to id) p p_pos) as [Hr Hm].
  repeat split; try (done || lia). by rewrite Z.sub_diag.
Qed.

(** Where a thread reads and writes: inside its block. *)
Lemma touched_in_block id t y :
  0 <= id < W -> wf_thread W from to p a0 id t ->
  done_of p t y || written_of t y = true ->
  in_block W from to id y = true.
Proof using All.
  intros Hid (Hfrom & Hmod & Hto & Hpc) H.
  destruct (block_bounds id Hid) as (H1 & H2 & H3).
  unfold in_block. apply orb_true_iff in H as [H|H].
  - unfold done_of, visited in H. bool_prop. bool_goal; lia.
  - unfold written_of in H. destruct (th_pc t); try done.
    bool_prop. subst. bool_goal; lia.
Qed.

(** A cell of the block of thread [i] is touched by no other thread. *)
Lemma others_miss threads (i : nat) x :
  length threads = Z.to_nat W ->
  (forall (id : nat) t, threads !! id = Some t ->
     wf_thread W from to p a0 (Z.of_nat id) t) ->
  in_block W from to (Z.of_nat i) x = true ->
  (existsb (fun t => done_of p t x) (take i threads) ||
   existsb (fun t => done_of p t x) (drop (Datatypes.S i) threads) = false) /\
  (existsb (fun t => written_of t x) (take i threads) ||
   existsb (fun t => written_of t x) (drop (Datatypes.S i) threads) = false).
Proof using All.
  intros Hlen Hwf Hx.
  assert (forall j t, threads !! j = Some t -> j <> i ->
            done_of p t x || written_of t x = false) as Hmiss.
  { intros j t Hj Hne. apply not_true_is_false. intros Ht.
    apply lookup_lt_Some in Hj as Hlt.
    apply (touched_in_block (Z.of_nat j)) in Ht; [|lia|by apply Hwf].
    assert (Z.of_nat j = Z.of_nat i); [|lia].
    by apply (in_block_unique W from to _ _ x); [lia|done|done|done]. }
  split; apply existsb_others_false; intros j t Hj Hne;
    specialize (Hmiss j t Hj Hne); apply orb_false_iff in Hmiss; tauto.
Qed.

(** The invariant, with the part of thread [i] set apart. *)
Lemma team_inv_split tm (i : nat) t :
  team_inv W from to p a0 tm -> tm_threads tm !! i = Some t ->
  tm_isprime tm =
    strike (fun y =>
      (done_of p t y ||
       (existsb (fun t => done_of p t y) (take i (tm_threads tm)) ||
        existsb (fun t => done_of p t y) (drop (Datatypes.S i) (tm_threads tm)))) ||
      (written_of t y ||
       (existsb (fun t => written_of t y) (take i (tm_threads tm)) ||
        existsb (fun t => written_of t y) (drop (Datatypes.S i) (tm_threads tm)))))
      a0 /\
  tm_nmarked tm =
    zeros (strike (fun y =>
      done_of p t y ||
      (existsb (fun t => done_of p t y) (take i (tm_threads tm)) ||
       existsb (fun t => done_of p t y) (drop (Datatypes.S i) (tm_threads tm))))
      a0) - zeros a0.
Proof using All.
  intros (Hlen & Hwf & Ha & Hnm) Ht. split.
  - rewrite Ha. apply strike_ext. intros y _. unfold done_cells, written_cells.
    by rewrite !(existsb_middle _ _ i t Ht).
  - rewrite Hnm. do 2 f_equal. apply strike_ext. intros y _.
    unfold done_cells. by rewrite (existsb_middle _ _ i t Ht).
Qed.

Lemma team_inv_update tm (i : nat) t t' a' nm' :
  team_inv W from to p a0 tm -> tm_threads tm !! i = Some t ->
  wf_thread W from to p a0 (Z.of_nat i) t' ->
  a' =
    strike (fun y =>
      (done_of p t' y ||
       (existsb (fun t => done_of p t y) (take i (tm_threads tm)) ||
        existsb (fun t => done_of p t y) (drop (Datatypes.S i) (tm_threads tm)))) ||
      (written_of t' y ||
       (existsb (fun t => written_of t y) (take i (tm_threads tm)) ||
        existsb (fun t => written_of t y) (drop (Datatypes.S i) (tm_threads tm)))))
      a0 ->
  nm' =
    zeros (strike (fun y =>
      done_of p t' y ||
      (existsb (fun t => done_of p t y) (take i (tm_threads tm)) ||
       existsb (fun t => done_of p t y) (drop (Datatypes.S i) (tm_threads tm))))
      a0) - zeros a0 ->
  team_inv W from to p a0 (Team (<[i := t']> (tm_threads tm)) a' nm').
Proof using All.
  intros (Hlen & Hwf & Ha & Hnm) Ht Hwf' -> ->.
  apply lookup_lt_Some in Ht as Hlt.
  split; [|split; [|split]]; cbn [tm_threads tm_isprime tm_nmarked].
  - by rewrite length_insert.
  - intros j tj Hj. destruct (decide (j = i)) as [->|Hne].
    + rewrite list_lookup_insert_eq in Hj by done. by injection Hj as <-.
    + rewrite list_lookup_insert_ne in Hj by done. by apply Hwf.
  - apply strike_ext. intros y _. unfold done_cells, written_cells.
    by rewrite !existsb_insert_middle.
  - do 2 f_equal. apply strike_ext. intros y _. unfold done_cells.
    by rewrite existsb_insert_middle.
Qed.
Lemma done_of_inside id t :
  0 <= id < W -> wf_thread W from to p a0 id t -> inside from to (done_of p t).
Proof using All.
  intros Hid Hwf y Hy.
  assert (in_block W from to id y = true) as Hin.
  { apply (touched_in_block id t); [done..|]. by rewrite Hy. }
  destruct (block_bounds id Hid) as (H1 & H2 & H3).
  unfold in_block in Hin. bool_prop. lia.
Qed.

(** One step of thread [id], the other threads having dealt with the
    cells [od] and written the cells [ow]. *)
Lemma thread_step_spec id t (od ow : Z -> bool) :
  0 <= id < W -> wf_thread W from to p a0 id t ->
  inside from to od ->
  (forall y, in_block W from to id y = true -> od y = false /\ ow y = false) ->
  exists t',
    thread_step p t
      (strike (fun y => (done_of p t y || od y) || (written_of t y || ow y)) a0,
       zeros (strike (fun y => done_of p t y || od y) a0) - zeros a0) =
    Done (t',
      (strike (fun y => (done_of p t' y || od y) || (written_of t' y || ow y)) a0,
       zeros (strike (fun y => done_of p t' y || od y) a0) - zeros a0)) /\
    wf_thread W from to p a0 id t' /\
    (th_pc t = Finished /\ t' = t \/
     (thread_measure t' < thread_measure t)%nat).
Proof using All.
  intros Hid Hwf Hod Hmiss.
  destruct (block_bounds id Hid) as (Hb1 & Hb2 & Hb3).
  destruct t as [x0 my_to pc0]. destruct Hwf as (Hfrom & Hmod0 & Hto & Hpc).
  cbn [th_from th_to th_pc] in *.
  assert (forall x, x0 <= x < my_to -> in_block W from to id x = true) as Hmine.
  { intros x Hx. unfold in_block. bool_goal; lia. }
  unfold thread_step. cbn [th_from th_to th_pc fst snd].
  destruct pc0 as [x|x|x|].
  - (* at the test *)
    destruct Hpc as [Hx Hmod].
    destruct (Z.ltb_spec x my_to) as [Hlt|Hge].
    + destruct (Hmiss x (Hmine x ltac:(lia))) as [Hodx Howx].
      assert (Long.add x p = x + p) as ->
        by (apply long_add_exact; unfold Long.MIN, Long.MAX in *; lia).
      set (P := fun y => (done_of p (Thread x0 my_to (AtTest x)) y || od y)
                         || (written_of (Thread x0 my_to (AtTest x)) y || ow y)).
      assert (exists c, strike P a0 !! Z.to_nat x = Some c) as [c Hc].
      { apply lookup_lt_is_Some_2. rewrite length_strike. lia. }
      unfold load. destruct (Z.ltb_spec x 0); [lia|]. rewrite Hc, bind_done.
      assert (forall y,
                done_of p (Thread x0 my_to (AtTest (x + p))) y =
                done_of p (Thread x0 my_to (AtTest x)) y || (y =? x)) as Hdone.
      { intros y. unfold done_of. cbn [th_from th_to pos_of th_pc].
        by apply visited_step. }
      assert (P x = false) as HPx.
      { unfold P, done_of, written_of. cbn [th_from th_to pos_of th_pc].
        by rewrite visited_here, Hodx, Howx. }
      destruct (Z.eqb_spec c 0) as [->|Hc0].
      * (* the cell is 0 already: on to the next one *)
        exists (Thread x0 my_to (AtTest (x + p))). split; [|split].
        -- f_equal. f_equal. f_equal.
           ++ rewrite <- (list_insert_id _ _ _ Hc) at 1.
              rewrite strike_insert by lia. apply strike_ext. intros y _.
              unfold P. rewrite Hdone. unfold written_of. simpl.
              destruct (done_of p (Thread x0 my_to (AtTest x)) y), (od y),
                (ow y), (y =? x); done.
           ++ f_equal. f_equal.
              assert (strike (fun y => done_of p (Thread x0 my_to (AtTest x)) y
                                       || od y) a0 !! Z.to_nat x = Some 0)
                as Hc'.
              { rewrite strike_lookup in Hc |- *. rewrite Z2Nat.id in * by lia.
                rewrite HPx in Hc. unfold done_of at 1.
                cbn [th_from th_to pos_of th_pc].
                by rewrite visited_here, Hodx. }
              rewrite <- (list_insert_id _ _ _ Hc') at 1.
              rewrite strike_insert by lia. apply strike_ext. intros y _.
              rewrite Hdone.
              destruct (done_of p (Thread x0 my_to (AtTest x)) y), (od y),
                (y =? x); done.
        -- unfold wf_thread. cbn [th_from th_to th_pc].
           repeat split; try (done || lia).
           replace (x + p - x0) with (x - x0 + 1 * p) by lia.
           by rewrite Z_mod_plus_full.
        -- right. unfold thread_measure. cbn [th_to th_pc]. lia.
      * (* the cell is true: on to the write *)
        exists (Thread x0 my_to (AtWrite x)). split; [|split].
        -- reflexivity.
        -- unfold wf_thread. cbn [th_from th_to th_pc].
           repeat split; try (done || lia).
           rewrite strike_lookup in Hc. rewrite Z2Nat.id, HPx in Hc by lia.
           destruct (a0 !! Z.to_nat x) as [c0|] eqn:E0; [|done].
           injection Hc as ->. rewrite (flag_lookup a0 x c) by (done || lia).
           by destruct (Z.eqb_spec c 0).
        -- right. unfold thread_measure. cbn [th_to th_pc]. lia.
    + (* past the end of the block *)
      exists (Thread x0 my_to Finished). split; [|split].
      * f_equal. f_equal. f_equal.
        -- apply strike_ext. intros y _. unfold done_of, written_of.
           cbn [th_from th_to pos_of th_pc]. by rewrite (visited_end p x0 my_to x).
        -- f_equal. f_equal. apply strike_ext. intros y _. unfold done_of.
           cbn [th_from th_to pos_of th_pc]. by rewrite (visited_end p x0 my_to x).
      * unfold wf_thread. cbn [th_from th_to th_pc]. done.
      * right. unfold thread_measure. cbn [th_to th_pc]. lia.
  - (* at the write *)
    destruct Hpc as (Hx & Hmod & Hflag).
    destruct (Hmiss x (Hmine x ltac:(lia))) as [Hodx Howx].
    unfold store. destruct (Z.ltb_spec x 0); [lia|].
    rewrite length_strike.
    destruct (Nat.ltb_spec (Z.to_nat x) (length a0)); [|lia].
    rewrite bind_done. exists (Thread x0 my_to (AtCount x)). split; [|split].
    + f_equal. f_equal. f_equal.
      rewrite strike_insert by lia. apply strike_ext. intros y _.
      unfold done_of, written_of. cbn [th_from th_to pos_of th_pc].
      destruct (visited p x0 my_to x y), (od y), (ow y), (y =? x); done.
    + unfold wf_thread. cbn [th_from th_to th_pc]. done.
    + right. unfold thread_measure. cbn [th_to th_pc]. lia.
  - (* at the count *)
    destruct Hpc as (Hx & Hmod & Hflag).
    destruct (Hmiss x (Hmine x ltac:(lia))) as [Hodx Howx].
    assert (Long.add x p = x + p) as ->
      by (apply long_add_exact; unfold Long.MIN, Long.MAX in *; lia).
    assert (forall y,
              done_of p (Thread x0 my_to (AtTest (x + p))) y =
              done_of p (Thread x0 my_to (AtCount x)) y || (y =? x)) as Hdone.
    { intros y. unfold done_of. cbn [th_from th_to pos_of th_pc].
      apply visited_step; lia. }
    set (D := fun y => done_of p (Thread x0 my_to (AtCount x)) y || od y).
    assert (strike (fun y => done_of p (Thread x0 my_to (AtTest (x + p))) y
                             || od y) a0
            = <[Z.to_nat x := 0]> (strike D a0)) as Hnext.
    { rewrite strike_insert by lia. apply strike_ext. intros y _.
      unfold D. rewrite Hdone.
      destruct (done_of p (Thread x0 my_to (AtCount x)) y), (od y), (y =? x);
        done. }
    assert (exists c, strike D a0 !! Z.to_nat x = Some c /\ c <> 0)
      as (c & Hc & Hc0).
    { unfold flag in Hflag. destruct (Z.ltb_spec x 0); [lia|].
      destruct (a0 !! Z.to_nat x) as [c|] eqn:E0; [|done].
      exists c. split.
      - rewrite strike_lookup, E0. simpl. rewrite Z2Nat.id by lia.
        unfold D, done_of. cbn [th_from th_to pos_of th_pc].
        by rewrite visited_here, Hodx.
      - by destruct (Z.eqb_spec c 0). }
    assert (inside from to
              (fun y => done_of p (Thread x0 my_to (AtTest (x + p))) y || od y))
      as Hinside.
    { intros y Hy. apply orb_true_iff in Hy as [Hy|Hy]; [|by apply Hod].
      unfold done_of, visited in Hy. cbn [th_from th_to pos_of th_pc] in Hy.
      bool_prop. lia. }
    pose proof (marked_bounds _ Hinside) as Hb.
    rewrite Hnext, (zeros_insert _ x c) in Hb by (done || lia).
    exists (Thread x0 my_to (AtTest (x + p))). split; [|split].
    + f_equal. f_equal. f_equal.
      * apply strike_ext. intros y _. rewrite Hdone.
        unfold written_of. cbn [th_pc].
        destruct (done_of p (Thread x0 my_to (AtCount x)) y), (od y), (ow y),
          (y =? x); done.
      * rewrite Hnext, (zeros_insert _ x c) by (done || lia).
        fold D. rewrite long_add_exact by (unfold Long.MIN, Long.MAX in *; lia).
        lia.
    + unfold wf_thread. cbn [th_from th_to th_pc].
      repeat split; try (done || lia).
      replace (x + p - x0) with (x - x0 + 1 * p) by lia.
      by rewrite Z_mod_plus_full.
    + right. unfold thread_measure. cbn [th_to th_pc]. lia.
  - (* past the loop *)
    exists (Thread x0 my_to Finished). split; [reflexivity|].
    split; [done|]. by left.
Qed.
Lemma others_inside threads (i : nat) :
  length threads = Z.to_nat W ->
  (forall (id : nat) t, threads !! id = Some t ->
     wf_thread W from to p a0 (Z.of_nat id) t) ->
  inside from to
    (fun y => existsb (fun t => done_of p t y) (take i threads) ||
              existsb (fun t => done_of p t y) (drop (Datatypes.S i) threads)).
Proof using All.
  intros Hlen Hwf y Hy.
  assert (exists j t, threads !! j = Some t /\ done_of p t y = true)
    as (j & t & Hj & Ht).
  { apply orb_true_iff in Hy as [Hy|Hy];
      apply existsb_lookup in Hy as (j & t & Hj & Ht).
    - apply lookup_take_Some in Hj as [Hj _]. eauto.
    - rewrite lookup_drop in Hj. eauto. }
  apply lookup_lt_Some in Hj as Hlt.
  apply (done_of_inside (Z.of_nat j) t); [lia|by apply Hwf|done].
Qed.

(** A step of the team keeps the invariant, leaves the other threads as
    they were, and brings the thread that took it nearer to its end. *)
Lemma team_step_spec tm id :
  team_inv W from to p a0 tm ->
  exists tm',
    team_step p id tm = Done tm' /\
    team_inv W from to p a0 tm' /\
    (forall j : nat, Z.of_nat j <> id ->
       tm_threads tm' !! j = tm_threads tm !! j) /\
    (forall (i : nat) t, Z.of_nat i = id -> tm_threads tm !! i = Some t ->
       exists t', tm_threads tm' !! i = Some t' /\
         (th_pc t = Finished /\ t' = t \/
          (thread_measure t' < thread_measure t)%nat)).
Proof using All.
  intros Hinv. unfold team_step.
  destruct (Z.ltb_spec id 0) as [Hneg|Hpos].
  { exists tm. split; [done|]. split; [done|]. split; [done|].
    intros i t Hi. lia. }
  destruct (tm_threads tm !! Z.to_nat id) as [t|] eqn:Ht.
  2:{ exists tm. split; [done|]. split; [done|]. split; [done|].
      intros i t <- Hi. rewrite Nat2Z.id in Ht. congruence. }
  pose proof Hinv as (Hlen & Hwf & _ & _).
  apply lookup_lt_Some in Ht as Hlt.
  assert (0 <= id < W) as Hid by lia.
  destruct (team_inv_split tm (Z.to_nat id) t Hinv Ht) as [Ha Hnm].
  set (od := fun y =>
         existsb (fun t => done_of p t y) (take (Z.to_nat id) (tm_threads tm)) ||
         existsb (fun t => done_of p t y)
                 (drop (Datatypes.S (Z.to_nat id)) (tm_threads tm))) in *.
  set (ow := fun y =>
         existsb (fun t => written_of t y) (take (Z.to_nat id) (tm_threads tm)) ||
         existsb (fun t => written_of t y)
                 (drop (Datatypes.S (Z.to_nat id)) (tm_threads tm))) in *.
  assert (tm_isprime tm =
          strike (fun y => (done_of p t y || od y) || (written_of t y || ow y))
                 a0) as Ha' by exact Ha.
  assert (tm_nmarked tm =
          zeros (strike (fun y => done_of p t y || od y) a0) - zeros a0)
    as Hnm' by exact Hnm.
  assert (wf_thread W from to p a0 id t) as Hwft.
  { specialize (Hwf _ _ Ht). by rewrite Z2Nat.id in Hwf by lia. }
  destruct (thread_step_spec id t od ow Hid Hwft) as (t' & Hstep & Hwf' & Hm).
  { by apply others_inside. }
  { intros y Hy. apply (others_miss (tm_threads tm) (Z.to_nat id) y);
      [done|done|]. by rewrite Z2Nat.id by lia. }
  rewrite Ha', Hnm', Hstep, bind_done. cbn [fst snd].
  eexists. split; [reflexivity|]. split; [|split].
  - apply (team_inv_update tm (Z.to_nat id) t t'); [done|done| |done|done].
    by rewrite Z2Nat.id by lia.
  - intros j Hj. cbn [tm_threads]. apply list_lookup_insert_ne. lia.
  - intros i t1 <- Hi. rewrite Nat2Z.id in *. cbn [tm_threads].
    rewrite Ht in Hi. injection Hi as <-.
    exists t'. split; [|done]. by apply list_lookup_insert_eq.
Qed.

(** So does every interleaving of steps. *)
Lemma interleaving_spec steps tm :
  team_inv W from to p a0 tm ->
  exists tm',
    for_each (team_step p) steps tm = Done tm' /\
    team_inv W from to p a0 tm'.
Proof using All.
  revert tm. induction steps as [|id steps IH]; intros tm Hinv.
  - by exists tm.
  - cbn [for_each].
    destruct (team_step_spec tm id Hinv) as (tm1 & -> & Hinv1 & _).
    rewrite bind_done. by apply IH.
Qed.
(** A thread left to run on its own reaches the end of its loop. *)
Lemma finish_spec tm id :
  team_inv W from to p a0 tm -> 0 <= id < W ->
  exists tm',
    finish p id tm = Done tm' /\
    team_inv W from to p a0 tm' /\
    finished_in tm' (Z.to_nat id) /\
    (forall j : nat, Z.of_nat j <> id ->
       tm_threads tm' !! j = tm_threads tm !! j).
Proof using All.
  intros Hinv Hid. unfold finish.
  destruct (Z.ltb_spec id 0); [lia|].
  pose proof Hinv as (Hlen & _).
  destruct (lookup_lt_is_Some_2 (tm_threads tm) (Z.to_nat id)) as [t Ht]; [lia|].
  rewrite Ht.
  set (Inv s := team_inv W from to p a0 s /\
                forall j : nat, Z.of_nat j <> id ->
                  tm_threads s !! j = tm_threads tm !! j).
  destruct (while_total (finish_turn p id) Inv
              (fun s => Inv s /\ finished_in s (Z.to_nat id))
              (fun s => match tm_threads s !! Z.to_nat id with
                        | Some t => thread_measure t
                        | None => O
                        end))
    with (fuel := Datatypes.S (Datatypes.S (3 * Z.to_nat (th_to t - pos_of t))))
         (s := tm)
    as (tm' & Hrun & (Hinv' & Hsame) & Hfin).
  - intros s [Hs Hsame]. unfold finish_turn.
    pose proof Hs as (Hslen & _).
    destruct (lookup_lt_is_Some_2 (tm_threads s) (Z.to_nat id)) as [ts Hts];
      [lia|].
    rewrite Hts.
    destruct (team_step_spec s id Hs) as (s1 & Hstep & Hs1 & Hothers & Hown).
    destruct (Hown (Z.to_nat id) ts ltac:(lia) Hts) as (t1 & Ht1 & Hprog).
    destruct (th_pc ts) eqn:Hpc.
    4:{ right. exists s. split; [done|]. split; [done|]. by exists ts. }
    all: left; rewrite Hstep, bind_done; exists s1; split; [done|];
      split; [split; [done|intros j Hj; rewrite Hothers by done; by apply Hsame]|];
      rewrite Ht1; destruct Hprog as [[Hf _]|Hlt]; [congruence|done].
  - by split.
  - rewrite Ht. unfold thread_measure, pos_of. destruct (th_pc t); lia.
  - exists tm'. split; [exact Hrun|]. split; [exact Hinv'|]. split; [exact Hfin|exact Hsame].
Qed.

(** At the end of the region every thread is past its loop. *)
Lemma join_spec ids tm :
  team_inv W from to p a0 tm -> Forall (fun id => 0 <= id < W) ids ->
  exists tm',
    for_each (finish p) ids tm = Done tm' /\
    team_inv W from to p a0 tm' /\
    (forall j : nat, finished_in tm j \/ Z.of_nat j ∈ ids -> finished_in tm' j).
Proof using All.
  revert tm. induction ids as [|id ids IH]; intros tm Hinv Hids.
  - exists tm. split; [done|]. split; [done|].
    intros j [Hj|Hj]; [done|]. by apply elem_of_nil in Hj.
  - cbn [for_each]. inversion Hids as [|? ? Hid Hrest]; subst.
    destruct (finish_spec tm id Hinv Hid) as (tm1 & -> & Hinv1 & Hfin & Hsame).
    rewrite bind_done.
    destruct (IH tm1 Hinv1 Hrest) as (tm2 & Hrun & Hinv2 & Hall).
    exists tm2. split; [done|]. split; [done|].
    intros j Hj. apply Hall.
    destruct (decide (Z.of_nat j = id)) as [<-|Hne].
    + left. by rewrite Nat2Z.id in Hfin.
    + destruct Hj as [(t & Hj & Hpc)|Hj].
      * left. exists t. by rewrite Hsame.
      * right. apply elem_of_cons in Hj as [Hj|Hj]; [done|done].
Qed.

(** With every thread past its loop, the multiples of [p] in
    [from, to) have been cleared and counted, and nothing else. *)
Lemma final_shared tm :
  team_inv W from to p a0 tm ->
  (forall j : nat, Z.of_nat j < W -> finished_in tm j) ->
  (tm_isprime tm, tm_nmarked tm) = shared_at a0 (multiple_in from to p).
Proof using All.
  intros (Hlen & Hwf & Ha & Hnm) Hfin.
  assert (forall y, written_cells (tm_threads tm) y = false) as Hw.
  { intros y. apply not_true_is_false. intros E.
    apply existsb_lookup in E as (j & t & Hj & Ht).
    apply lookup_lt_Some in Hj as Hlt.
    destruct (Hfin j ltac:(lia)) as (t' & Hj' & Hpc).
    rewrite Hj in Hj'. injection Hj' as <-.
    unfold written_of in Ht. by rewrite Hpc in Ht. }
  assert (forall y, done_cells p (tm_threads tm) y = multiple_in from to p y)
    as Hd.
  { intros y. apply eq_true_iff_eq. split; intros E.
    - apply existsb_lookup in E as (j & t & Hj & Ht).
      apply lookup_lt_Some in Hj as Hlt.
      pose proof (Hwf j t Hj) as (Hfrom & Hmod & Hto & _).
      destruct (block_bounds (Z.of_nat j) ltac:(lia)) as (H1 & H2 & H3).
      unfold done_of, visited in Ht. bool_prop.
      unfold multiple_in. bool_goal; try lia.
      by apply (mod_sub_multiple p (th_from t) y); [lia|done|].
    - unfold multiple_in in E. bool_prop.
      destruct (sub_bound_cover W from to y) as (id & Hid & Hin); [lia|lia|].
      destruct (Hfin (Z.to_nat id) ltac:(lia)) as (t & Hj & Hpc).
      pose proof (Hwf _ t Hj) as (Hfrom & Hmod & Hto & _).
      rewrite Z2Nat.id in * by lia.
      unfold in_block in Hin. bool_prop.
      apply existsb_lookup. exists (Z.to_nat id), t. split; [done|].
      unfold done_of, visited, pos_of. rewrite Hpc.
      destruct (Z.le_gt_cases (th_from t) y) as [Hle|Hgt].
      + bool_goal; try lia.
        by apply (mod_sub_multiple p (th_from t) y); [lia|done|].
      + assert (th_from t = y); [|lia].
        apply (multiple_window p); [lia|done|done|lia]. }
  unfold shared_at. rewrite Ha, Hnm. f_equal.
  - apply strike_ext. intros y _. by rewrite Hw, Hd, orb_false_r.
  - do 2 f_equal. apply strike_ext. intros y _. apply Hd.
Qed.

Lemma team_start_spec :
  exists tm,
    team_start W a0 from to p = Done tm /\
    team_inv W from to p a0 tm /\
    tm_threads tm = map (started W from to p) (seqZ 0 W).
Proof using All.
  unfold team_start.
  rewrite (collect_map _ (started W from to p)).
  2:{ intros id Hid. apply elem_of_seqZ in Hid. apply thread_start_spec. lia. }
  rewrite bind_done. eexists. split; [reflexivity|]. split; [|done].
  assert (forall (j : nat) t,
            map (started W from to p) (seqZ 0 W) !! j = Some t ->
            Z.of_nat j < W /\ t = started W from to p (Z.of_nat j)) as Hlook.
  { intros j t Hj. rewrite list_lookup_fmap in Hj.
    destruct (seqZ 0 W !! j) as [id|] eqn:E; [|done].
    apply lookup_seqZ in E as [-> Hlt]. injection Hj as <-. done. }
  assert (forall y, done_cells p (map (started W from to p) (seqZ 0 W)) y
                    = false) as Hd.
  { intros y. apply not_true_is_false. intros E.
    apply existsb_lookup in E as (j & t & Hj & Ht).
    apply Hlook in Hj as [_ ->].
    unfold done_of, visited, started, pos_of in Ht. simpl in Ht.
    bool_prop. lia. }
  assert (forall y, written_cells (map (started W from to p) (seqZ 0 W)) y
                    = false) as Hw.
  { intros y. apply not_true_is_false. intros E.
    apply existsb_lookup in E as (j & t & Hj & Ht).
    apply Hlook in Hj as [_ ->]. done. }
  split; [|split; [|split]]; cbn [tm_threads tm_isprime tm_nmarked].
  - by rewrite length_map, length_seqZ.
  - intros j t Hj. apply Hlook in Hj as [Hlt ->]. apply started_wf. lia.
  - symmetry. apply strike_none. intros y _. by rewrite Hd, Hw.
  - rewrite strike_none by (intros; apply Hd). lia.
Qed.

(** Whatever the interleaving of the threads, [mark] returns the buffer
    with the multiples of [p] in [from, to) cleared and the number of
    those that were true. *)
Lemma mark_spec steps :
  mark W steps a0 from to p = Done (shared_at a0 (multiple_in from to p)).
Proof using All.
  unfold mark.
  destruct team_start_spec as (tm0 & -> & Hinv0 & _). rewrite bind_done.
  destruct (interleaving_spec steps tm0 Hinv0) as (tm1 & -> & Hinv1).
  rewrite bind_done.
  destruct (join_spec (seqZ 0 W) tm1 Hinv1) as (tm2 & -> & Hinv2 & Hfin).
  { apply Forall_seqZ. lia. }
  rewrite bind_done. f_equal. apply final_shared; [done|].
  intros j Hj. apply Hfin. right. apply elem_of_seqZ. lia.
Qed.
(** Every state the team reaches is defined, and a thread that stands
    before a write stands at a cell of [from, to). *)
Lemma reached_spec steps :
  exists tm0 tm,
    team_start W a0 from to p = Done tm0 /\
    for_each (team_step p) steps tm0 = Done tm /\
    team_inv W from to p a0 tm.
Proof using All.
  destruct team_start_spec as (tm0 & Hstart & Hinv0 & _).
  destruct (interleaving_spec steps tm0 Hinv0) as (tm & Hrun & Hinv).
  by exists tm0, tm.
Qed.

Lemma writes_inside tm x :
  team_inv W from to p a0 tm -> about_to_write tm x -> from <= x < to.
Proof using All.
  intros (Hlen & Hwf & _) (j & t & Hj & Hpc).
  apply lookup_lt_Some in Hj as Hlt.
  pose proof (Hwf j t Hj) as (Hfrom & _ & Hto & Hat).
  rewrite Hpc in Hat.
  destruct (block_bounds (Z.of_nat j) ltac:(lia)) as (H1 & H2 & H3). lia.
Qed.
End Marking.

(** ** Numbers struck by the main iteration *)

Lemma struck_spec i y :
  struck i y = true <->
  exists d, 2 <= d < i /\ d * d <= y /\ y mod d = 0.
Proof.
  unfold struck. rewrite existsb_exists. split.
  - intros (d & Hin & Hd). apply list_elem_of_In, elem_of_seqZ in Hin.
    bool_prop. exists d. repeat split; (done || lia).
  - intros (d & Hd & Hsq & Hmod). exists d. split.
    + apply list_elem_of_In, elem_of_seqZ. lia.
    + bool_goal; done.
Qed.

(** A round at [i] adds the multiples of [i] from [i * i] on. *)
Lemma struck_step n i y :
  2 <= i -> 0 <= y <= n ->
  struck (i + 1) y = struck i y || multiple_in (i * i) (n + 1) i y.
Proof.
  intros Hi Hy. apply eq_true_iff_eq. rewrite orb_true_iff, !struck_spec.
  unfold multiple_in. split.
  - intros (d & Hd & Hsq & Hmod).
    destruct (Z.eq_dec d i) as [->|Hne].
    + right. bool_goal; (done || lia).
    + left. exists d. repeat split; (done || lia).
  - intros [(d & Hd & Hsq & Hmod)|H].
    + exists d. repeat split; (done || lia).
    + bool_prop. exists i. repeat split; (done || lia).
Qed.

(** A round at an [i] that is itself struck would add nothing. *)
Lemma struck_skip i y :
  2 <= i -> struck i i = true -> struck (i + 1) y = struck i y.
Proof.
  intros Hi Hii. apply eq_true_iff_eq. rewrite !struck_spec.
  apply struck_spec in Hii as (e & He & Hesq & Hemod). split.
  - intros (d & Hd & Hsq & Hmod).
    destruct (Z.eq_dec d i) as [->|Hne].
    + exists e. repeat split; try lia.
      * nia.
      * apply Z.mod_divide; [lia|]. apply Z.mod_divide in Hemod; [|lia].
        apply Z.mod_divide in Hmod; [|lia]. by eapply Z.divide_trans.
    + exists d. repeat split; (done || lia).
  - intros (d & Hd & Hsq & Hmod). exists d. repeat split; (done || lia).
Qed.

(** Once [i * i] exceeds [n], the numbers struck up to [n] are the
    composite ones. *)
Lemma struck_final n i y :
  0 <= i -> n < i * i -> y <= n -> struck i y = composite y.
Proof.
  intros Hi Hn Hy. unfold composite. apply eq_true_iff_eq.
  rewrite !struck_spec. split; intros (d & Hd & Hsq & Hmod); exists d;
    repeat split; try (done || lia); nia.
Qed.

Lemma composite_small y : y < 4 -> composite y = false.
Proof.
  intros Hy. apply not_true_is_false. unfold composite.
  rewrite struck_spec. intros (d & Hd & Hsq & _). nia.
Qed.

(** From any proper divisor one gets a divisor below the square root. *)
Lemma composite_of_divisor y d :
  1 < d < y -> (d | y) -> composite y = true.
Proof.
  intros Hd [m Hm]. unfold composite. apply struck_spec.
  assert (1 < m < y) by nia.
  destruct (Z.le_gt_cases (d * d) y) as [Hle|Hgt].
  - exists d. repeat split; try lia. apply Z.mod_divide; [lia|]. by exists m.
  - exists m. repeat split; try lia; [nia|].
    apply Z.mod_divide; [lia|]. exists d. lia.
Qed.

Lemma composite_spec y : 2 <= y -> (composite y = true <-> ~ prime y).
Proof.
  intros Hy. split.
  - unfold composite. rewrite struck_spec. intros (d & Hd & Hsq & Hmod) Hp.
    apply prime_alt in Hp as [_ Hp]. apply (Hp d); [lia|].
    apply Z.mod_divide; [lia|done].
  - intros Hnp.
    destruct (existsb (fun d => y mod d =? 0) (seqZ 2 (y - 2))) eqn:E.
    + apply existsb_exists in E as (d & Hin & Hd).
      apply list_elem_of_In, elem_of_seqZ in Hin. bool_prop.
      apply (composite_of_divisor y d); [lia|]. apply Z.mod_divide; [lia|done].
    + exfalso. apply Hnp, prime_alt. split; [lia|]. intros d Hd Hdiv.
      apply not_true_iff_false in E. apply E, existsb_exists. exists d. split.
      * apply list_elem_of_In, elem_of_seqZ. lia.
      * apply Z.eqb_eq, Z.mod_divide; [lia|done].
Qed.

(** The count the sieve arrives at is the number of primes. *)
Lemma count_composite_pi n :
  1 <= n -> n - 1 - countZ composite 0 (Z.to_nat (n + 1)) = pi n.
Proof.
  intros Hn. unfold pi.
  replace (Z.to_nat (n + 1)) with (2 + Z.to_nat (n - 1))%nat by lia.
  rewrite countZ_app. cbn [countZ].
  rewrite !composite_small by lia.
  pose proof (countZ_compl composite 2 (Z.to_nat (n - 1))) as Hc.
  rewrite (countZ_ext (fun y => if prime_dec y then true else false)
             (fun y => negb (composite y))).
  - change (0 + Z.of_nat 2) with 2. lia.
  - intros y Hy. destruct (prime_dec y) as [Hp|Hp].
    + symmetry. apply negb_true_iff, not_true_is_false.
      rewrite composite_spec by lia. tauto.
    + symmetry. apply negb_false_iff, composite_spec; [lia|done].
Qed.

(** ** Flags are only ever cleared *)

Lemma only_cleared_refl a : only_cleared a a.
Proof. by split. Qed.

Lemma only_cleared_trans a1 a2 a3 :
  only_cleared a1 a2 -> only_cleared a2 a3 -> only_cleared a1 a3.
Proof.
  intros [Hl1 H1] [Hl2 H2]. split; [congruence|]. intros x Hx. by apply H1, H2.
Qed.

Lemma store_zero_only_cleared a x a' :
  store a x 0 = Done a' -> only_cleared a a'.
Proof.
  unfold store. destruct (Z.ltb_spec x 0); [done|].
  destruct (Nat.ltb_spec (Z.to_nat x) (length a)); [|done].
  intros [= <-]. split; [apply length_insert|].
  intros y. unfold flag. destruct (Z.ltb_spec y 0); [done|].
  destruct (decide (Z.to_nat x = Z.to_nat y)) as [Heq|Hne].
  - rewrite <- Heq, list_lookup_insert_eq by lia. done.
  - by rewrite list_lookup_insert_ne.
Qed.

(** One step of one thread only clears flags, whatever the state. *)
Lemma thread_step_only_cleared p t sh r :
  thread_step p t sh = Done r -> only_cleared (fst sh) (fst (snd r)).
Proof.
  unfold thread_step. destruct (th_pc t) as [x|x|x|].
  - destruct (x <? th_to t).
    + destruct (load (fst sh) x) as [c| |]; try done. rewrite bind_done.
      destruct (c =? 0); intros [= <-]; apply only_cleared_refl.
    + intros [= <-]. apply only_cleared_refl.
  - destruct (store (fst sh) x 0) as [a| |] eqn:E; try done.
    rewrite bind_done. intros [= <-]. by eapply store_zero_only_cleared.
  - intros [= <-]. apply only_cleared_refl.
  - intros [= <-]. apply only_cleared_refl.
Qed.

Lemma team_step_only_cleared p id tm tm' :
  team_step p id tm = Done tm' ->
  only_cleared (tm_isprime tm) (tm_isprime tm').
Proof.
  unfold team_step. destruct (id <? 0).
  { intros [= <-]. apply only_cleared_refl. }
  destruct (tm_threads tm !! Z.to_nat id) as [t|].
  2:{ intros [= <-]. apply only_cleared_refl. }
  destruct (thread_step p t (tm_isprime tm, tm_nmarked tm)) as [r| |] eqn:E;
    try done.
  rewrite bind_done. intros [= <-]. cbn [tm_isprime].
  apply (thread_step_only_cleared _ _ _ _ E).
Qed.

Lemma finish_turn_only_cleared p id tm r :
  finish_turn p id tm = Done r ->
  only_cleared (tm_isprime tm)
    (tm_isprime (match r with Again s' => s' | Break s' => s' end)).
Proof.
  unfold finish_turn.
  destruct (tm_threads tm !! Z.to_nat id) as [t|].
  2:{ intros [= <-]. apply only_cleared_refl. }
  destruct (th_pc t).
  4:{ intros [= <-]. apply only_cleared_refl. }
  all: destruct (team_step p id tm) as [tm1| |] eqn:E; try done;
    rewrite bind_done; intros [= <-]; by eapply team_step_only_cleared.
Qed.

Lemma finish_only_cleared p id tm tm' :
  finish p id tm = Done tm' ->
  only_cleared (tm_isprime tm) (tm_isprime tm').
Proof.
  unfold finish. destruct (id <? 0).
  { intros [= <-]. apply only_cleared_refl. }
  destruct (tm_threads tm !! Z.to_nat id) as [t|].
  2:{ intros [= <-]. apply only_cleared_refl. }
  intros E.
  apply (while_related (finish_turn p id)
           (fun s s' => only_cleared (tm_isprime s) (tm_isprime s'))) in E.
  - done.
  - intros. by eapply only_cleared_trans.
  - intros s1 s2 H. by apply (finish_turn_only_cleared _ _ _ _ H).
  - intros s1 s2 H. by apply (finish_turn_only_cleared _ _ _ _ H).
Qed.

(** Whatever its arguments and the interleaving of its threads, a call
    of [mark] that returns has only cleared flags. *)
Lemma mark_only_cleared W steps a from to p a' k :
  mark W steps a from to p = Done (a', k) -> only_cleared a a'.
Proof.
  unfold mark, team_start.
  destruct (collect _ _) as [ths| |]; try done. rewrite !bind_done.
  destruct (for_each (team_step p) steps _) as [tm1| |] eqn:E1; try done.
  rewrite bind_done.
  destruct (for_each (finish p) _ tm1) as [tm2| |] eqn:E2; try done.
  rewrite bind_done. intros [= <- _].
  apply (for_each_related (team_step p)
           (fun s s' => only_cleared (tm_isprime s) (tm_isprime s'))) in E1.
  2:{ intros. apply only_cleared_refl. }
  2:{ intros. by eapply only_cleared_trans. }
  2:{ intros. by eapply team_step_only_cleared. }
  apply (for_each_related (finish p)
           (fun s s' => only_cleared (tm_isprime s) (tm_isprime s'))) in E2.
  2:{ intros. apply only_cleared_refl. }
  2:{ intros. by eapply only_cleared_trans. }
  2:{ intros. by eapply finish_only_cleared. }
  cbn [tm_isprime] in E1. by eapply only_cleared_trans.
Qed.

Lemma sieve_turn_only_cleared W sched n s r :
  sieve_turn W sched n s = Done r ->
  only_cleared (ss_isprime s)
    (ss_isprime (match r with Again s' => s' | Break s' => s' end)).
Proof.
  unfold sieve_turn. destruct (Long.mul (ss_i s) (ss_i s) <=? n).
  - destruct (load (ss_isprime s) (ss_i s)) as [c| |]; try done.
    rewrite bind_done. destruct (c =? 0).
    + intros [= <-]. apply only_cleared_refl.
    + destruct (mark _ _ _ _ _ _) as [[a k]| |] eqn:E; try done.
      rewrite bind_done. intros [= <-]. simpl. by eapply mark_only_cleared.
  - intros [= <-]. apply only_cleared_refl.
Qed.

(** ** Initialisation *)

Lemma malloc_length heap size : length (malloc heap size) = Z.to_nat size.
Proof. unfold malloc. by rewrite length_map, length_seq. Qed.

Lemma init_isprime_spec heap n :
  0 <= n < Long.MAX ->
  init_isprime heap n = Done (replicate (Z.to_nat (n + 1)) 1).
Proof.
  intros Hn. unfold init_isprime.
  rewrite long_add_exact by (unfold Long.MIN, Long.MAX in *; lia).
  set (Inv s := 0 <= is_i s <= n + 1 /\
                length (is_isprime s) = Z.to_nat (n + 1) /\
                forall j : nat, Z.of_nat j < is_i s ->
                                is_isprime s !! j = Some 1).
  destruct (while_total (init_turn n) Inv
              (fun s => n < is_i s /\ Inv s)
              (fun s => Z.to_nat (n + 1 - is_i s)))
    with (fuel := Datatypes.S (Z.to_nat (n + 1)))
         (s := InitState (malloc heap (n + 1)) 0)
    as (s & -> & Hend & Hi & Hlen & Hones).
  - intros [a i] (Hi & Hlen & Hones). simpl in *. unfold init_turn. simpl.
    destruct (Z.leb_spec i n) as [Hle|Hgt].
    + left. unfold store. destruct (Z.ltb_spec i 0); [lia|].
      destruct (Nat.ltb_spec (Z.to_nat i) (length a)); [|lia].
      rewrite bind_done. eexists. split; [done|].
      rewrite long_add_exact by (unfold Long.MIN, Long.MAX in *; lia).
      unfold Inv. simpl. rewrite length_insert.
      repeat split; try lia. intros j Hj.
      destruct (decide (j = Z.to_nat i)) as [->|Hne].
      * by rewrite list_lookup_insert_eq.
      * rewrite list_lookup_insert_ne by done. apply Hones. lia.
    + right. eexists. split; [done|]. simpl. split; [lia|]. unfold Inv. done.
  - unfold Inv. simpl. rewrite malloc_length. repeat split; lia.
  - simpl. lia.
  - rewrite bind_done. f_equal. apply list_eq. intros j.
    destruct (Z.lt_ge_cases (Z.of_nat j) (n + 1)).
    + rewrite Hones by lia. symmetry. apply lookup_replicate_2. lia.
    + rewrite !lookup_ge_None_2; [done|rewrite length_replicate; lia|lia].
Qed.

(** ** The main iteration *)

Lemma flag_replicate_one k y :
  0 <= y < Z.of_nat k -> flag (replicate k 1) y = true.
Proof.
  intros Hy. rewrite (flag_lookup _ y 1); [done|lia|].
  apply lookup_replicate_2. lia.
Qed.

Lemma zeros_replicate_one k : zeros (replicate k 1) = 0.
Proof. induction k as [|k IH]; simpl; lia. Qed.

Lemma zeros_struck_ones P k :
  zeros (strike P (replicate k 1)) = countZ P 0 k.
Proof.
  rewrite zeros_strike, zeros_replicate_one, length_replicate.
  rewrite Z.add_0_l. apply countZ_ext. intros y Hy.
  by rewrite flag_replicate_one by lia.
Qed.

Section Sieve.
Variables (W : Z) (sched : Z -> list Z) (n : Z).
Hypothesis W_range : 1 <= W <= Int.MAX.
Hypothesis n_range : 0 <= n <= 2 ^ 31.

Lemma sieve_turn_again i :
  2 <= i -> i * i <= n ->
  sieve_turn W sched n (at_round n i) = Done (Again (at_round n (i + 1))).
Proof using All.
  intros Hi Hsq. unfold sieve_turn, at_round. simpl.
  assert (i <= n) by nia.
  assert (i * i <= 2 ^ 31) as Hsq' by lia.
  rewrite long_mul_exact by (unfold Long.MIN, Long.MAX; lia).
  destruct (Z.leb_spec (i * i) n); [|lia].
  rewrite !long_add_exact by (unfold Long.MIN, Long.MAX; lia).
  assert (Z.of_nat (length (ones n)) = n + 1) as Hlen.
  { unfold ones. rewrite length_replicate. lia. }
  unfold load. destruct (Z.ltb_spec i 0); [lia|].
  rewrite strike_lookup. unfold ones at 1.
  rewrite lookup_replicate_2 by lia. simpl. rewrite Z2Nat.id by lia.
  pose proof (zeros_bounds (strike (struck i) (ones n))) as Hz.
  pose proof (zeros_bounds (strike (struck (i + 1)) (ones n))) as Hz'.
  rewrite !length_strike in *.
  destruct (struck i i) eqn:Hii; simpl.
  - do 2 f_equal.
    rewrite (strike_ext (struck (i + 1)) (struck i)); [done|].
    intros y _. by apply struck_skip.
  - rewrite (mark_spec (strike (struck i) (ones n)) (i * i) (n + 1) i W);
      [|lia|lia|rewrite length_strike; lia|lia
       |unfold Long.MAX; lia|done|unfold Long.MAX, Int.MAX in *; nia].
    rewrite bind_done. unfold shared_at. simpl.
    rewrite strike_strike.
    rewrite (strike_ext _ (struck (i + 1))).
    + rewrite long_sub_exact by (unfold Long.MIN, Long.MAX; lia).
      do 3 f_equal. lia.
    + intros y Hy. symmetry. apply struck_step; lia.
Qed.

Lemma sieve_turn_break i :
  2 <= i -> i * i <= 2 ^ 33 -> n < i * i ->
  sieve_turn W sched n (at_round n i) = Done (Break (at_round n i)).
Proof using All.
  intros Hi Hfit Hsq. unfold sieve_turn, at_round. simpl.
  rewrite long_mul_exact by (unfold Long.MIN, Long.MAX; lia).
  destruct (Z.leb_spec (i * i) n); [lia|done].
Qed.

Lemma sieve_start_at_round : sieve_start (ones n) n = at_round n 2.
Proof using All.
  unfold sieve_start, at_round.
  rewrite long_sub_exact by (unfold Long.MIN, Long.MAX; lia).
  rewrite (strike_none (struck 2)).
  - unfold ones. rewrite zeros_replicate_one. f_equal. lia.
  - intros y _. apply not_true_is_false. rewrite struck_spec.
    intros (d & Hd & _). lia.
Qed.

(** The main iteration ends, standing at the first [i] whose square
    exceeds [n]. *)
Lemma sieve_loop_spec :
  exists i, 2 <= i /\ n < i * i /\
    while (sieve_turn W sched n) (Datatypes.S (Z.to_nat n)) (sieve_start (ones n) n)
    = Done (at_round n i).
Proof using All.
  rewrite sieve_start_at_round.
  set (Inv s := exists i, s = at_round n i /\ 2 <= i /\
                          (i = 2 \/ (i - 1) * (i - 1) <= n)).
  destruct (while_total (sieve_turn W sched n) Inv
              (fun s => exists i, s = at_round n i /\ 2 <= i /\ n < i * i)
              (fun s => Z.to_nat (n + 2 - ss_i s)))
    with (fuel := Datatypes.S (Z.to_nat n)) (s := at_round n 2)
    as (s & Hs & i & -> & Hi & Hsq).
  - intros s (i & -> & Hi & Hprev).
    assert (i <= 2 ^ 16 + 1) as Hsmall by nia.
    destruct (Z.le_gt_cases (i * i) n) as [Hle|Hgt].
    + left. exists (at_round n (i + 1)). split; [by apply sieve_turn_again|].
      split.
      * exists (i + 1). split; [done|]. split; [lia|]. right.
        by replace (i + 1 - 1) with i by lia.
      * unfold at_round. simpl. nia.
    + right. exists (at_round n i). split.
      * apply sieve_turn_break; [done|nia|done].
      * by exists i.
  - exists 2. split; [done|]. lia.
  - unfold at_round. simpl. lia.
  - by exists i.
Qed.

(** The count reported for [n]. *)
Lemma sieve_spec heap :
  sieve W sched heap n = Done (n - 1 - countZ composite 0 (Z.to_nat (n + 1))).
Proof using All.
  unfold sieve.
  rewrite init_isprime_spec by (unfold Long.MAX; lia). rewrite bind_done.
  fold (ones n).
  destruct sieve_loop_spec as (i & Hi & Hsq & ->). rewrite bind_done.
  unfold at_round. simpl. do 2 f_equal. unfold ones.
  rewrite zeros_struck_ones. apply countZ_ext.
  intros y Hy. apply (struck_final n); lia.
Qed.
End Sieve.

Lemma sieve_pi W sched heap n :
  1 <= W <= Int.MAX -> 1 <= n <= 2 ^ 31 -> sieve W sched heap n = Done (pi n).
Proof.
  intros HW Hn. rewrite sieve_spec by (done || lia).
  by rewrite count_composite_pi by lia.
Qed.

(** ** The quick sieve computes the same count *)

Lemma length_cross_out p c l : length (cross_out p c l) = length l.
Proof.
  revert c. induction l as [|b l IH]; intros c; [done|].
  destruct c; simpl; by rewrite IH.
Qed.

Lemma succ_multiple (p y : nat) :
  (1 <= p)%nat ->
  (Z.of_nat (Datatypes.S y) mod Z.of_nat p =? 0) =
  (p - 1 <=? y)%nat && (Z.of_nat (y - (p - 1)) mod Z.of_nat p =? 0).
Proof.
  intros Hp. destruct (Nat.leb_spec (p - 1) y) as [Hle|Hlt]; simpl.
  - replace (Z.of_nat (Datatypes.S y))
      with (Z.of_nat (y - (p - 1)) + 1 * Z.of_nat p) by lia.
    by rewrite Z_mod_plus_full.
  - rewrite Z.mod_small by lia. apply Z.eqb_neq. lia.
Qed.

Lemma nth_cross_out (p c : nat) l (y : nat) :
  (1 <= p)%nat ->
  nth y (cross_out p c l) false =
  nth y l false &&
  negb ((c <=? y)%nat && (Z.of_nat (y - c) mod Z.of_nat p =? 0)).
Proof.
  intros Hp. revert c y. induction l as [|b l IH]; intros c y.
  - by destruct y.
  - destruct c as [|c], y as [|y]; cbn [cross_out nth].
    + by rewrite andb_false_r.
    + rewrite IH. f_equal. f_equal. cbn [Nat.leb andb].
      rewrite Nat.sub_0_r. symmetry. by apply succ_multiple.
    + by rewrite andb_true_r.
    + by rewrite IH.
Qed.

Lemma nth_repeat_true k y : (y < k)%nat -> nth y (repeat true k) false = true.
Proof.
  revert y. induction k as [|k IH]; intros y Hy; [lia|].
  destruct y as [|y]; [done|]. simpl. apply IH. lia.
Qed.

Lemma count_false_countZ_shift l lo :
  count_false l =
  countZ (fun y => negb (nth (Z.to_nat (y - lo)) l false)) lo (length l).
Proof.
  revert lo. induction l as [|b l IH]; intros lo; [done|].
  cbn [count_false length countZ]. rewrite (IH (lo + 1)). f_equal.
  - rewrite Z.sub_diag. simpl. by destruct b.
  - apply countZ_ext. intros y Hy.
    replace (Z.to_nat (y - lo)) with (Datatypes.S (Z.to_nat (y - (lo + 1))))
      by lia.
    done.
Qed.

(** An odd [i] divides [2 * d] only if it divides [d]. *)
Lemma odd_divides_double i d :
  0 < i -> i mod 2 = 1 -> (2 * d) mod i = 0 -> d mod i = 0.
Proof.
  intros Hi Hodd H.
  pose proof (Z.div_mod d i ltac:(lia)) as Hd.
  pose proof (Z.mod_pos_bound d i ltac:(lia)) as Hr.
  set (r := d mod i) in *. set (q := d / i) in *.
  replace (2 * d) with (2 * r + (2 * q) * i) in H by lia.
  rewrite Z_mod_plus_full in H.
  destruct (Z.lt_ge_cases (2 * r) i) as [Hlt|Hge].
  - rewrite Z.mod_small in H by lia. lia.
  - replace (2 * r) with (2 * r - i + 1 * i) in H by lia.
    rewrite Z_mod_plus_full, Z.mod_small in H by lia.
    pose proof (Z.div_mod i 2 ltac:(lia)). lia.
Qed.

(** An even [d] does not divide an odd number. *)
Lemma struck_even_step i y :
  i mod 2 = 1 -> y mod 2 = 1 -> struck (i + 1 + 1) y = struck (i + 1) y.
Proof.
  intros Hi Hy. apply eq_true_iff_eq. rewrite !struck_spec. split.
  - intros (d & Hd & Hsq & Hmod).
    destruct (Z.eq_dec d (i + 1)) as [->|Hne].
    + exfalso. apply Z.mod_divide in Hmod; [|lia].
      destruct Hmod as [m Hm].
      pose proof (Z.div_mod i 2 ltac:(lia)).
      pose proof (Z.div_mod y 2 ltac:(lia)). nia.
    + exists d. repeat split; (done || lia).
  - intros (d & Hd & Hsq & Hmod). exists d. repeat split; (done || lia).
Qed.

Lemma countZ_halves f (m : nat) :
  countZ f 0 (2 * m) =
  countZ (fun k => f (2 * k)) 0 m + countZ (fun k => f (2 * k + 1)) 0 m.
Proof.
  induction m as [|m IH]; [done|].
  replace (2 * Datatypes.S m)%nat with (Datatypes.S (Datatypes.S (2 * m)))
    by lia.
  rewrite !countZ_S_r, IH, !Z.add_0_l.
  replace (Z.of_nat (2 * m)) with (2 * Z.of_nat m) by lia.
  replace (Z.of_nat (Datatypes.S (2 * m))) with (2 * Z.of_nat m + 1) by lia.
  lia.
Qed.

Lemma countZ_from_two (m : nat) :
  countZ (fun k => 2 <=? k) 0 m = Z.max 0 (Z.of_nat m - 2).
Proof.
  induction m as [|m IH]; [done|].
  rewrite countZ_S_r, IH, Z.add_0_l.
  destruct (Z.leb_spec 2 (Z.of_nat m)); lia.
Qed.

Lemma composite_even k : 0 <= k -> composite (2 * k) = (2 <=? k).
Proof.
  intros Hk. destruct (Z.leb_spec 2 k) as [Hge|Hlt].
  - apply (composite_of_divisor (2 * k) 2); [lia|]. exists k. lia.
  - apply composite_small. lia.
Qed.

Section Quick.
Variable n : Z.
Hypothesis n_nonneg : 0 <= n.

Lemma fast_round_flags i l :
  3 <= i -> i mod 2 = 1 -> i * i <= n -> flags_at n i l ->
  flags_at n (i + 2)
    (if nth (Z.to_nat (i / 2)) l false
     then cross_out (Z.to_nat i) (Z.to_nat (i * i / 2)) l else l).
Proof using n_nonneg.
  intros Hi Hodd Hsq [Hlen Hnth]. unfold flags_at.
  assert (i <= n) by nia.
  pose proof (Z.div_mod i 2 ltac:(lia)) as Hi2.
  assert ((i * i) mod 2 = 1) as Hsqodd.
  { rewrite Z.mul_mod, Hodd by lia. done. }
  pose proof (Z.div_mod (i * i) 2 ltac:(lia)) as Hsq2.
  set (c := i * i / 2) in *.
  assert (forall k : nat,
            struck (i + 2) (2 * Z.of_nat k + 1) =
            struck (i + 1) (2 * Z.of_nat k + 1)) as Heven.
  { intros k. replace (i + 2) with (i + 1 + 1) by lia.
    apply struck_even_step; [done|].
    replace (2 * Z.of_nat k + 1) with (1 + Z.of_nat k * 2) by lia.
    by rewrite Z_mod_plus_full. }
  rewrite (Hnth (Z.to_nat (i / 2))) by lia.
  replace (2 * Z.of_nat (Z.to_nat (i / 2)) + 1) with i by lia.
  destruct (struck i i) eqn:Hii; simpl.
  - split; [done|]. intros k Hk. rewrite Hnth by done.
    f_equal. rewrite Heven. symmetry. apply struck_skip; [lia|done].
  - split; [by rewrite length_cross_out|]. intros k Hk.
    rewrite nth_cross_out by lia. rewrite Hnth by done.
    rewrite Heven, (struck_step n) by lia. rewrite negb_orb. f_equal. f_equal.
    unfold multiple_in. rewrite Z2Nat.id by lia.
    destruct (Z.ltb_spec (2 * Z.of_nat k + 1) (n + 1)); [|lia].
    rewrite andb_true_r.
    destruct (Z.leb_spec (i * i) (2 * Z.of_nat k + 1)) as [Hge|Hlt].
    + destruct (Nat.leb_spec (Z.to_nat c) k); [|lia]. simpl.
      replace (Z.of_nat (k - Z.to_nat c)) with (Z.of_nat k - c) by lia.
      apply eq_true_iff_eq. rewrite !Z.eqb_eq. split; intros Hmod.
      * replace (2 * Z.of_nat k + 1)
          with (2 * (Z.of_nat k - c) + i * i) by lia.
        rewrite Z_mod_plus_full.
        apply Z.mod_divide; [lia|]. apply Z.mod_divide in Hmod; [|lia].
        by apply Z.divide_mul_r.
      * apply odd_divides_double; [lia|done|].
        replace (2 * (Z.of_nat k - c))
          with (2 * Z.of_nat k + 1 + (- i) * i) by lia.
        by rewrite Z_mod_plus_full.
    + destruct (Nat.leb_spec (Z.to_nat c) k); [lia|done].
Qed.

Lemma fast_rounds_flags fuel i l :
  3 <= i -> i mod 2 = 1 -> n + 3 <= Z.of_nat fuel + i -> flags_at n i l ->
  exists i', 3 <= i' /\ n < i' * i' /\ flags_at n i' (fast_rounds fuel n i l).
Proof using n_nonneg.
  revert i l. induction fuel as [|fuel IH]; intros i l Hi Hodd Hfuel Hl.
  - exists i. split; [done|]. split; [nia|done].
  - cbn [fast_rounds]. destruct (Z.leb_spec (i * i) n) as [Hle|Hgt].
    + apply IH; [lia| |lia|by apply fast_round_flags].
      replace (i + 2) with (i + 1 * 2) by lia. by rewrite Z_mod_plus_full.
    + exists i. split; [done|]. split; [lia|done].
Qed.

Lemma fast_count_spec :
  fast_count n = n - 1 - countZ composite 0 (Z.to_nat (n + 1)).
Proof using n_nonneg.
  unfold fast_count.
  pose proof (Z.div_mod (n + 1) 2 ltac:(lia)) as Hn2.
  pose proof (Z.mod_pos_bound (n + 1) 2 ltac:(lia)) as Hr.
  set (m := (n + 1) / 2) in *.
  destruct (fast_rounds_flags (Z.to_nat n) 3 (repeat true (Z.to_nat m)))
    as (i & Hi & Hsq & Hlen & Hnth); [lia|done|lia| |].
  - split; [by rewrite repeat_length|]. intros k Hk.
    rewrite nth_repeat_true by lia. symmetry. apply negb_true_iff.
    apply not_true_is_false. rewrite struck_spec.
    intros (d & Hd & Hdsq & Hmod).
    assert (d = 2) as -> by lia.
    replace (2 * Z.of_nat k + 1) with (1 + Z.of_nat k * 2) in Hmod by lia.
    by rewrite Z_mod_plus_full in Hmod.
  - assert (count_false (fast_rounds (Z.to_nat n) n 3 (repeat true (Z.to_nat m)))
            = countZ (fun k => composite (2 * k + 1)) 0 (Z.to_nat m)) as ->.
    { rewrite (count_false_countZ_shift _ 0), Hlen.
      apply countZ_ext. intros k Hk. rewrite Z.sub_0_r.
      rewrite Hnth by lia. rewrite negb_involutive, Z2Nat.id by lia.
      apply (struck_final n); lia. }
    assert (countZ composite 0 (2 * Z.to_nat m) =
            Z.max 0 (m - 2) +
            countZ (fun k => composite (2 * k + 1)) 0 (Z.to_nat m)) as Hhalves.
    { rewrite countZ_halves. f_equal.
      rewrite (countZ_ext _ (fun k => 2 <=? k))
        by (intros k Hk; apply composite_even; lia).
      rewrite countZ_from_two. lia. }
    destruct (Z.eq_dec ((n + 1) mod 2) 0) as [Heven|Hodd].
    + replace (Z.to_nat (n + 1)) with (2 * Z.to_nat m)%nat by lia.
      rewrite Hhalves.
      replace (n / 2) with (m - 1); [lia|].
      apply (Z.div_unique n 2 (m - 1) 1); lia.
    + replace (Z.to_nat (n + 1)) with (Datatypes.S (2 * Z.to_nat m)) by lia.
      rewrite countZ_S_r, Hhalves, Z.add_0_l.
      replace (Z.of_nat (2 * Z.to_nat m)) with (2 * m) by lia.
      rewrite composite_even by lia.
      replace (n / 2) with m by (apply (Z.div_unique n 2 m 0); lia).
      destruct (Z.leb_spec 2 m); lia.
Qed.
End Quick.

(** The count for [n], by evaluation of the quick sieve. *)
Lemma sieve_fast_count W sched heap n :
  1 <= W <= Int.MAX -> 0 <= n <= 2 ^ 31 ->
  sieve W sched heap n = Done (fast_count n).
Proof.
  intros HW Hn. rewrite sieve_spec by done. by rewrite fast_count_spec by lia.
Qed.

(** ** Runs of [main] *)

Lemma too_large_spec n :
  Long.MIN <= n <= Long.MAX ->
  too_large n = negb ((0 <=? n) && (n <=? 2 ^ 31)).
Proof.
  unfold Long.MIN, Long.MAX, too_large, Long.to_unsigned. intros Hn.
  destruct (Z.leb_spec 0 n) as [Hpos|Hneg]; simpl.
  - rewrite Z.mod_small by lia.
    destruct (Z.leb_spec n (2 ^ 31)), (Z.ltb_spec (2 ^ 31) n); (done || lia).
  - replace n with (n + 2 ^ 64 + (-1) * 2 ^ 64) by lia.
    rewrite Z_mod_plus_full, Z.mod_small by lia.
    apply Z.ltb_lt. lia.
Qed.

Lemma main_accepts W sched heap n :
  1 <= W <= Int.MAX -> 0 <= n <= 2 ^ 31 ->
  main W sched heap [n] =
  reports (n - 1 - countZ composite 0 (Z.to_nat (n + 1))) n.
Proof.
  intros HW Hn. unfold main, main_with.
  rewrite too_large_spec by (unfold Long.MIN, Long.MAX; lia).
  destruct (Z.leb_spec 0 n); [|lia]. destruct (Z.leb_spec n (2 ^ 31)); [|lia].
  simpl negb. cbv iota.
  rewrite sieve_spec, bind_done by done.
  rewrite long_add_exact by (unfold Long.MIN, Long.MAX; lia). done.
Qed.

Lemma main_refuses W sched heap n :
  Long.MIN <= n <= Long.MAX -> ~ (0 <= n <= 2 ^ 31) ->
  main W sched heap [n] = refuses.
Proof.
  intros Hn Hout. unfold main, main_with. rewrite too_large_spec by done.
  destruct (Z.leb_spec 0 n), (Z.leb_spec n (2 ^ 31)); (done || lia).
Qed.

Lemma main_default W sched heap :
  main W sched heap [] = main W sched heap [1000000].
Proof. unfold main. reflexivity. Qed.

(** The counts of Table 1 of the source, by evaluation. *)
Lemma fast_count_table :
  fast_count 10 = 4 /\ fast_count 100 = 25 /\ fast_count 1000 = 168 /\
  fast_count 10000 = 1229 /\ fast_count 100000 = 9592 /\
  fast_count 1000000 = 78498.
Proof.
  split; [vm_compute; reflexivity|].
  split; [vm_compute; reflexivity|].
  split; [vm_compute; reflexivity|].
  split; [vm_compute; reflexivity|].
  split; [vm_compute; reflexivity|].
  vm_compute; reflexivity.
Qed.

Lemma main_fast_count W sched heap n :
  1 <= W <= Int.MAX -> 0 <= n <= 2 ^ 31 ->
  main W sched heap [n] = reports (fast_count n) n.
Proof.
  intros HW Hn. rewrite main_accepts by done. by rewrite fast_count_spec by lia.
Qed.

Lemma pi_fast_count n : 1 <= n -> pi n = fast_count n.
Proof.
  intros Hn. rewrite fast_count_spec by lia. symmetry.
  by apply count_composite_pi.
Qed.

(** Every prefix of the main iteration is defined and stands at a round. *)
Lemma sieve_turns_at_round W sched n k i :
  1 <= W <= Int.MAX -> 0 <= n <= 2 ^ 31 ->
  2 <= i -> i = 2 \/ (i - 1) * (i - 1) <= n ->
  exists i', 2 <= i' /\
    turns (sieve_turn W sched n) k (at_round n i) = Done (at_round n i').
Proof.
  intros HW Hn. revert i. induction k as [|k IH]; intros i Hi Hprev.
  - by exists i.
  - assert (i <= 2 ^ 16 + 1) as Hsmall by nia.
    cbn [turns]. destruct (Z.le_gt_cases (i * i) n) as [Hle|Hgt].
    + rewrite sieve_turn_again by done. apply IH; [lia|].
      right. by replace (i + 1 - 1) with i by lia.
    + rewrite sieve_turn_break by (done || nia). by exists i.
Qed.

(** ** Sizes of the blocks *)

Lemma for_each_app {S I : Type} (body : I -> S -> outcome S) l1 l2 s :
  for_each body (l1 ++ l2) s =
  bind (for_each body l1 s) (for_each body l2).
Proof.
  revert s. induction l1 as [|i l1 IH]; intros s; [done|].
  simpl. destruct (body i s); simpl; [apply IH|done..].
Qed.

Lemma sum_sizes_prefix W from to (k : nat) :
  1 <= W <= Int.MAX -> Long.MIN <= from <= to -> to <= Long.MAX ->
  (to - from) * W <= Long.MAX -> Z.of_nat k <= W ->
  sum_sizes W from to (seqZ 0 (Z.of_nat k)) =
  Done (sub_bound W from to (Z.of_nat k) - from).
Proof.
  intros HW Hft Hto Hfit. unfold sum_sizes.
  induction k as [|k IH]; intros Hk.
  - change (Z.of_nat 0) with 0. rewrite sub_bound_first. simpl.
    f_equal. lia.
  - rewrite seqZ_S, for_each_app, IH by lia. rewrite bind_done.
    cbn [for_each].
    rewrite (block_from_exact W from to HW Hft Hto Hfit) by lia.
    rewrite (block_to_exact W from to HW Hft Hto Hfit) by lia.
    rewrite !bind_done. f_equal.
    replace (0 + Z.of_nat k + 1) with (Z.of_nat (Datatypes.S k)) by lia.
    replace (0 + Z.of_nat k) with (Z.of_nat k) by lia. lia.
Qed.

(** Of two states of the main iteration, the later one has only cleared
    flags of the earlier one. *)
Lemma sieve_run_only_cleared W sched n j k s sj sk :
  (j <= k)%nat ->
  turns (sieve_turn W sched n) j s = Done sj ->
  turns (sieve_turn W sched n) k s = Done sk ->
  only_cleared (ss_isprime sj) (ss_isprime sk).
Proof.
  intros Hjk Hj Hk.
  eapply (turns_later (sieve_turn W sched n)
            (fun s s' => only_cleared (ss_isprime s) (ss_isprime s')));
    [| | | |exact Hjk|exact Hj|exact Hk].
  - intros. apply only_cleared_refl.
  - intros. by eapply only_cleared_trans.
  - intros s1 s2 H. apply (sieve_turn_only_cleared W sched n s1 _ H).
  - intros s1 s2 H. apply (sieve_turn_only_cleared W sched n s1 _ H).
Qed.

(** * The claims *)

(** C1.  For n = 10, 100, 1000, 10000, 100000 and 1000000 the program
    reports the value pi(n) of the prime-counting function: 4, 25, 168,
    1229, 9592 and 78498; run without an argument it takes n = 1000000.
    This holds for every size of the team, every interleaving of its
    threads in every call of [mark], and whatever the fresh buffer
    holds. *)
Theorem C1_table_counts W sched heap :
  1 <= W <= Int.MAX ->
  (main W sched heap [10] = reports 4 10 /\ pi 10 = 4) /\
  (main W sched heap [100] = reports 25 100 /\ pi 100 = 25) /\
  (main W sched heap [1000] = reports 168 1000 /\ pi 1000 = 168) /\
  (main W sched heap [10000] = reports 1229 10000 /\ pi 10000 = 1229) /\
  (main W sched heap [100000] = reports 9592 100000 /\ pi 100000 = 9592) /\
  (main W sched heap [1000000] = reports 78498 1000000 /\ pi 1000000 = 78498) /\
  main W sched heap [] = reports 78498 1000000.
Proof.
  intros HW.
  destruct fast_count_table as (E1 & E2 & E3 & E4 & E5 & E6).
  assert (forall n c, 1 <= n <= 2 ^ 31 -> fast_count n = c ->
            main W sched heap [n] = reports c n /\ pi n = c) as Hrow.
  { intros n c Hn <-. split.
    - apply main_fast_count; [done|lia].
    - apply pi_fast_count. lia. }
  split; [apply Hrow; [lia|exact E1]|].
  split; [apply Hrow; [lia|exact E2]|].
  split; [apply Hrow; [lia|exact E3]|].
  split; [apply Hrow; [lia|exact E4]|].
  split; [apply Hrow; [lia|exact E5]|].
  split; [apply Hrow; [lia|exact E6]|].
  rewrite main_default. apply Hrow; [lia|exact E6].
Qed.

Lemma C1_table_counts_witness :
  1 <= 8 <= Int.MAX /\
  (main 8 (fun i => [0; i; 3]) (fun _ => 0) [10] = reports 4 10 /\
   pi 10 = 4) /\
  (main 8 (fun i => [0; i; 3]) (fun _ => 0) [100] = reports 25 100 /\
   pi 100 = 25) /\
  (main 8 (fun i => [0; i; 3]) (fun _ => 0) [1000] = reports 168 1000 /\
   pi 1000 = 168) /\
  (main 8 (fun i => [0; i; 3]) (fun _ => 0) [10000] = reports 1229 10000 /\
   pi 10000 = 1229) /\
  (main 8 (fun i => [0; i; 3]) (fun _ => 0) [100000]
   = reports 9592 100000 /\
   pi 100000 = 9592) /\
  (main 8 (fun i => [0; i; 3]) (fun _ => 0) [1000000]
   = reports 78498 1000000 /\
   pi 1000000 = 78498) /\
  main 8 (fun i => [0; i; 3]) (fun _ => 0) [] = reports 78498 1000000.
Proof.
  split; [unfold Int.MAX; lia|].
  apply (C1_table_counts 8 (fun i => [0; i; 3]) (fun _ => 0)).
  unfold Int.MAX. lia.
Defined.

(** C2, as stated, fails where the [long] arithmetic of [mark] wraps
    around: with a stride of [LONG_MAX] on a buffer of six true cells and
    the range [4, 6), rounding the start up to a multiple of the stride
    overflows, the loop starts at 0, and cell 0, outside the range, is
    cleared and counted. *)
Lemma C2_fails_when_stride_wraps :
  (0 <= 4 <= 6 /\ 6 <= Z.of_nat (length [1; 1; 1; 1; 1; 1]) /\
   1 <= Long.MAX) /\
  mark 1 [0; 0] [1; 1; 1; 1; 1; 1] 4 6 Long.MAX
  = Done ([0; 1; 1; 1; 1; 1], 1) /\
  ~ mark_contract (mark 1 [0; 0] [1; 1; 1; 1; 1; 1] 4 6 Long.MAX)
      [1; 1; 1; 1; 1; 1] 4 6 Long.MAX.
Proof.
  assert (mark 1 [0; 0] [1; 1; 1; 1; 1; 1] 4 6 Long.MAX
          = Done ([0; 1; 1; 1; 1; 1], 1))
    as E by (vm_compute; reflexivity).
  split; [|split; [exact E|]].
  - simpl. unfold Long.MAX. lia.
  - rewrite E. intros (a' & k & Hres & _ & Hcells & _).
    injection Hres as <- <-.
    specialize (Hcells 0%nat 1 eq_refl). vm_compute in Hcells. discriminate.
Qed.

(** C2, amended.  For every buffer, every from, to with
    0 <= from <= to <= len, every stride p >= 1 with to + p <= LONG_MAX
    and every team of W threads, 1 <= W <= INT_MAX, with
    (to - from) * W <= LONG_MAX, however the steps of the threads
    interleave, [mark] returns, having set to 0 the cells
    whose index is a multiple of p in [from, to) and no other, and its
    value is the number of cells that went from true to 0; when
    to <= from it returns 0 and the buffer is as it was. *)
Theorem C2_mark_contract W interleaving a from to p :
  0 <= from <= to -> to <= Z.of_nat (length a) -> 1 <= p ->
  to + p <= Long.MAX -> 1 <= W <= Int.MAX -> (to - from) * W <= Long.MAX ->
  mark_contract (mark W interleaving a from to p) a from to p /\
  (to <= from -> mark W interleaving a from to p = Done (a, 0)).
Proof.
  intros Hft Hlen Hp Hfit HW Hprod.
  rewrite (mark_spec a from to p W) by (done || lia). split.
  - exists (strike (multiple_in from to p) a),
           (zeros (strike (multiple_in from to p) a) - zeros a).
    split; [done|]. split; [apply length_strike|]. split.
    + intros j c Hj. by rewrite strike_lookup, Hj.
    + by rewrite newly_marked_strike.
  - intros Hempty. unfold shared_at. rewrite strike_none.
    + do 2 f_equal. lia.
    + intros x _. unfold multiple_in.
      destruct (Z.leb_spec from x), (Z.ltb_spec x to); (done || lia).
Qed.

Lemma C2_mark_contract_witness :
  (0 <= 4 <= 21 /\ 21 <= Z.of_nat (length (replicate 21 1)) /\ 1 <= 2 /\
   21 + 2 <= Long.MAX /\ 1 <= 3 <= Int.MAX /\ (21 - 4) * 3 <= Long.MAX) /\
  mark_contract (mark 3 [2; 0; 0; 1; 2; 1; 0] (replicate 21 1) 4 21 2)
    (replicate 21 1) 4 21 2 /\
  (21 <= 4 ->
   mark 3 [2; 0; 0; 1; 2; 1; 0] (replicate 21 1) 4 21 2
   = Done (replicate 21 1, 0)).
Proof.
  split.
  - simpl. unfold Long.MAX, Int.MAX. lia.
  - apply (C2_mark_contract 3 [2; 0; 0; 1; 2; 1; 0] (replicate 21 1) 4 21 2);
      simpl; unfold Long.MAX, Int.MAX; lia.
Defined.

(** C3, as stated, fails where the product (to - from) * (id + 1) wraps
    around: for the range [0, 2^62) and two threads the second block ends
    at -2^62, not at [to]. *)
Lemma C3_fails_when_product_wraps :
  (0 <= 2 ^ 62 /\ 1 <= 2) /\
  block_to 2 0 (2 ^ 62) 1 = Done (- 2 ^ 62) /\
  ~ partitions 2 0 (2 ^ 62).
Proof.
  assert (block_to 2 0 (2 ^ 62) 1 = Done (- 2 ^ 62)) as E
    by (vm_compute; reflexivity).
  split; [lia|]. split; [exact E|].
  intros (Hblocks & _).
  destruct (Hblocks 1) as (a & b & _ & Hb & _ & _ & Hlast & _); [lia|].
  rewrite E in Hb. injection Hb as <-.
  specialize (Hlast eq_refl). discriminate.
Qed.

(** C3, amended.  For every from <= to (both [long]) and every team of W
    threads, 1 <= W <= INT_MAX, with (to - from) * W <= LONG_MAX, the
    bounds the threads compute are from + ((to - from) * id) / W and
    from + ((to - from) * (id + 1)) / W, and the W blocks partition
    [from, to): block 0 starts at from, each block ends where the next
    starts, the last ends at to, every point of [from, to) lies in
    exactly one block, and the sizes add up to to - from. *)
Theorem C3_blocks_partition W from to :
  Long.MIN <= from <= to -> to <= Long.MAX ->
  1 <= W <= Int.MAX -> (to - from) * W <= Long.MAX ->
  (forall id, 0 <= id < W ->
     block_from W from to id = Done (from + ((to - from) * id) / W) /\
     block_to W from to id = Done (from + ((to - from) * (id + 1)) / W)) /\
  partitions W from to.
Proof.
  intros Hft Hto HW Hprod.
  assert (forall id, 0 <= id < W ->
            block_from W from to id = Done (sub_bound W from to id) /\
            block_to W from to id = Done (sub_bound W from to (id + 1)))
    as Hexact.
  { intros id Hid. split.
    - by apply block_from_exact.
    - by apply block_to_exact. }
  split; [exact Hexact|]. split; [|split].
  - intros id Hid. destruct (Hexact id Hid) as [Ha Hb].
    exists (sub_bound W from to id), (sub_bound W from to (id + 1)).
    split; [done|]. split; [done|]. split; [|split; [|split]].
    + apply sub_bound_mono; lia.
    + intros ->. apply sub_bound_first.
    + intros ->. replace (W - 1 + 1) with W by lia. apply sub_bound_last. lia.
    + intros Hnext. apply Hexact. lia.
  - intros x Hx.
    destruct (sub_bound_cover W from to x) as (id & Hid & Hin); [lia|done|].
    exists id. split; [done|]. split.
    + destruct (Hexact id Hid) as [Ha Hb].
      exists (sub_bound W from to id), (sub_bound W from to (id + 1)).
      unfold in_block in Hin. bool_prop. repeat split; (done || lia).
    + intros id' a b Hid' Ha Hb Hab.
      destruct (Hexact id' Hid') as [Ha' Hb'].
      rewrite Ha' in Ha. rewrite Hb' in Hb.
      injection Ha as <-. injection Hb as <-.
      apply (in_block_unique W from to id' id x); [lia|lia| |done].
      unfold in_block. bool_goal; lia.
  - replace W with (Z.of_nat (Z.to_nat W)) at 2 by lia.
    rewrite sum_sizes_prefix by (done || lia).
    rewrite Z2Nat.id by lia. rewrite sub_bound_last by lia. done.
Qed.

Lemma C3_blocks_partition_witness :
  (Long.MIN <= 9 <= 21 /\ 21 <= Long.MAX /\ 1 <= 5 <= Int.MAX /\
   (21 - 9) * 5 <= Long.MAX) /\
  (forall id, 0 <= id < 5 ->
     block_from 5 9 21 id = Done (9 + ((21 - 9) * id) / 5) /\
     block_to 5 9 21 id = Done (9 + ((21 - 9) * (id + 1)) / 5)) /\
  partitions 5 9 21.
Proof.
  split.
  - unfold Long.MIN, Long.MAX, Int.MAX. lia.
  - apply (C3_blocks_partition 5 9 21);
      unfold Long.MIN, Long.MAX, Int.MAX; lia.
Defined.

(** C4.  For every argument list (every n), every two sizes W1, W2 of
    the team, 1 <= W1, W2 <= INT_MAX, and every two ways the steps of
    the threads interleave in the calls of [mark], the two runs of the
    program are the same run: the same count is reported, or n is
    refused by both.  So are the two outcomes of each call of [mark] the
    main iteration makes, with the same buffer after it and the same
    value returned; in particular a team of W1 threads does what a
    single thread does. *)
Theorem C4_team_size_irrelevant W1 W2 sched1 sched2 heap :
  1 <= W1 <= Int.MAX -> 1 <= W2 <= Int.MAX ->
  (forall args, Forall (fun n => Long.MIN <= n <= Long.MAX) args ->
     main W1 sched1 heap args = main W2 sched2 heap args) /\
  (forall n a i interleaving1 interleaving2,
     0 <= n <= 2 ^ 31 -> Z.of_nat (length a) = n + 1 ->
     2 <= i -> i * i <= n ->
     mark W1 interleaving1 a (i * i) (n + 1) i =
     mark W2 interleaving2 a (i * i) (n + 1) i /\
     mark W1 interleaving1 a (i * i) (n + 1) i =
     mark 1 [] a (i * i) (n + 1) i).
Proof.
  intros HW1 HW2. split.
  - assert (forall n, Long.MIN <= n <= Long.MAX ->
              main W1 sched1 heap [n] = main W2 sched2 heap [n]) as Hone.
    { intros n Hn.
      destruct (Z.le_gt_cases 0 n) as [Hpos|Hneg];
        [destruct (Z.le_gt_cases n (2 ^ 31)) as [Hle|Hgt]|].
      - by rewrite !main_accepts by (done || lia).
      - by rewrite !main_refuses by (done || lia).
      - by rewrite !main_refuses by (done || lia). }
    intros [|n [|n' args]] Hargs.
    + rewrite !main_default. apply Hone. unfold Long.MIN, Long.MAX. lia.
    + apply Hone. by inversion Hargs.
    + reflexivity.
  - intros n a i il1 il2 Hn Hlen Hi Hsq.
    assert (i <= 2 ^ 16) by nia.
    assert (n + 1 + i <= Long.MAX) by (unfold Long.MAX; lia).
    assert (forall W il, 1 <= W <= Int.MAX ->
              mark W il a (i * i) (n + 1) i =
              Done (shared_at a (multiple_in (i * i) (n + 1) i))) as Hmark.
    { intros W il HW. apply mark_spec; try (done || lia).
      unfold Long.MAX, Int.MAX in *. nia. }
    rewrite !Hmark by (done || unfold Int.MAX; lia). done.
Qed.

Lemma C4_team_size_irrelevant_witness :
  (1 <= 8 <= Int.MAX /\ 1 <= 64 <= Int.MAX) /\
  (forall args, Forall (fun n => Long.MIN <= n <= Long.MAX) args ->
     main 8 (fun _ => []) (fun _ => 0) args =
     main 64 (fun i => [63; 0; i; 0]) (fun _ => 0) args) /\
  (forall n a i interleaving1 interleaving2,
     0 <= n <= 2 ^ 31 -> Z.of_nat (length a) = n + 1 ->
     2 <= i -> i * i <= n ->
     mark 8 interleaving1 a (i * i) (n + 1) i =
     mark 64 interleaving2 a (i * i) (n + 1) i /\
     mark 8 interleaving1 a (i * i) (n + 1) i =
     mark 1 [] a (i * i) (n + 1) i).
Proof.
  split.
  - unfold Int.MAX. lia.
  - apply (C4_team_size_irrelevant 8 64 (fun _ => [])
             (fun i => [63; 0; i; 0]) (fun _ => 0));
      unfold Int.MAX; lia.
Defined.

(** C5.  In a run for an accepted n (0 <= n <= 2^31), whatever the fresh
    buffer holds, initialisation leaves all n + 1 cells true; every
    prefix of the main iteration is defined, and of two states of the
    run the later one has no cell true that is not true in the earlier
    one.  The same holds for each call of [mark] that returns, whatever
    its arguments, the size of the team and the interleaving, and for
    each single step of a thread. *)
Theorem C5_flags_only_cleared W sched heap n :
  1 <= W <= Int.MAX -> 0 <= n <= 2 ^ 31 ->
  (exists a0,
     init_isprime heap n = Done a0 /\
     length a0 = Z.to_nat (n + 1) /\
     (forall x, 0 <= x <= n -> a0 !! Z.to_nat x = Some 1 /\ flag a0 x = true) /\
     (forall k, exists s,
        turns (sieve_turn W sched n) k (sieve_start a0 n) = Done s) /\
     (forall j k sj sk, (j <= k)%nat ->
        turns (sieve_turn W sched n) j (sieve_start a0 n) = Done sj ->
        turns (sieve_turn W sched n) k (sieve_start a0 n) = Done sk ->
        only_cleared (ss_isprime sj) (ss_isprime sk)) /\
     (exists s,
        while (sieve_turn W sched n) (Datatypes.S (Z.to_nat n))
          (sieve_start a0 n) = Done s /\
        turns (sieve_turn W sched n) (Datatypes.S (Z.to_nat n))
          (sieve_start a0 n) = Done s)) /\
  (forall num_threads interleaving a from to p a' c,
     mark num_threads interleaving a from to p = Done (a', c) ->
     only_cleared a a') /\
  (forall p t sh r,
     thread_step p t sh = Done r -> only_cleared (fst sh) (fst (snd r))).
Proof.
  intros HW Hn. split; [|split].
  - exists (ones n). split; [|split; [|split; [|split; [|split]]]].
    + apply init_isprime_spec. unfold Long.MAX. lia.
    + apply length_replicate.
    + intros x Hx. split.
      * apply lookup_replicate_2. lia.
      * apply flag_replicate_one. lia.
    + intros k. rewrite (sieve_start_at_round W sched n HW Hn).
      destruct (sieve_turns_at_round W sched n k 2) as (i & _ & Hk);
        [done|done|lia|by left|].
      by exists (at_round n i).
    + intros j k sj sk Hjk Hj Hk.
      by apply (sieve_run_only_cleared W sched n j k (sieve_start (ones n) n)).
    + destruct (sieve_loop_spec W sched n HW Hn) as (i & _ & _ & Hloop).
      exists (at_round n i). split; [done|]. by apply while_turns.
  - intros num_threads interleaving a from to p a' c.
    apply mark_only_cleared.
  - apply thread_step_only_cleared.
Qed.

Lemma C5_flags_only_cleared_witness :
  (1 <= 3 <= Int.MAX /\ 0 <= 20 <= 2 ^ 31) /\
  (exists a0,
     init_isprime (fun _ => 7) 20 = Done a0 /\
     length a0 = Z.to_nat (20 + 1) /\
     (forall x, 0 <= x <= 20 ->
        a0 !! Z.to_nat x = Some 1 /\ flag a0 x = true) /\
     (forall k, exists s,
        turns (sieve_turn 3 (fun _ => [1]) 20) k (sieve_start a0 20) = Done s) /\
     (forall j k sj sk, (j <= k)%nat ->
        turns (sieve_turn 3 (fun _ => [1]) 20) j (sieve_start a0 20) = Done sj ->
        turns (sieve_turn 3 (fun _ => [1]) 20) k (sieve_start a0 20) = Done sk ->
        only_cleared (ss_isprime sj) (ss_isprime sk)) /\
     (exists s,
        while (sieve_turn 3 (fun _ => [1]) 20) (Datatypes.S (Z.to_nat 20))
          (sieve_start a0 20) = Done s /\
        turns (sieve_turn 3 (fun _ => [1]) 20) (Datatypes.S (Z.to_nat 20))
          (sieve_start a0 20) = Done s)) /\
  (forall num_threads interleaving a from to p a' c,
     mark num_threads interleaving a from to p = Done (a', c) ->
     only_cleared a a') /\
  (forall p t sh r,
     thread_step p t sh = Done r -> only_cleared (fst sh) (fst (snd r))).
Proof.
  split.
  - unfold Int.MAX. lia.
  - apply (C5_flags_only_cleared 3 (fun _ => [1]) (fun _ => 7) 20);
      unfold Int.MAX; lia.
Defined.

(** C6, as stated, fails at n = 0: the count starts at n - 1 = -1, no
    round of the main iteration runs, and -1 is what the program
    reports. *)
Lemma C6_fails_at_zero :
  0 <= 0 < 2 /\
  main 1 (fun _ => []) (fun _ => 0) [0] = reports (-1) 0 /\
  main 1 (fun _ => []) (fun _ => 0) [0] <> reports 0 0.
Proof.
  assert (main 1 (fun _ => []) (fun _ => 0) [0] = reports (-1) 0) as E
    by (vm_compute; reflexivity).
  split; [lia|]. split; [exact E|]. rewrite E. discriminate.
Qed.

(** C6, amended.  For every n with 1 <= n < 2, that is for n = 1, the
    program reports 0. *)
Theorem C6_count_at_one W sched heap n :
  1 <= W <= Int.MAX -> 1 <= n < 2 ->
  main W sched heap [n] = reports 0 n.
Proof.
  intros HW Hn. assert (n = 1) as -> by lia.
  rewrite main_fast_count by (done || lia). reflexivity.
Qed.

Lemma C6_count_at_one_witness :
  (1 <= 2 <= Int.MAX /\ 1 <= 1 < 2) /\
  main 2 (fun _ => [1; 0]) (fun _ => 5) [1] = reports 0 1.
Proof.
  split.
  - unfold Int.MAX. lia.
  - apply (C6_count_at_one 2 (fun _ => [1; 0]) (fun _ => 5) 1);
      unfold Int.MAX; lia.
Defined.

(** C7, as stated, fails in two ways.  When the range is not inside the
    buffer the first call reads past its end and has no defined outcome:
    a buffer of one cell with the range [0, 2).  And inside the buffer,
    when the stride makes the [long] arithmetic wrap around, the loop
    starts at a negative index: three cells, the range [2, 3) and the
    stride [LONG_MAX]. *)
Lemma C7_fails_outside_buffer_or_range :
  (1 <= 1 /\
   mark 1 [] [1] 0 2 1 = Undefined /\
   ~ second_call_marks_nothing 1 [] [] [1] 0 2 1) /\
  ((0 <= 2 <= 3 /\ 3 <= Z.of_nat (length [1; 1; 1]) /\ 1 <= Long.MAX) /\
   mark 1 [] [1; 1; 1] 2 3 Long.MAX = Undefined /\
   ~ second_call_marks_nothing 1 [] [] [1; 1; 1] 2 3 Long.MAX).
Proof.
  assert (mark 1 [] [1] 0 2 1 = Undefined) as E1 by (vm_compute; reflexivity).
  assert (mark 1 [] [1; 1; 1] 2 3 Long.MAX = Undefined) as E2
    by (lazy; reflexivity).
  split.
  - split; [lia|]. split; [exact E1|].
    intros (a1 & k1 & a2 & H & _). rewrite E1 in H. discriminate.
  - split; [simpl; unfold Long.MAX; lia|]. split; [exact E2|].
    intros (a1 & k1 & a2 & H & _). rewrite E2 in H. discriminate.
Qed.

(** C7, amended.  For every buffer, every from, to with
    0 <= from <= to <= len, every stride p >= 1 with to + p <= LONG_MAX
    and every team of W threads, 1 <= W <= INT_MAX, with
    (to - from) * W <= LONG_MAX, two calls of [mark] in succession on the
    same buffer and range both return, however the steps of the threads
    interleave in each, the first a count that is not negative and the
    second 0. *)
Theorem C7_second_call_marks_nothing W interleaving1 interleaving2
    a from to p :
  0 <= from <= to -> to <= Z.of_nat (length a) -> 1 <= p ->
  to + p <= Long.MAX -> 1 <= W <= Int.MAX -> (to - from) * W <= Long.MAX ->
  second_call_marks_nothing W interleaving1 interleaving2 a from to p.
Proof.
  intros Hft Hlen Hp Hfit HW Hprod.
  exists (strike (multiple_in from to p) a),
         (zeros (strike (multiple_in from to p) a) - zeros a),
         (strike (multiple_in from to p) a).
  split; [|split].
  - by apply mark_spec; (done || lia).
  - rewrite zeros_strike. pose proof (countZ_bounds
      (fun i => flag a i && multiple_in from to p i) 0 (length a)). lia.
  - rewrite (mark_spec (strike (multiple_in from to p) a) from to p W);
      [|lia|lia|rewrite length_strike; lia|done..].
    unfold shared_at. rewrite strike_strike.
    rewrite (strike_ext _ (multiple_in from to p))
      by (intros x _; apply orb_diag).
    do 2 f_equal. lia.
Qed.

Lemma C7_second_call_marks_nothing_witness :
  (0 <= 4 <= 21 /\ 21 <= Z.of_nat (length (replicate 21 1)) /\ 1 <= 2 /\
   21 + 2 <= Long.MAX /\ 1 <= 3 <= Int.MAX /\ (21 - 4) * 3 <= Long.MAX) /\
  second_call_marks_nothing 3 [0; 1; 2; 2] [1; 1]
    (replicate 21 1) 4 21 2.
Proof.
  split.
  - simpl. unfold Long.MAX, Int.MAX. lia.
  - apply (C7_second_call_marks_nothing 3 [0; 1; 2; 2] [1; 1]
    (replicate 21 1) 4 21 2);
      simpl; unfold Long.MAX, Int.MAX; lia.
Defined.

(** C8, as stated, fails at n = 2^31: n + 1 exceeds the maximum the
    program accepts, the run for n + 1 is refused and reports no count.
    (Without the test of [n] the claim would still fail at the end of
    the range of [long]: for n + 1 = LONG_MAX the size [n + 1 + 1] of the
    buffer wraps around and the first store is outside the buffer.) *)
Lemma C8_fails_at_the_maximum :
  0 <= 2 ^ 31 /\
  main 1 (fun _ => []) (fun _ => 0) [2 ^ 31 + 1] = refuses /\
  (forall c, main 1 (fun _ => []) (fun _ => 0) [2 ^ 31 + 1] <> reports c (2 ^ 31 + 1)) /\
  sieve 1 (fun _ => []) (fun _ => 0) Long.MAX = Undefined.
Proof.
  assert (main 1 (fun _ => []) (fun _ => 0) [2 ^ 31 + 1] = refuses) as E
    by (vm_compute; reflexivity).
  split; [lia|]. split; [exact E|]. split.
  - intros c. rewrite E. discriminate.
  - lazy. reflexivity.
Qed.

(** C8, amended.  For every n with 0 <= n < 2^31, so that n + 1 is
    accepted too, the runs for n and for n + 1 report counts c and c'
    with c' - c equal to 0 or to 1. *)
Theorem C8_count_grows_by_at_most_one W sched heap n :
  1 <= W <= Int.MAX -> 0 <= n < 2 ^ 31 ->
  exists c c',
    main W sched heap [n] = reports c n /\
    main W sched heap [n + 1] = reports c' (n + 1) /\
    (c' - c = 0 \/ c' - c = 1).
Proof.
  intros HW Hn.
  exists (n - 1 - countZ composite 0 (Z.to_nat (n + 1))),
         (n + 1 - 1 - countZ composite 0 (Z.to_nat (n + 1 + 1))).
  split; [apply main_accepts; (done || lia)|].
  split; [apply main_accepts; (done || lia)|].
  replace (Z.to_nat (n + 1 + 1)) with (Datatypes.S (Z.to_nat (n + 1))) by lia.
  rewrite countZ_S_r. destruct (composite _); lia.
Qed.

Lemma C8_count_grows_by_at_most_one_witness :
  (1 <= 4 <= Int.MAX /\ 0 <= 12 < 2 ^ 31) /\
  exists c c',
    main 4 (fun _ => [3; 0]) (fun _ => 0) [12] = reports c 12 /\
    main 4 (fun _ => [3; 0]) (fun _ => 0) [12 + 1] = reports c' (12 + 1) /\
    (c' - c = 0 \/ c' - c = 1).
Proof.
  split.
  - unfold Int.MAX. lia.
  - apply (C8_count_grows_by_at_most_one 4 (fun _ => [3; 0])
             (fun _ => 0) 12);
      unfold Int.MAX; lia.
Defined.

(** C9.  For every n above the maximum 2^31 (n a [long]) the run consists
    of the message "FATAL: n too large" on the error stream and the exit
    status EXIT_FAILURE: nothing is allocated and nothing is computed,
    whatever the size of the team. *)
Theorem C9_refuses_above_maximum W sched heap n :
  2 ^ 31 < n <= Long.MAX ->
  main W sched heap [n] = Done ([Stderr Fatal_too_large], EXIT_FAILURE) /\
  (forall events status,
     main W sched heap [n] = Done (events, status) ->
     status = EXIT_FAILURE /\
     (forall size, Malloc size ∉ events) /\
     (forall nprimes m, Report nprimes m ∉ events)).
Proof.
  intros Hn.
  assert (main W sched heap [n] = refuses) as E
    by (apply main_refuses; unfold Long.MIN, Long.MAX in *; lia).
  split; [exact E|]. intros events status. rewrite E. intros [= <- <-].
  split; [done|]. split.
  - intros size Hin. apply list_elem_of_singleton in Hin. discriminate.
  - intros nprimes m Hin. apply list_elem_of_singleton in Hin. discriminate.
Qed.

Lemma C9_refuses_above_maximum_witness :
  2 ^ 31 < 2 ^ 31 + 1 <= Long.MAX /\
  main 4 (fun _ => []) (fun _ => 0) [2 ^ 31 + 1] =
    Done ([Stderr Fatal_too_large], EXIT_FAILURE) /\
  (forall events status,
     main 4 (fun _ => []) (fun _ => 0) [2 ^ 31 + 1] = Done (events, status) ->
     status = EXIT_FAILURE /\
     (forall size, Malloc size ∉ events) /\
     (forall nprimes m, Report nprimes m ∉ events)).
Proof.
  split.
  - unfold Long.MAX. lia.
  - apply (C9_refuses_above_maximum 4 (fun _ => []) (fun _ => 0)
             (2 ^ 31 + 1)).
    unfold Long.MAX. lia.
Defined.

(** C10, as stated, fails where the [long] arithmetic of [mark] wraps
    around: with a stride of [LONG_MAX] on a buffer of five true cells
    and the range [4, 5), the aligned start is 0, below [from], and
    cell 0 is written. *)
Lemma C10_fails_when_stride_wraps :
  (0 <= 4 <= 5 /\ 5 <= Z.of_nat (length [1; 1; 1; 1; 1]) /\ 1 <= Long.MAX) /\
  mark 1 [0] [1; 1; 1; 1; 1] 4 5 Long.MAX = Done ([0; 1; 1; 1; 1], 1) /\
  ~ writes_within (mark 1 [0] [1; 1; 1; 1; 1] 4 5 Long.MAX) [1; 1; 1; 1; 1] 4 5.
Proof.
  assert (mark 1 [0] [1; 1; 1; 1; 1] 4 5 Long.MAX = Done ([0; 1; 1; 1; 1], 1))
    as E by (vm_compute; reflexivity).
  split; [simpl; unfold Long.MAX; lia|]. split; [exact E|].
  rewrite E. intros (a' & k & Hres & Hframe). injection Hres as <- <-.
  specialize (Hframe 0%nat ltac:(lia)). discriminate.
Qed.

(** C10, amended.  For every buffer, every from, to with
    0 <= from <= to <= len, every stride p >= 1 with to + p <= LONG_MAX
    and every team of W threads, 1 <= W <= INT_MAX, with
    (to - from) * W <= LONG_MAX, however the steps of the threads
    interleave, [mark] returns and every cell whose index is outside
    [from, to) is as it was before the call; and in every state the
    team reaches, a thread that stands before a write stands at an
    index x with from <= x < to. *)
Theorem C10_writes_within_range W interleaving a from to p :
  0 <= from <= to -> to <= Z.of_nat (length a) -> 1 <= p ->
  to + p <= Long.MAX -> 1 <= W <= Int.MAX -> (to - from) * W <= Long.MAX ->
  writes_within (mark W interleaving a from to p) a from to /\
  (forall steps, exists tm0 tm,
     team_start W a from to p = Done tm0 /\
     for_each (team_step p) steps tm0 = Done tm /\
     forall x, about_to_write tm x -> from <= x < to).
Proof.
  intros Hft Hlen Hp Hfit HW Hprod. split.
  - rewrite (mark_spec a from to p W) by (done || lia).
    eexists _, _. split; [reflexivity|]. intros j Hj.
    rewrite strike_lookup. destruct (a !! j) as [c|]; [|done]. simpl.
    unfold multiple_in.
    destruct (Z.leb_spec from (Z.of_nat j)), (Z.ltb_spec (Z.of_nat j) to);
      (done || lia).
  - intros steps.
    destruct (reached_spec a from to p W) with (steps := steps)
      as (tm0 & tm & Hstart & Hrun & Hinv); try (done || lia).
    exists tm0, tm. split; [done|]. split; [done|]. intros x Hx.
    apply (writes_inside a from to p W) with (tm := tm); (done || lia).
Qed.

Lemma C10_writes_within_range_witness :
  (0 <= 9 <= 21 /\ 21 <= Z.of_nat (length (replicate 21 1)) /\ 1 <= 3 /\
   21 + 3 <= Long.MAX /\ 1 <= 4 <= Int.MAX /\ (21 - 9) * 4 <= Long.MAX) /\
  writes_within (mark 4 [3; 1; 1; 0; 2] (replicate 21 1) 9 21 3)
    (replicate 21 1) 9 21 /\
  (forall steps, exists tm0 tm,
     team_start 4 (replicate 21 1) 9 21 3 = Done tm0 /\
     for_each (team_step 3) steps tm0 = Done tm /\
     forall x, about_to_write tm x -> 9 <= x < 21).
Proof.
  split.
  - simpl. unfold Long.MAX, Int.MAX. lia.
  - apply (C10_writes_within_range 4 [3; 1; 1; 0; 2]
             (replicate 21 1) 9 21 3);
      simpl; unfold Long.MAX, Int.MAX; lia.
Defined.

(** * Further properties of [main] and [mark] *)

(** ** Runs of [main] *)

(** X1.  For every n with 1 <= n <= 2^31, whatever the size of the
    team, the interleavings and the content of fresh memory, the run
    allocates n + 1 bytes, frees them, reports pi(n), the number of
    primes in {2, ..., n}, and exits with EXIT_SUCCESS. *)
Theorem X1_main_counts_primes W sched heap n :
  1 <= W <= Int.MAX -> 1 <= n <= 2 ^ 31 ->
  main W sched heap [n] =
  Done ([Malloc (n + 1); Free; Report (pi n) n], EXIT_SUCCESS).
Proof.
  intros HW Hn. rewrite main_accepts by (done || lia).
  by rewrite count_composite_pi by lia.
Qed.

Lemma X1_main_counts_primes_witness :
  (1 <= 4 <= Int.MAX /\ 1 <= 30 <= 2 ^ 31) /\
  main 4 (fun _ => [2; 0]) (fun _ => 9) [30] =
  Done ([Malloc (30 + 1); Free; Report (pi 30) 30], EXIT_SUCCESS).
Proof.
  split.
  - unfold Int.MAX. lia.
  - apply (X1_main_counts_primes 4 (fun _ => [2; 0]) (fun _ => 9) 30);
      unfold Int.MAX; lia.
Defined.

Lemma flag_ones n y : 0 <= y <= n -> flag (ones n) y = true.
Proof. intros Hy. unfold ones. apply flag_replicate_one. lia. Qed.

(** A prime is never struck. *)
Lemma struck_prime i y : prime y -> struck i y = false.
Proof.
  intros Hp. apply not_true_is_false. rewrite struck_spec.
  intros (d & Hd & Hsq & Hmod).
  assert (1 < y) as Hy by (by destruct Hp).
  apply prime_alt in Hp as [_ Hp]. apply (Hp d); [nia|].
  apply Z.mod_divide; [lia|done].
Qed.

Lemma struck_below_two i y : y < 2 -> struck i y = false.
Proof.
  intros Hy. apply not_true_is_false. rewrite struck_spec.
  intros (d & Hd & Hsq & _). nia.
Qed.

(** X2.  For every n with 1 <= n <= 2^31 the main iteration ends, and
    at its end the buffer holds the primes: for 2 <= k <= n, cell k is
    true exactly when k is prime.  Cells 0 and 1 are still true, and
    [nprimes] is the number of true cells among 2, ..., n. *)
Theorem X2_final_buffer_holds_primes W sched heap n :
  1 <= W <= Int.MAX -> 1 <= n <= 2 ^ 31 ->
  exists a0 s,
    init_isprime heap n = Done a0 /\
    while (sieve_turn W sched n) (Datatypes.S (Z.to_nat n))
      (sieve_start a0 n) = Done s /\
    length (ss_isprime s) = Z.to_nat (n + 1) /\
    (forall k, 2 <= k <= n -> flag (ss_isprime s) k = true <-> prime k) /\
    flag (ss_isprime s) 0 = true /\ flag (ss_isprime s) 1 = true /\
    ss_nprimes s = countZ (flag (ss_isprime s)) 2 (Z.to_nat (n - 1)).
Proof.
  intros HW Hn.
  destruct (sieve_loop_spec W sched n HW ltac:(lia)) as (i & Hi & Hsq & Hrun).
  exists (ones n), (at_round n i).
  split; [apply init_isprime_spec; unfold Long.MAX; lia|].
  split; [exact Hrun|]. cbn [at_round ss_isprime ss_nprimes].
  assert (forall k, 0 <= k <= n ->
            flag (strike (struck i) (ones n)) k = negb (composite k)) as Hflag.
  { intros k Hk. rewrite flag_strike, flag_ones by done.
    by rewrite (struck_final n i k) by lia. }
  split; [|split; [|split; [|split]]].
  - rewrite length_strike. apply length_replicate.
  - intros k Hk. rewrite Hflag by lia. split.
    + intros Hc. destruct (prime_dec k) as [Hp|Hnp]; [done|].
      apply composite_spec in Hnp; [|lia]. by rewrite Hnp in Hc.
    + intros Hp. destruct (composite k) eqn:Hc; [|done].
      apply composite_spec in Hc; [done|lia].
  - rewrite Hflag by lia. by rewrite composite_small by lia.
  - rewrite Hflag by lia. by rewrite composite_small by lia.
  - unfold ones at 1. rewrite zeros_struck_ones.
    replace (Z.to_nat (n + 1)) with (2 + Z.to_nat (n - 1))%nat by lia.
    rewrite countZ_app. cbn [countZ].
    rewrite !struck_below_two by lia.
    pose proof (countZ_compl (struck i) 2 (Z.to_nat (n - 1))) as Hc.
    rewrite (countZ_ext (flag (strike (struck i) (ones n)))
               (fun y => negb (struck i y))).
    + change (0 + 1 + 1) with 2. change (0 + Z.of_nat 2) with 2 in *.
      simpl (Z.of_nat 2). lia.
    + intros y Hy. rewrite flag_strike, flag_ones by lia. done.
Qed.

Lemma X2_final_buffer_holds_primes_witness :
  (1 <= 2 <= Int.MAX /\ 1 <= 50 <= 2 ^ 31) /\
  exists a0 s,
    init_isprime (fun _ => 3) 50 = Done a0 /\
    while (sieve_turn 2 (fun _ => [1; 1; 0]) 50)
      (Datatypes.S (Z.to_nat 50)) (sieve_start a0 50) = Done s /\
    length (ss_isprime s) = Z.to_nat (50 + 1) /\
    (forall k, 2 <= k <= 50 -> flag (ss_isprime s) k = true <-> prime k) /\
    flag (ss_isprime s) 0 = true /\ flag (ss_isprime s) 1 = true /\
    ss_nprimes s = countZ (flag (ss_isprime s)) 2 (Z.to_nat (50 - 1)).
Proof.
  split.
  - unfold Int.MAX. lia.
  - apply (X2_final_buffer_holds_primes 2 (fun _ => [1; 1; 0])
             (fun _ => 3) 50); unfold Int.MAX; lia.
Defined.

(** X3.  In a run for an accepted n, every state of the main iteration
    (the state after any number of turns) keeps the count in step with
    the buffer, [nprimes = n - 1 - (number of cells that hold 0)], and
    has cleared no cell of a prime, nor cell 0 or cell 1. *)
Theorem X3_main_iteration_invariant W sched heap n k :
  1 <= W <= Int.MAX -> 0 <= n <= 2 ^ 31 ->
  exists a0 s,
    init_isprime heap n = Done a0 /\
    turns (sieve_turn W sched n) k (sieve_start a0 n) = Done s /\
    ss_nprimes s = n - 1 - zeros (ss_isprime s) /\
    (forall y, 0 <= y <= n -> y < 2 \/ prime y ->
               flag (ss_isprime s) y = true).
Proof.
  intros HW Hn.
  destruct (sieve_turns_at_round W sched n k 2 HW Hn) as (i & Hi & Hrun);
    [lia|by left|].
  exists (ones n), (at_round n i).
  split; [apply init_isprime_spec; unfold Long.MAX; lia|].
  split; [by rewrite (sieve_start_at_round W sched n HW Hn)|].
  split; [done|]. cbn [at_round ss_isprime].
  intros y Hy Hkeep. rewrite flag_strike, flag_ones by done.
  destruct Hkeep as [Hlt|Hp].
  - by rewrite struck_below_two.
  - by rewrite struck_prime.
Qed.

Lemma X3_main_iteration_invariant_witness :
  (1 <= 2 <= Int.MAX /\ 0 <= 50 <= 2 ^ 31) /\
  exists a0 s,
    init_isprime (fun _ => 3) 50 = Done a0 /\
    turns (sieve_turn 2 (fun _ => [1; 1; 0]) 50) 4 (sieve_start a0 50)
      = Done s /\
    ss_nprimes s = 50 - 1 - zeros (ss_isprime s) /\
    (forall y, 0 <= y <= 50 -> y < 2 \/ prime y ->
               flag (ss_isprime s) y = true).
Proof.
  split.
  - unfold Int.MAX. lia.
  - apply (X3_main_iteration_invariant 2 (fun _ => [1; 1; 0])
             (fun _ => 3) 50 4); unfold Int.MAX; lia.
Defined.

(** X4.  A negative n is refused as too large: the test
    [n > (1ul << 31)] converts [n] to [unsigned long], where every
    negative [long] is above 2^31.  The run is the FATAL message and
    EXIT_FAILURE. *)
Theorem X4_negative_n_is_refused W sched heap n :
  Long.MIN <= n < 0 ->
  too_large n = true /\
  main W sched heap [n] = Done ([Stderr Fatal_too_large], EXIT_FAILURE).
Proof.
  intros Hn.
  assert (Long.MIN <= n <= Long.MAX) as Hlong by (unfold Long.MAX; lia).
  split.
  - rewrite too_large_spec by done.
    destruct (Z.leb_spec 0 n); [lia|done].
  - apply main_refuses; [done|lia].
Qed.

Lemma X4_negative_n_is_refused_witness :
  Long.MIN <= -1 < 0 /\
  too_large (-1) = true /\
  main 4 (fun _ => []) (fun _ => 0) [-1] =
  Done ([Stderr Fatal_too_large], EXIT_FAILURE).
Proof.
  split.
  - unfold Long.MIN. lia.
  - apply (X4_negative_n_is_refused 4 (fun _ => []) (fun _ => 0) (-1)).
    unfold Long.MIN. lia.
Defined.



(** X6.  What fresh memory holds has no effect on a run: the buffer is
    written before it is read, so two runs on the same arguments are
    the same run, whatever [malloc] returned, whatever the sizes of the
    teams and the interleavings. *)
Theorem X6_fresh_memory_is_never_read W1 W2 sched1 sched2 heap1 heap2 args :
  1 <= W1 <= Int.MAX -> 1 <= W2 <= Int.MAX ->
  Forall (fun n => Long.MIN <= n <= Long.MAX) args ->
  main W1 sched1 heap1 args = main W2 sched2 heap2 args /\
  (forall n, 0 <= n <= 2 ^ 31 ->
     init_isprime heap1 n = init_isprime heap2 n).
Proof.
  intros HW1 HW2 Hargs. split.
  - assert (forall n, Long.MIN <= n <= Long.MAX ->
              main W1 sched1 heap1 [n] = main W2 sched2 heap2 [n]) as Hone.
    { intros n Hn.
      destruct (Z.le_gt_cases 0 n) as [Hpos|Hneg];
        [destruct (Z.le_gt_cases n (2 ^ 31)) as [Hle|Hgt]|].
      - by rewrite !main_accepts by (done || lia).
      - by rewrite !main_refuses by (done || lia).
      - by rewrite !main_refuses by (done || lia). }
    destruct args as [|n [|n' args]].
    + rewrite !main_default. apply Hone. unfold Long.MIN, Long.MAX. lia.
    + apply Hone. by inversion Hargs.
    + reflexivity.
  - intros n Hn. by rewrite !init_isprime_spec by (unfold Long.MAX; lia).
Qed.

Lemma X6_fresh_memory_is_never_read_witness :
  (1 <= 4 <= Int.MAX /\ 1 <= 4 <= Int.MAX /\
   Forall (fun n => Long.MIN <= n <= Long.MAX) [100]) /\
  main 4 (fun _ => []) (fun _ => 0) [100] =
  main 4 (fun _ => []) (fun i => Z.of_nat i) [100] /\
  (forall n, 0 <= n <= 2 ^ 31 ->
     init_isprime (fun _ => 0) n = init_isprime (fun i => Z.of_nat i) n).
Proof.
  assert (Forall (fun n => Long.MIN <= n <= Long.MAX) [100]) as Hargs.
  { repeat constructor; unfold Long.MIN, Long.MAX; lia. }
  split.
  - split; [unfold Int.MAX; lia|]. split; [unfold Int.MAX; lia|exact Hargs].
  - apply (X6_fresh_memory_is_never_read 4 4 (fun _ => []) (fun _ => [])
             (fun _ => 0) (fun i => Z.of_nat i) [100]);
      [unfold Int.MAX; lia|unfold Int.MAX; lia|exact Hargs].
Defined.

(** ** The blocks of the threads *)

(** X7.  The blocks are balanced: under the conditions in which the
    [long] arithmetic is exact, the size of every block is the quotient
    (to - from) / W or one more. *)
Theorem X7_blocks_are_balanced W from to id :
  Long.MIN <= from <= to -> to <= Long.MAX ->
  1 <= W <= Int.MAX -> (to - from) * W <= Long.MAX -> 0 <= id < W ->
  exists a b,
    block_from W from to id = Done a /\
    block_to W from to id = Done b /\
    (to - from) / W <= b - a <= (to - from) / W + 1.
Proof.
  intros Hft Hto HW Hprod Hid.
  exists (sub_bound W from to id), (sub_bound W from to (id + 1)).
  split; [by apply block_from_exact|]. split; [by apply block_to_exact|].
  unfold sub_bound.
  pose proof (Z.div_mod ((to - from) * id) W ltac:(lia)) as H1.
  pose proof (Z.mod_pos_bound ((to - from) * id) W ltac:(lia)) as H1'.
  pose proof (Z.div_mod ((to - from) * (id + 1)) W ltac:(lia)) as H2.
  pose proof (Z.mod_pos_bound ((to - from) * (id + 1)) W ltac:(lia)) as H2'.
  pose proof (Z.div_mod (to - from) W ltac:(lia)) as H3.
  pose proof (Z.mod_pos_bound (to - from) W ltac:(lia)) as H3'.
  nia.
Qed.

Lemma X7_blocks_are_balanced_witness :
  (Long.MIN <= 9 <= 30 /\ 30 <= Long.MAX /\ 1 <= 4 <= Int.MAX /\
   (30 - 9) * 4 <= Long.MAX /\ 0 <= 2 < 4) /\
  exists a b,
    block_from 4 9 30 2 = Done a /\
    block_to 4 9 30 2 = Done b /\
    (30 - 9) / 4 <= b - a <= (30 - 9) / 4 + 1.
Proof.
  split.
  - unfold Long.MIN, Long.MAX, Int.MAX. lia.
  - apply (X7_blocks_are_balanced 4 9 30 2);
      unfold Long.MIN, Long.MAX, Int.MAX; lia.
Defined.

(** X8.  [((my_from + p - 1)/p)*p] is the lowest multiple of [p] that
    is at least [my_from], for 0 <= my_from, p >= 1 and
    my_from + p <= LONG_MAX: it is a multiple of p, it lies in
    [my_from, my_from + p), no multiple of p lies between my_from and
    it, and a [my_from] that is a multiple of p is left as it is. *)
Theorem X8_align_up_is_least_multiple my_from p :
  0 <= my_from -> 1 <= p -> my_from + p <= Long.MAX ->
  exists m,
    align_up my_from p = Done m /\
    m mod p = 0 /\ my_from <= m < my_from + p /\
    (forall m', m' mod p = 0 -> my_from <= m' -> m <= m') /\
    (my_from mod p = 0 -> m = my_from).
Proof.
  intros Hf Hp Hfit. exists (aligned p my_from).
  destruct (aligned_spec my_from p Hp) as [Hr Hm].
  split; [by apply align_up_exact|]. split; [done|]. split; [done|]. split.
  - intros m' Hm' Hle.
    destruct (Z.le_gt_cases (aligned p my_from) m') as [|Hgt]; [done|].
    assert (aligned p my_from = m'); [|lia].
    apply (multiple_window p); [lia|done|done|lia].
  - intros Hmod. apply (multiple_window p); [lia|done|done|lia].
Qed.

Lemma X8_align_up_is_least_multiple_witness :
  (0 <= 17 /\ 1 <= 5 /\ 17 + 5 <= Long.MAX) /\
  exists m,
    align_up 17 5 = Done m /\
    m mod 5 = 0 /\ 17 <= m < 17 + 5 /\
    (forall m', m' mod 5 = 0 -> 17 <= m' -> m <= m') /\
    (17 mod 5 = 0 -> m = 17).
Proof.
  split.
  - unfold Long.MAX. lia.
  - apply (X8_align_up_is_least_multiple 17 5); unfold Long.MAX; lia.
Defined.

(** ** The threads of the region *)

(** X9.  No two threads ever touch the same cell: in every state the
    team reaches, a thread that stands at a read or a write of
    [isprime[x]] stands at a cell of its own block, inside the buffer;
    so two threads that stand at the same cell are the same thread. *)
Theorem X9_threads_touch_disjoint_cells W a from to p steps :
  0 <= from <= to -> to <= Z.of_nat (length a) -> 1 <= p ->
  to + p <= Long.MAX -> 1 <= W <= Int.MAX -> (to - from) * W <= Long.MAX ->
  exists tm0 tm,
    team_start W a from to p = Done tm0 /\
    for_each (team_step p) steps tm0 = Done tm /\
    (forall (j : nat) t x,
       tm_threads tm !! j = Some t -> accesses t x ->
       in_block W from to (Z.of_nat j) x = true /\
       0 <= x < Z.of_nat (length a)) /\
    (forall (i j : nat) ti tj x,
       tm_threads tm !! i = Some ti -> tm_threads tm !! j = Some tj ->
       accesses ti x -> accesses tj x -> i = j).
Proof.
  intros Hft Hlen Hp Hfit HW Hprod.
  destruct (reached_spec a from to p W) with (steps := steps)
    as (tm0 & tm & Hstart & Hrun & Hinv); try (done || lia).
  exists tm0, tm. split; [done|]. split; [done|].
  destruct Hinv as (Hthreads & Hwf & _).
  assert (forall (j : nat) t x,
            tm_threads tm !! j = Some t -> accesses t x ->
            in_block W from to (Z.of_nat j) x = true /\
            0 <= x < Z.of_nat (length a)) as Hown.
  { intros j t x Hj Hx.
    apply lookup_lt_Some in Hj as Hlt.
    pose proof (Hwf j t Hj) as (Hfrom & _ & Hto & Hat).
    destruct (block_bounds a from to p W) with (id := Z.of_nat j)
      as (H1 & H2 & H3); try (done || lia).
    unfold in_block.
    destruct Hx as [[Hpc Hx]|Hpc]; rewrite Hpc in Hat;
      (split; [bool_goal; lia|lia]). }
  split; [exact Hown|].
  intros i j ti tj x Hi Hj Hxi Hxj.
  destruct (Hown i ti x Hi Hxi) as [Hini _].
  destruct (Hown j tj x Hj Hxj) as [Hinj _].
  apply Nat2Z.inj.
  apply (in_block_unique W from to (Z.of_nat i) (Z.of_nat j) x);
    (done || lia).
Qed.

Lemma X9_threads_touch_disjoint_cells_witness :
  (0 <= 4 <= 21 /\ 21 <= Z.of_nat (length (replicate 21 1)) /\ 1 <= 2 /\
   21 + 2 <= Long.MAX /\ 1 <= 3 <= Int.MAX /\ (21 - 4) * 3 <= Long.MAX) /\
  exists tm0 tm,
    team_start 3 (replicate 21 1) 4 21 2 = Done tm0 /\
    for_each (team_step 2) [0; 1; 2; 2; 0] tm0 = Done tm /\
    (forall (j : nat) t x,
       tm_threads tm !! j = Some t -> accesses t x ->
       in_block 3 4 21 (Z.of_nat j) x = true /\
       0 <= x < Z.of_nat (length (replicate 21 1))) /\
    (forall (i j : nat) ti tj x,
       tm_threads tm !! i = Some ti -> tm_threads tm !! j = Some tj ->
       accesses ti x -> accesses tj x -> i = j).
Proof.
  split.
  - simpl. unfold Long.MAX, Int.MAX. lia.
  - apply (X9_threads_touch_disjoint_cells 3 (replicate 21 1) 4 21 2
             [0; 1; 2; 2; 0]);
      simpl; unfold Long.MAX, Int.MAX; lia.
Defined.

(** The cells the team has written are multiples of [p] in the range. *)
Lemma team_cells_inside W a from to p tm y :
  0 <= from <= to -> to <= Z.of_nat (length a) -> 1 <= p ->
  to + p <= Long.MAX -> 1 <= W <= Int.MAX -> (to - from) * W <= Long.MAX ->
  team_inv W from to p a tm ->
  done_cells p (tm_threads tm) y || written_cells (tm_threads tm) y = true ->
  multiple_in from to p y = true.
Proof.
  intros Hft Hlen Hp Hfit HW Hprod (Hthreads & Hwf & _) Hy.
  assert (exists (j : nat) t,
            tm_threads tm !! j = Some t /\
            done_of p t y || written_of t y = true) as (j & t & Hj & Ht).
  { apply orb_true_iff in Hy as [Hy|Hy];
      apply existsb_lookup in Hy as (j & t & Hj & Ht);
      exists j, t; (split; [done|]); rewrite Ht; by rewrite ?orb_true_r. }
  apply lookup_lt_Some in Hj as Hlt.
  pose proof (Hwf j t Hj) as Hwft.
  assert (in_block W from to (Z.of_nat j) y = true) as Hin.
  { apply (touched_in_block a from to p W) with (t := t);
      (done || lia). }
  destruct (block_bounds a from to p W) with (id := Z.of_nat j)
    as (H1 & H2 & H3); try (done || lia).
  destruct Hwft as (Hfrom & Hmod & Hto & Hat).
  unfold in_block in Hin. bool_prop. unfold multiple_in.
  bool_goal; try lia.
  apply (mod_sub_multiple p (th_from t) y); [lia|done|].
  destruct Ht as [Ht|Ht].
  - unfold done_of, visited in Ht. by bool_prop.
  - unfold written_of in Ht. destruct (th_pc t); try done.
    bool_prop. subst. by destruct Hat as (_ & Hm & _).
Qed.

(** X10.  In every state the team reaches, flags have only been
    cleared, and the counter is behind the buffer and never ahead of
    it: 0 <= nmarked <= (number of cells cleared so far) <= (the value
    the call returns). *)
Theorem X10_counter_follows_the_buffer W a from to p steps :
  0 <= from <= to -> to <= Z.of_nat (length a) -> 1 <= p ->
  to + p <= Long.MAX -> 1 <= W <= Int.MAX -> (to - from) * W <= Long.MAX ->
  exists tm0 tm a' k,
    team_start W a from to p = Done tm0 /\
    for_each (team_step p) steps tm0 = Done tm /\
    mark W steps a from to p = Done (a', k) /\
    only_cleared a (tm_isprime tm) /\
    only_cleared (tm_isprime tm) a' /\
    0 <= tm_nmarked tm /\
    tm_nmarked tm <= zeros (tm_isprime tm) - zeros a /\
    zeros (tm_isprime tm) - zeros a <= k.
Proof.
  intros Hft Hlen Hp Hfit HW Hprod.
  destruct (reached_spec a from to p W) with (steps := steps)
    as (tm0 & tm & Hstart & Hrun & Hinv); try (done || lia).
  exists tm0, tm, (strike (multiple_in from to p) a),
         (zeros (strike (multiple_in from to p) a) - zeros a).
  split; [done|]. split; [done|].
  split; [apply mark_spec; (done || lia)|].
  pose proof (team_cells_inside W a from to p tm) as Hinside.
  pose proof Hinv as (_ & _ & Ha & Hnm).
  rewrite Ha, Hnm. rewrite !zeros_strike.
  split; [|split; [|split; [|split]]].
  - split; [apply length_strike|]. intros x. rewrite flag_strike.
    intros H. by bool_prop.
  - split; [by rewrite !length_strike|]. intros x. rewrite !flag_strike.
    intros H. bool_prop. bool_goal; [done|].
    destruct (_ || _) eqn:E; [|done].
    rewrite (Hinside x) in * by (done || lia). done.
  - pose proof (countZ_bounds
      (fun i => flag a i && done_cells p (tm_threads tm) i) 0 (length a)).
    lia.
  - assert (countZ (fun i => flag a i && done_cells p (tm_threads tm) i)
              0 (length a)
            <= countZ (fun i => flag a i &&
                         (done_cells p (tm_threads tm) i ||
                          written_cells (tm_threads tm) i)) 0 (length a)).
    { apply countZ_mono. intros i _ H. bool_prop. bool_goal; [done|].
      by apply orb_true_iff; left. }
    lia.
  - assert (countZ (fun i => flag a i &&
                      (done_cells p (tm_threads tm) i ||
                       written_cells (tm_threads tm) i)) 0 (length a)
            <= countZ (fun i => flag a i && multiple_in from to p i)
                 0 (length a)).
    { apply countZ_mono. intros i _ H. apply andb_true_iff in H as [H1 H2].
      bool_goal; [done|]. apply Hinside; (done || lia). }
    lia.
Qed.

Lemma X10_counter_follows_the_buffer_witness :
  (0 <= 4 <= 21 /\ 21 <= Z.of_nat (length (replicate 21 1)) /\ 1 <= 2 /\
   21 + 2 <= Long.MAX /\ 1 <= 3 <= Int.MAX /\ (21 - 4) * 3 <= Long.MAX) /\
  exists tm0 tm a' k,
    team_start 3 (replicate 21 1) 4 21 2 = Done tm0 /\
    for_each (team_step 2) [0; 0; 1; 2] tm0 = Done tm /\
    mark 3 [0; 0; 1; 2] (replicate 21 1) 4 21 2 = Done (a', k) /\
    only_cleared (replicate 21 1) (tm_isprime tm) /\
    only_cleared (tm_isprime tm) a' /\
    0 <= tm_nmarked tm /\
    tm_nmarked tm <= zeros (tm_isprime tm) - zeros (replicate 21 1) /\
    zeros (tm_isprime tm) - zeros (replicate 21 1) <= k.
Proof.
  split.
  - simpl. unfold Long.MAX, Int.MAX. lia.
  - apply (X10_counter_follows_the_buffer 3 (replicate 21 1) 4 21 2
             [0; 0; 1; 2]);
      simpl; unfold Long.MAX, Int.MAX; lia.
Defined.

(** ** Calls of [mark] that have nothing to do *)

Lemma collect_Forall {A B : Type} (f : A -> outcome B) (Q : B -> Prop) l :
  (forall x, x ∈ l -> exists y, f x = Done y /\ Q y) ->
  exists ys, collect f l = Done ys /\ Forall Q ys.
Proof.
  induction l as [|x l IH]; intros H.
  - by exists [].
  - destruct (H x) as (y & Hy & HQ); [apply list_elem_of_here|].
    destruct IH as (ys & Hys & HQs).
    { intros z Hz. apply H. by apply list_elem_of_further. }
    exists (y :: ys). cbn [collect].
    rewrite Hy, bind_done, Hys, bind_done. split; [done|]. by constructor.
Qed.

(** With [to <= from] every thread finds its loop at its end. *)
Lemma thread_start_idle W from to p id :
  0 <= to <= from -> 1 <= p -> from + p <= Long.MAX ->
  1 <= W <= Int.MAX -> (from - to) * W <= Long.MAX -> 0 <= id < W ->
  exists t, thread_start W from to p id = Done t /\ idle t.
Proof.
  intros Htf Hp Hfit HW Hprod Hid.
  set (m := from - to).
  assert (0 <= m * id <= m * (id + 1)) as Hmul by nia.
  assert (m * (id + 1) <= m * W) as Hmul' by nia.
  assert (0 <= m * id / W) as HA by (apply Z.div_pos; lia).
  assert (m * id / W <= m * (id + 1) / W) as HAB
    by (apply Z.div_le_mono; lia).
  assert (m * (id + 1) / W <= m) as HB.
  { rewrite <- (Z.div_mul m W) at 2 by lia. apply Z.div_le_mono; lia. }
  assert (forall k, 0 <= k <= id + 1 ->
            long_div (Long.mul (Long.sub to from) k) W
            = Done (- (m * k / W))) as Hdiv.
  { intros k Hk. unfold long_div.
    destruct (Z.eqb_spec W 0) as [->|_]; [lia|].
    rewrite long_sub_exact by (unfold Long.MIN, Long.MAX in *; lia).
    assert (0 <= m * k <= m * W) by nia.
    rewrite long_mul_exact by (unfold Long.MIN, Long.MAX in *; lia).
    replace ((to - from) * k) with (- (m * k)) by lia.
    rewrite Z.quot_opp_l by lia.
    rewrite Z.quot_div_nonneg by lia.
    assert (0 <= m * k / W) by (apply Z.div_pos; lia).
    assert (m * k / W <= m * W / W) by (apply Z.div_le_mono; lia).
    rewrite Z.div_mul in * by lia.
    rewrite long_wrap_id by (unfold Long.MIN, Long.MAX in *; lia). done. }
  unfold thread_start, block_from, block_to. cbv zeta.
  rewrite (Hdiv id) by lia. rewrite bind_done.
  unfold Int.add. rewrite int_wrap_id by (unfold Int.MAX in *; lia).
  rewrite (Hdiv (id + 1)) by lia. rewrite !bind_done.
  rewrite !long_add_exact by (unfold Long.MIN, Long.MAX in *; lia).
  rewrite align_up_exact by lia. rewrite bind_done.
  eexists. split; [reflexivity|]. unfold idle. cbn [th_pc th_to].
  destruct (aligned_spec (from + - (m * id / W)) p Hp) as [Hr _]. lia.
Qed.

Lemma thread_step_idle p t sh :
  idle t ->
  thread_step p t sh = Done (Thread (th_from t) (th_to t) Finished, sh) \/
  (th_pc t = Finished /\ thread_step p t sh = Done (t, sh)).
Proof.
  unfold idle, thread_step. destruct (th_pc t) as [x|x|x|]; try done.
  - intros Hx. left. destruct (Z.ltb_spec x (th_to t)); [lia|done].
  - intros _. by right.
Qed.

Lemma team_step_idle p id tm :
  Forall idle (tm_threads tm) ->
  exists tm',
    team_step p id tm = Done tm' /\
    Forall idle (tm_threads tm') /\
    tm_isprime tm' = tm_isprime tm /\ tm_nmarked tm' = tm_nmarked tm.
Proof.
  intros Hidle. unfold team_step.
  destruct (id <? 0); [by exists tm|].
  destruct (tm_threads tm !! Z.to_nat id) as [t|] eqn:Ht; [|by exists tm].
  assert (idle t) as Hi.
  { apply (Forall_lookup_1 _ _ _ _ Hidle Ht). }
  destruct (thread_step_idle p t (tm_isprime tm, tm_nmarked tm) Hi)
    as [->|[_ ->]]; rewrite bind_done; eexists; (split; [reflexivity|]);
    cbn [tm_threads tm_isprime tm_nmarked fst snd];
    (split; [|done]); apply Forall_insert; done.
Qed.

Lemma steps_idle p steps tm :
  Forall idle (tm_threads tm) ->
  exists tm',
    for_each (team_step p) steps tm = Done tm' /\
    Forall idle (tm_threads tm') /\
    tm_isprime tm' = tm_isprime tm /\ tm_nmarked tm' = tm_nmarked tm.
Proof.
  revert tm. induction steps as [|id steps IH]; intros tm Hidle.
  - by exists tm.
  - cbn [for_each].
    destruct (team_step_idle p id tm Hidle) as (tm1 & -> & H1 & Ha & Hk).
    rewrite bind_done.
    destruct (IH tm1 H1) as (tm2 & Hrun & H2 & Ha' & Hk').
    exists tm2. split; [done|]. split; [done|]. split; congruence.
Qed.

Lemma finish_idle p id tm :
  Forall idle (tm_threads tm) ->
  exists tm',
    finish p id tm = Done tm' /\
    Forall idle (tm_threads tm') /\
    tm_isprime tm' = tm_isprime tm /\ tm_nmarked tm' = tm_nmarked tm.
Proof.
  intros Hidle. unfold finish.
  destruct (Z.ltb_spec id 0); [by exists tm|].
  destruct (tm_threads tm !! Z.to_nat id) as [t|] eqn:Ht; [|by exists tm].
  set (Inv s := Forall idle (tm_threads s) /\
                tm_isprime s = tm_isprime tm /\
                tm_nmarked s = tm_nmarked tm).
  destruct (while_total (finish_turn p id) Inv Inv
              (fun s => match tm_threads s !! Z.to_nat id with
                        | Some t => match th_pc t with
                                    | Finished => 0%nat
                                    | _ => 1%nat
                                    end
                        | None => 0%nat
                        end))
    with (fuel := Datatypes.S
                    (Datatypes.S (3 * Z.to_nat (th_to t - pos_of t))))
         (s := tm)
    as (tm' & Hrun & Hinv).
  - intros s (Hs & Ha & Hk). unfold finish_turn.
    destruct (tm_threads s !! Z.to_nat id) as [ts|] eqn:Hts.
    2:{ right. by exists s. }
    assert (idle ts) as Hi by apply (Forall_lookup_1 _ _ _ _ Hs Hts).
    destruct (th_pc ts) as [x|x|x|] eqn:Hpc.
    4:{ right. by exists s. }
    2,3: by (unfold idle in Hi; rewrite Hpc in Hi).
    left. unfold team_step.
    destruct (Z.ltb_spec id 0); [lia|]. rewrite Hts.
    destruct (thread_step_idle p ts (tm_isprime s, tm_nmarked s) Hi)
      as [->|[Hf _]]; [|congruence].
    rewrite !bind_done. eexists. split; [reflexivity|].
    cbn [tm_threads tm_isprime tm_nmarked fst snd]. split.
    + split; [|done]. by apply Forall_insert.
    + rewrite list_lookup_insert_eq by (by apply lookup_lt_Some in Hts).
      cbn [th_pc]. lia.
  - by split.
  - rewrite Ht. destruct (th_pc t); lia.
  - exists tm'. split; [exact Hrun|]. exact Hinv.
Qed.

Lemma join_idle p ids tm :
  Forall idle (tm_threads tm) ->
  exists tm',
    for_each (finish p) ids tm = Done tm' /\
    Forall idle (tm_threads tm') /\
    tm_isprime tm' = tm_isprime tm /\ tm_nmarked tm' = tm_nmarked tm.
Proof.
  revert tm. induction ids as [|id ids IH]; intros tm Hidle.
  - by exists tm.
  - cbn [for_each].
    destruct (finish_idle p id tm Hidle) as (tm1 & -> & H1 & Ha & Hk).
    rewrite bind_done.
    destruct (IH tm1 H1) as (tm2 & Hrun & H2 & Ha' & Hk').
    exists tm2. split; [done|]. split; [done|]. split; congruence.
Qed.

(** X11.  A call on an empty or inverted range, [to <= from], returns
    0 and leaves the buffer as it is without reading or writing a cell
    of it, whatever the buffer (its length is not asked to reach
    [from]): in every state the team reaches no thread stands at an
    access. *)
Theorem X11_empty_range_touches_nothing W steps a from to p :
  0 <= to <= from -> 1 <= p -> from + p <= Long.MAX ->
  1 <= W <= Int.MAX -> (from - to) * W <= Long.MAX ->
  mark W steps a from to p = Done (a, 0) /\
  exists tm0 tm,
    team_start W a from to p = Done tm0 /\
    for_each (team_step p) steps tm0 = Done tm /\
    forall t x, t ∈ tm_threads tm -> ~ accesses t x.
Proof.
  intros Htf Hp Hfit HW Hprod.
  destruct (collect_Forall (thread_start W from to p) idle (seqZ 0 W))
    as (threads & Hstart & Hidle).
  { intros id Hid. apply elem_of_seqZ in Hid.
    apply thread_start_idle; (done || lia). }
  assert (team_start W a from to p = Done (Team threads a 0)) as Hteam.
  { unfold team_start. by rewrite Hstart, bind_done. }
  destruct (steps_idle p steps (Team threads a 0) Hidle)
    as (tm1 & Hrun & Hidle1 & Ha1 & Hk1).
  destruct (join_idle p (seqZ 0 W) tm1 Hidle1)
    as (tm2 & Hjoin & _ & Ha2 & Hk2).
  split.
  - unfold mark. rewrite Hteam, bind_done, Hrun, bind_done, Hjoin, bind_done.
    f_equal. f_equal; [by rewrite Ha2, Ha1|by rewrite Hk2, Hk1].
  - exists (Team threads a 0), tm1. split; [done|]. split; [done|].
    intros t x Ht Hx.
    assert (idle t) as Hi.
    { apply list_elem_of_lookup in Ht as [j Hj].
      apply (Forall_lookup_1 _ _ _ _ Hidle1 Hj). }
    unfold idle in Hi. destruct Hx as [[Hpc Hx]|Hpc]; rewrite Hpc in Hi; lia.
Qed.

Lemma X11_empty_range_touches_nothing_witness :
  (0 <= 5 <= 9 /\ 1 <= 3 /\ 9 + 3 <= Long.MAX /\ 1 <= 4 <= Int.MAX /\
   (9 - 5) * 4 <= Long.MAX) /\
  mark 4 [1; 0; 3] [1; 1] 9 5 3 = Done ([1; 1], 0) /\
  exists tm0 tm,
    team_start 4 [1; 1] 9 5 3 = Done tm0 /\
    for_each (team_step 3) [1; 0; 3] tm0 = Done tm /\
    forall t x, t ∈ tm_threads tm -> ~ accesses t x.
Proof.
  split.
  - unfold Long.MAX, Int.MAX. lia.
  - apply (X11_empty_range_touches_nothing 4 [1; 0; 3] [1; 1] 9 5 3);
      unfold Long.MAX, Int.MAX; lia.
Defined.

(** A buffer whose cells to strike hold 0 already is left as it is. *)
Lemma strike_cleared P a :
  (forall x, P x = true -> flag a x = false) -> strike P a = a.
Proof.
  intros H. apply list_eq. intros i. rewrite strike_lookup.
  destruct (a !! i) as [c|] eqn:E; [|done]. simpl.
  destruct (P (Z.of_nat i)) eqn:HP; [|done].
  specialize (H _ HP). rewrite (flag_lookup a (Z.of_nat i) c) in H;
    [|lia|by rewrite Nat2Z.id].
  destruct (Z.eqb_spec c 0); [by subst|done].
Qed.

(** X12.  When no multiple of p in [from, to) is true in the buffer,
    [mark] returns 0 and the buffer is as it was.  So [mark] is
    idempotent: a second call on the same range leaves the buffer of
    the first as it is. *)
Theorem X12_nothing_left_to_mark W il1 il2 a from to p :
  0 <= from <= to -> to <= Z.of_nat (length a) -> 1 <= p ->
  to + p <= Long.MAX -> 1 <= W <= Int.MAX -> (to - from) * W <= Long.MAX ->
  ((forall x, multiple_in from to p x = true -> flag a x = false) ->
   mark W il1 a from to p = Done (a, 0)) /\
  exists a1 k1,
    mark W il1 a from to p = Done (a1, k1) /\
    mark W il2 a1 from to p = Done (a1, 0).
Proof.
  intros Hft Hlen Hp Hfit HW Hprod.
  assert (forall il b, length b = length a ->
            (forall x, multiple_in from to p x = true -> flag b x = false) ->
            mark W il b from to p = Done (b, 0)) as Hnone.
  { intros il b Hb Hclear.
    rewrite (mark_spec b from to p W) by (done || lia).
    unfold shared_at. rewrite strike_cleared by done.
    do 2 f_equal. lia. }
  split; [by apply Hnone|].
  exists (strike (multiple_in from to p) a),
         (zeros (strike (multiple_in from to p) a) - zeros a).
  split; [by apply mark_spec; (done || lia)|].
  apply Hnone; [apply length_strike|].
  intros x Hx. by rewrite flag_strike, Hx, andb_false_r.
Qed.

Lemma X12_nothing_left_to_mark_witness :
  (0 <= 4 <= 21 /\ 21 <= Z.of_nat (length (replicate 21 1)) /\ 1 <= 2 /\
   21 + 2 <= Long.MAX /\ 1 <= 3 <= Int.MAX /\ (21 - 4) * 3 <= Long.MAX) /\
  ((forall x, multiple_in 4 21 2 x = true ->
              flag (replicate 21 1) x = false) ->
   mark 3 [0; 2] (replicate 21 1) 4 21 2 = Done (replicate 21 1, 0)) /\
  exists a1 k1,
    mark 3 [0; 2] (replicate 21 1) 4 21 2 = Done (a1, k1) /\
    mark 3 [1; 1; 0] a1 4 21 2 = Done (a1, 0).
Proof.
  split.
  - simpl. unfold Long.MAX, Int.MAX. lia.
  - apply (X12_nothing_left_to_mark 3 [0; 2] [1; 1; 0]
             (replicate 21 1) 4 21 2);
      simpl; unfold Long.MAX, Int.MAX; lia.
Defined.

(** ** Calls of [mark] in sequence *)

(** X13.  Marking a range in two parts is marking it at once: for
    from <= mid <= to the calls on [from, mid) and then on [mid, to)
    leave the buffer that the call on [from, to) leaves, and their
    values add up to its value. *)
Theorem X13_marking_in_two_parts W il1 il2 il3 a from mid to p :
  0 <= from <= mid -> mid <= to -> to <= Z.of_nat (length a) -> 1 <= p ->
  to + p <= Long.MAX -> 1 <= W <= Int.MAX -> (to - from) * W <= Long.MAX ->
  exists a1 k1 a2 k2,
    mark W il1 a from mid p = Done (a1, k1) /\
    mark W il2 a1 mid to p = Done (a2, k2) /\
    mark W il3 a from to p = Done (a2, k1 + k2).
Proof.
  intros Hfm Hmt Hlen Hp Hfit HW Hprod.
  exists (strike (multiple_in from mid p) a),
         (zeros (strike (multiple_in from mid p) a) - zeros a),
         (strike (multiple_in mid to p) (strike (multiple_in from mid p) a)),
         (zeros (strike (multiple_in mid to p)
                   (strike (multiple_in from mid p) a))
          - zeros (strike (multiple_in from mid p) a)).
  split; [|split].
  - apply mark_spec; try (done || lia). nia.
  - apply mark_spec; try (done || lia).
    + rewrite length_strike. lia.
    + nia.
  - rewrite (mark_spec a from to p W) by (done || lia).
    unfold shared_at. rewrite strike_strike.
    rewrite (strike_ext (fun x => multiple_in from mid p x ||
                                  multiple_in mid to p x)
               (multiple_in from to p)).
    + do 2 f_equal. lia.
    + intros x _. unfold multiple_in.
      destruct (Z.leb_spec from x), (Z.ltb_spec x mid), (Z.leb_spec mid x),
        (Z.ltb_spec x to); simpl; (done || lia || by rewrite ?orb_false_r).
Qed.

Lemma X13_marking_in_two_parts_witness :
  (0 <= 4 <= 10 /\ 10 <= 21 /\ 21 <= Z.of_nat (length (replicate 21 1)) /\
   1 <= 2 /\ 21 + 2 <= Long.MAX /\ 1 <= 3 <= Int.MAX /\
   (21 - 4) * 3 <= Long.MAX) /\
  exists a1 k1 a2 k2,
    mark 3 [0] (replicate 21 1) 4 10 2 = Done (a1, k1) /\
    mark 3 [1; 2] a1 10 21 2 = Done (a2, k2) /\
    mark 3 [2; 2; 0] (replicate 21 1) 4 21 2 = Done (a2, k1 + k2).
Proof.
  split.
  - simpl. unfold Long.MAX, Int.MAX. lia.
  - apply (X13_marking_in_two_parts 3 [0] [1; 2] [2; 2; 0]
             (replicate 21 1) 4 10 21 2);
      simpl; unfold Long.MAX, Int.MAX; lia.
Defined.

(** X14.  Two calls of [mark] commute: with strides p and q on the
    ranges [from1, to1) and [from2, to2), the two orders leave the same
    buffer and the same sum of the two values. *)
Theorem X14_marks_commute W il1 il2 il3 il4 a from1 to1 p from2 to2 q :
  0 <= from1 <= to1 -> to1 <= Z.of_nat (length a) -> 1 <= p ->
  to1 + p <= Long.MAX -> (to1 - from1) * W <= Long.MAX ->
  0 <= from2 <= to2 -> to2 <= Z.of_nat (length a) -> 1 <= q ->
  to2 + q <= Long.MAX -> (to2 - from2) * W <= Long.MAX ->
  1 <= W <= Int.MAX ->
  exists a1 k1 a2 k2 b1 l1 l2,
    mark W il1 a from1 to1 p = Done (a1, k1) /\
    mark W il2 a1 from2 to2 q = Done (a2, k2) /\
    mark W il3 a from2 to2 q = Done (b1, l1) /\
    mark W il4 b1 from1 to1 p = Done (a2, l2) /\
    k1 + k2 = l1 + l2.
Proof.
  intros Hft1 Hlen1 Hp Hfit1 Hprod1 Hft2 Hlen2 Hq Hfit2 Hprod2 HW.
  set (P := multiple_in from1 to1 p). set (Q := multiple_in from2 to2 q).
  exists (strike P a), (zeros (strike P a) - zeros a),
         (strike Q (strike P a)),
         (zeros (strike Q (strike P a)) - zeros (strike P a)),
         (strike Q a), (zeros (strike Q a) - zeros a),
         (zeros (strike P (strike Q a)) - zeros (strike Q a)).
  assert (strike P (strike Q a) = strike Q (strike P a)) as Hcomm.
  { rewrite !strike_strike. apply strike_ext. intros x _. apply orb_comm. }
  split; [|split; [|split; [|split]]].
  - apply mark_spec; (done || lia).
  - apply mark_spec; try (done || lia). rewrite length_strike. lia.
  - apply mark_spec; (done || lia).
  - rewrite <- Hcomm.
    apply mark_spec; try (done || lia). rewrite length_strike. lia.
  - rewrite Hcomm. lia.
Qed.

Lemma X14_marks_commute_witness :
  (0 <= 4 <= 21 /\ 21 <= Z.of_nat (length (replicate 21 1)) /\ 1 <= 2 /\
   21 + 2 <= Long.MAX /\ (21 - 4) * 3 <= Long.MAX /\
   0 <= 9 <= 21 /\ 21 <= Z.of_nat (length (replicate 21 1)) /\ 1 <= 3 /\
   21 + 3 <= Long.MAX /\ (21 - 9) * 3 <= Long.MAX /\
   1 <= 3 <= Int.MAX) /\
  exists a1 k1 a2 k2 b1 l1 l2,
    mark 3 [0] (replicate 21 1) 4 21 2 = Done (a1, k1) /\
    mark 3 [1] a1 9 21 3 = Done (a2, k2) /\
    mark 3 [2] (replicate 21 1) 9 21 3 = Done (b1, l1) /\
    mark 3 [0; 1] b1 4 21 2 = Done (a2, l2) /\
    k1 + k2 = l1 + l2.
Proof.
  split.
  - simpl. unfold Long.MAX, Int.MAX. lia.
  - apply (X14_marks_commute 3 [0] [1] [2] [0; 1] (replicate 21 1)
             4 21 2 9 21 3);
      simpl; unfold Long.MAX, Int.MAX; lia.
Defined.

(** ** The rounds of the main iteration *)

Lemma sieve_turns_bound W sched n k i :
  1 <= W <= Int.MAX -> 0 <= n <= 2 ^ 31 ->
  2 <= i -> i = 2 \/ (i - 1) * (i - 1) <= n ->
  exists i', 2 <= i' /\ (i' = 2 \/ (i' - 1) * (i' - 1) <= n) /\
    turns (sieve_turn W sched n) k (at_round n i) = Done (at_round n i').
Proof.
  intros HW Hn. revert i. induction k as [|k IH]; intros i Hi Hprev.
  - by exists i.
  - assert (i <= 2 ^ 16 + 1) as Hsmall by nia.
    cbn [turns]. destruct (Z.le_gt_cases (i * i) n) as [Hle|Hgt].
    + rewrite sieve_turn_again by done. apply IH; [lia|].
      right. by replace (i + 1 - 1) with i by lia.
    + rewrite sieve_turn_break by (done || nia). by exists i.
Qed.

(** X15.  Whenever the main iteration tests [isprime[i]], the cell is
    true exactly when i is prime: [mark] is called with the stride i
    for the primes i with i * i <= n and for no other i.  At an i that
    is not prime the round leaves the buffer and [nprimes] as they
    are. *)
Theorem X15_rounds_mark_for_primes_only W sched heap n k :
  1 <= W <= Int.MAX -> 0 <= n <= 2 ^ 31 ->
  exists a0 s,
    init_isprime heap n = Done a0 /\
    turns (sieve_turn W sched n) k (sieve_start a0 n) = Done s /\
    2 <= ss_i s /\
    (ss_i s * ss_i s <= n ->
     (flag (ss_isprime s) (ss_i s) = true <-> prime (ss_i s)) /\
     (~ prime (ss_i s) ->
      sieve_turn W sched n s =
      Done (Again (SieveState (ss_isprime s) (ss_nprimes s) (ss_i s + 1))))).
Proof.
  intros HW Hn.
  destruct (sieve_turns_at_round W sched n k 2 HW Hn) as (i & Hi & Hrun);
    [lia|by left|].
  exists (ones n), (at_round n i).
  split; [apply init_isprime_spec; unfold Long.MAX; lia|].
  split; [by rewrite (sieve_start_at_round W sched n HW Hn)|].
  split; [done|]. cbn [at_round ss_isprime ss_nprimes ss_i]. intros Hsq.
  assert (i <= n) by nia.
  assert (flag (strike (struck i) (ones n)) i = negb (composite i)) as Hflag.
  { rewrite flag_strike, flag_ones by lia. done. }
  split.
  - rewrite Hflag. split.
    + intros Hc. destruct (prime_dec i) as [Hp|Hnp]; [done|].
      apply composite_spec in Hnp; [|lia]. by rewrite Hnp in Hc.
    + intros Hp. destruct (composite i) eqn:Hc; [|done].
      apply composite_spec in Hc; [done|lia].
  - intros Hnp. apply composite_spec in Hnp; [|lia].
    fold (at_round n i). rewrite sieve_turn_again by done.
    unfold at_round.
    rewrite (strike_ext (struck (i + 1)) (struck i)); [done|].
    intros y _. by apply struck_skip.
Qed.

Lemma X15_rounds_mark_for_primes_only_witness :
  (1 <= 2 <= Int.MAX /\ 0 <= 50 <= 2 ^ 31) /\
  exists a0 s,
    init_isprime (fun _ => 3) 50 = Done a0 /\
    turns (sieve_turn 2 (fun _ => [1; 1; 0]) 50) 2 (sieve_start a0 50)
      = Done s /\
    2 <= ss_i s /\
    (ss_i s * ss_i s <= 50 ->
     (flag (ss_isprime s) (ss_i s) = true <-> prime (ss_i s)) /\
     (~ prime (ss_i s) ->
      sieve_turn 2 (fun _ => [1; 1; 0]) 50 s =
      Done (Again (SieveState (ss_isprime s) (ss_nprimes s) (ss_i s + 1))))).
Proof.
  split.
  - unfold Int.MAX. lia.
  - apply (X15_rounds_mark_for_primes_only 2 (fun _ => [1; 1; 0])
             (fun _ => 3) 50 2); unfold Int.MAX; lia.
Defined.

(** X16.  For 1 <= n <= 2^31 the main iteration stops at the first i
    whose square exceeds n, i = sqrt(n) + 1 (the integer square root):
    it makes sqrt(n) - 1 rounds, for i = 2, ..., sqrt(n); after k of
    them it stands at i = 2 + k, and after the last it stays where it
    is. *)
Theorem X16_rounds_stop_at_square_root W sched heap n :
  1 <= W <= Int.MAX -> 1 <= n <= 2 ^ 31 ->
  exists a0 s,
    init_isprime heap n = Done a0 /\
    while (sieve_turn W sched n) (Datatypes.S (Z.to_nat n))
      (sieve_start a0 n) = Done s /\
    ss_i s = Z.sqrt n + 1 /\
    (forall k : nat, Z.of_nat k <= Z.sqrt n - 1 ->
       exists s', turns (sieve_turn W sched n) k (sieve_start a0 n) = Done s' /\
                  ss_i s' = 2 + Z.of_nat k) /\
    (forall k : nat, Z.sqrt n - 1 <= Z.of_nat k ->
       turns (sieve_turn W sched n) k (sieve_start a0 n) = Done s).
Proof.
  intros HW Hn.
  assert (0 <= n <= 2 ^ 31) as Hn' by lia.
  destruct (sieve_loop_spec W sched n HW Hn') as (i & Hi & Hsq & Hrun).
  exists (ones n), (at_round n i).
  split; [apply init_isprime_spec; unfold Long.MAX; lia|].
  split; [exact Hrun|].
  apply while_turns in Hrun.
  rewrite (sieve_start_at_round W sched n HW Hn') in *.
  destruct (sieve_turns_bound W sched n (Datatypes.S (Z.to_nat n)) 2 HW Hn')
    as (i' & Hi' & Hprev & Hrun'); [lia|by left|].
  rewrite Hrun in Hrun'. injection Hrun' as _ _ <-.
  assert (Z.sqrt n = i - 1) as Hsqrt.
  { apply Z.sqrt_unique. unfold Z.succ.
    replace (i - 1 + 1) with i by lia. split; [|done].
    destruct Hprev as [->|Hprev]; lia. }
  split; [cbn [at_round ss_i]; lia|]. split.
  { assert (forall (k : nat) i0, 2 <= i0 -> i0 + Z.of_nat k <= i ->
              turns (sieve_turn W sched n) k (at_round n i0)
              = Done (at_round n (i0 + Z.of_nat k))) as Hup.
    { induction k as [|k IH]; intros i0 Hi0 Hsum.
      - by replace (i0 + Z.of_nat 0) with i0 by lia.
      - cbn [turns]. assert (i0 * i0 <= n) by nia.
        rewrite sieve_turn_again by done. rewrite IH by lia.
        do 2 f_equal. lia. }
    intros k Hk. exists (at_round n (2 + Z.of_nat k)).
    split; [apply Hup; lia|done]. }
  assert (forall (j : nat) i0, 2 <= i0 -> i0 + Z.of_nat j = i ->
            forall k, (j <= k)%nat ->
              turns (sieve_turn W sched n) k (at_round n i0)
              = Done (at_round n i)) as Hwalk.
  { induction j as [|j IH]; intros i0 Hi0 Hsum k Hk.
    - replace i0 with i by lia. destruct k as [|k]; [done|].
      cbn [turns]. rewrite sieve_turn_break by (done || nia). done.
    - destruct k as [|k]; [lia|]. cbn [turns].
      assert (i0 * i0 <= n) by nia.
      rewrite sieve_turn_again by done. apply IH; lia. }
  intros k Hk. apply (Hwalk (Z.to_nat (i - 2))); [lia|lia|].
  pose proof (Z.sqrt_nonneg n). lia.
Qed.

Lemma X16_rounds_stop_at_square_root_witness :
  (1 <= 2 <= Int.MAX /\ 1 <= 50 <= 2 ^ 31) /\
  exists a0 s,
    init_isprime (fun _ => 3) 50 = Done a0 /\
    while (sieve_turn 2 (fun _ => [1; 1; 0]) 50)
      (Datatypes.S (Z.to_nat 50)) (sieve_start a0 50) = Done s /\
    ss_i s = Z.sqrt 50 + 1 /\
    (forall k : nat, Z.of_nat k <= Z.sqrt 50 - 1 ->
       exists s',
         turns (sieve_turn 2 (fun _ => [1; 1; 0]) 50) k (sieve_start a0 50)
         = Done s' /\
         ss_i s' = 2 + Z.of_nat k) /\
    (forall k : nat, Z.sqrt 50 - 1 <= Z.of_nat k ->
       turns (sieve_turn 2 (fun _ => [1; 1; 0]) 50) k (sieve_start a0 50)
       = Done s).
Proof.
  split.
  - unfold Int.MAX. lia.
  - apply (X16_rounds_stop_at_square_root 2 (fun _ => [1; 1; 0])
             (fun _ => 3) 50); unfold Int.MAX; lia.
Defined.

(** ** Progress of the threads *)

Section Progress.
Variables (a0 : list Z) (from to p W : Z).
Hypothesis from_range : 0 <= from <= to.
Hypothesis to_inside : to <= Z.of_nat (length a0).
Hypothesis p_pos : 1 <= p.
Hypothesis stride_fits : to + p <= Long.MAX.
Hypothesis W_range : 1 <= W <= Int.MAX.
Hypothesis product_fits : (to - from) * W <= Long.MAX.

(** A thread with no step left to count is past its loop. *)
Lemma measure_zero_finished id t :
  wf_thread W from to p a0 id t -> thread_measure t = O ->
  th_pc t = Finished.
Proof using All.
  intros (_ & _ & _ & Hat). unfold thread_measure.
  destruct (th_pc t) as [x|x|x|]; [lia|lia|lia|done].
Qed.

(** Each step a thread takes brings it nearer to the end of its loop,
    whatever the other threads do in between. *)
Lemma steps_progress steps tm (j : nat) t :
  team_inv W from to p a0 tm -> tm_threads tm !! j = Some t ->
  exists tm' t',
    for_each (team_step p) steps tm = Done tm' /\
    team_inv W from to p a0 tm' /\
    tm_threads tm' !! j = Some t' /\
    (thread_measure t' + count_occ Z.eq_dec steps (Z.of_nat j)
     <= thread_measure t \/ th_pc t' = Finished)%nat.
Proof using All.
  revert tm t. induction steps as [|id steps IH]; intros tm t Hinv Hj.
  - exists tm, t. split; [done|]. split; [done|]. split; [done|].
    left. simpl. lia.
  - cbn [for_each].
    destruct (team_step_spec a0 from to p W) with (tm := tm) (id := id)
      as (tm1 & Hstep & Hinv1 & Hothers & Hown); try (done || lia).
    rewrite Hstep, bind_done.
    destruct (decide (Z.of_nat j = id)) as [Heq|Hne].
    + destruct (Hown j t Heq Hj) as (t1 & Hj1 & Hprog).
      destruct (IH tm1 t1 Hinv1 Hj1) as (tm' & t' & Hrun & Hinv' & Hj' & H').
      exists tm', t'. split; [done|]. split; [done|]. split; [done|].
      rewrite count_occ_cons_eq by done.
      destruct H' as [H'|H']; [|by right].
      destruct Hprog as [[Hfin ->]|Hlt]; [|left; lia].
      right. pose proof Hinv' as (_ & Hwf & _).
      apply (measure_zero_finished (Z.of_nat j) t' (Hwf j t' Hj')).
      unfold thread_measure in H' at 2. rewrite Hfin in H'. lia.
    + assert (tm_threads tm1 !! j = Some t) as Hj1
        by (by rewrite Hothers).
      destruct (IH tm1 t Hinv1 Hj1) as (tm' & t' & Hrun & Hinv' & Hj' & H').
      exists tm', t'. split; [done|]. split; [done|]. split; [done|].
      rewrite count_occ_cons_neq by done. exact H'.
Qed.
End Progress.

(** X17.  No thread waits for another: a thread that has taken
    3 * (to - from) + 1 steps is past its loop, however its steps are
    interleaved with those of the other threads. *)
Theorem X17_threads_finish_on_their_own W a from to p steps (j : nat) :
  0 <= from <= to -> to <= Z.of_nat (length a) -> 1 <= p ->
  to + p <= Long.MAX -> 1 <= W <= Int.MAX -> (to - from) * W <= Long.MAX ->
  Z.of_nat j < W ->
  (3 * Z.to_nat (to - from) + 1
   <= count_occ Z.eq_dec steps (Z.of_nat j))%nat ->
  exists tm0 tm,
    team_start W a from to p = Done tm0 /\
    for_each (team_step p) steps tm0 = Done tm /\
    finished_in tm j.
Proof.
  intros Hft Hlen Hp Hfit HW Hprod Hj Hcount.
  destruct (team_start_spec a from to p W)
    as (tm0 & Hstart & Hinv0 & Hthreads); try (done || lia).
  assert (tm_threads tm0 !! j = Some (started W from to p (Z.of_nat j)))
    as Hj0.
  { rewrite Hthreads, list_lookup_fmap.
    rewrite (proj2 (lookup_seqZ 0 W j (0 + Z.of_nat j))) by (split; lia).
    simpl. do 2 f_equal. }
  destruct (steps_progress a from to p W) with
    (steps := steps) (tm := tm0) (j := j)
    (t := started W from to p (Z.of_nat j))
    as (tm & t' & Hrun & Hinv & Hj' & Hprog); try (done || lia).
  exists tm0, tm. split; [done|]. split; [done|].
  exists t'. split; [done|].
  destruct Hprog as [Hle|Hfin]; [|done].
  pose proof Hinv as (_ & Hwf & _).
  destruct (block_bounds a from to p W) with (id := Z.of_nat j)
    as (H1 & H2 & H3); try (done || lia).
  destruct (aligned_spec (sub_bound W from to (Z.of_nat j)) p Hp) as [Hr _].
  assert (thread_measure t' = O) as Hzero.
  { unfold thread_measure at 2 in Hle. unfold started in Hle.
    cbn [th_pc th_to] in Hle. lia. }
  apply (measure_zero_finished a from to p W) with (id := Z.of_nat j);
    try (done || lia).
  apply (Hwf j t' Hj').
Qed.

Lemma X17_threads_finish_on_their_own_witness :
  (0 <= 4 <= 5 /\ 5 <= Z.of_nat (length [1; 1; 1; 1; 1; 1]) /\ 1 <= 2 /\
   5 + 2 <= Long.MAX /\ 1 <= 2 <= Int.MAX /\ (5 - 4) * 2 <= Long.MAX /\
   Z.of_nat 1 < 2 /\
   (3 * Z.to_nat (5 - 4) + 1
    <= count_occ Z.eq_dec [1; 0; 1; 1; 1]%Z (Z.of_nat 1))%nat) /\
  exists tm0 tm,
    team_start 2 [1; 1; 1; 1; 1; 1] 4 5 2 = Done tm0 /\
    for_each (team_step 2) [1; 0; 1; 1; 1] tm0 = Done tm /\
    finished_in tm 1.
Proof.
  split.
  - simpl. unfold Long.MAX, Int.MAX. lia.
  - apply (X17_threads_finish_on_their_own 2 [1; 1; 1; 1; 1; 1] 4 5 2
             [1; 0; 1; 1; 1] 1);
      simpl; unfold Long.MAX, Int.MAX; lia.
Defined.
